(** * scvelo: kinetic model utilities

    A shallow embedding of [scvelo/tools/dynamical_model_utils.py]: the
    guarded helpers ([log], [inv]), the time-increment helpers
    ([compute_dt], [adjust_increments]), the closed-form kinetics
    ([unspliced], [spliced], [mRNA]), the inverse-time solver ([tau_inv]),
    the branch assignment ([assign_tau]) and the divergence evaluator
    ([compute_divergence], [assign_timepoints]).

    Numbers are IEEE-754 binary64 values (Rocq's primitive [float], the
    format of numpy's float64), so that division by zero, infinities and
    NaN behave as they do in the program.  One-dimensional numpy arrays
    are lists of floats.  numpy's [exp] and [log] are library functions of
    the platform; the model takes them as the parameters [np_exp] and
    [np_log]. *)

From Stdlib Require Import Floats ZArith List Bool Lia.
From Stdlib Require Uint63.
Import ListNotations.

Set Warnings "-inexact-float".
Local Open Scope float_scope.

(** ** numpy primitives on float64 arrays *)

Definition arr := list float.

Module NP.

(** A boolean used as a number, as in [tau * (o == 1)]. *)
Definition of_bool (b : bool) : float := if b then 1 else 0.

(** An integer used as a number, as in [ut * o]. *)
Definition of_nat (n : nat) : float := of_uint63 (Uint63.of_Z (Z.of_nat n)).

(** [np.maximum] and [np.minimum]: the first argument is kept when it is
    NaN or wins the comparison, so NaN propagates. *)
Definition maximum (a b : float) : float :=
  if (b <=? a) || is_nan a then a else b.

Definition minimum (a b : float) : float :=
  if (a <=? b) || is_nan a then a else b.

(** [np.clip(x, lo, hi)], a bound being [None] when absent. *)
Definition clip (x : float) (lo hi : option float) : float :=
  let y := match lo with Some l => maximum x l | None => x end in
  match hi with Some h => minimum y h | None => y end.

Fixpoint map2 {A B C : Type} (f : A -> B -> C) (l : list A) (l' : list B)
  : list C :=
  match l, l' with
  | x :: r, y :: r' => f x y :: map2 f r r'
  | _, _ => []
  end.

(** Reductions.  [np.max] and [np.min] raise on an empty array. *)
Definition max (l : arr) : option float :=
  match l with
  | [] => None
  | x :: r => Some (fold_left maximum r x)
  end.

Definition min (l : arr) : option float :=
  match l with
  | [] => None
  | x :: r => Some (fold_left minimum r x)
  end.

Definition sum (l : arr) : float :=
  match l with
  | [] => 0
  | x :: r => fold_left add r x
  end.

Definition mean (l : arr) : float := sum l / of_nat (length l).

Definition any (l : list bool) : bool := existsb (fun b => b) l.

(** [np.sort]: ascending, NaN last. *)
Definition sort_le (a b : float) : bool := is_nan b || (a <=? b).

Fixpoint insert (x : float) (l : arr) : arr :=
  match l with
  | [] => [x]
  | y :: r => if sort_le x y then x :: l else y :: insert x r
  end.

Definition sort (l : arr) : arr := fold_right insert [] l.

(** [np.diff(l, prepend=p)]. *)
Fixpoint diff_from (prev : float) (l : arr) : arr :=
  match l with
  | [] => []
  | x :: r => (x - prev) :: diff_from x r
  end.

Definition diff (prepend : float) (l : arr) : arr := diff_from prepend l.

(** [np.argmin] of a one-dimensional array: the first NaN if there is
    one, else the first minimal entry. *)
Fixpoint argmin_from (mp : float) (best i : nat) (l : arr) : nat :=
  match l with
  | [] => best
  | x :: r =>
      if is_nan mp then best
      else if negb (mp <=? x) then argmin_from x i (S i) r
      else argmin_from mp best (S i) r
  end.

Definition argmin (l : arr) : nat :=
  match l with
  | [] => O
  | x :: r => argmin_from x 0 1 r
  end.

(** Column [i] of a two-dimensional array given by its rows. *)
Definition column (rows : list arr) (i : nat) : arr :=
  map (fun r => nth i r nan) rows.

Definition ncols (rows : list arr) : nat :=
  match rows with
  | [] => O
  | r :: _ => length r
  end.

Definition transpose (rows : list arr) : list arr :=
  map (column rows) (seq 0 (ncols rows)).

(** [np.argmin(rows, axis=0)]: one index per column. *)
Definition argmin_axis0 (rows : list arr) : list nat :=
  map argmin (transpose rows).

(** Boolean-mask selection [a[mask]] and assignment [a[mask] = vals]. *)
Fixpoint select (mask : list bool) (a : arr) : arr :=
  match mask, a with
  | b :: m, x :: r => if b then x :: select m r else select m r
  | _, _ => []
  end.

Fixpoint scatter (mask : list bool) (vals a : arr) : arr :=
  match mask, a with
  | b :: m, x :: r =>
      if b then
        match vals with
        | v :: vs => v :: scatter m vs r
        | [] => x :: scatter m [] r
        end
      else x :: scatter m vals r
  | _, _ => a
  end.

(** [np.nanvar]: the variance of the entries that are not NaN. *)
Definition nanvar (a : arr) : float :=
  let xs := filter (fun x => negb (is_nan x)) a in
  let avg := mean xs in
  mean (map (fun x => (x - avg) * (x - avg)) xs).

(** [np.linspace(start, stop, num)] with the end point included. *)
Definition linspace (start stop : float) (num : nat) : arr :=
  let div := of_nat (num - 1) in
  let delta := stop - start in
  let step := delta / div in
  let y := map of_nat (seq 0 num) in
  let y := if step =? 0 then map (fun v => v / div * delta) y
           else map (fun v => v * step) y in
  let y := map (fun v => v + start) y in
  if Nat.ltb 1 num then removelast y ++ [stop] else y.

Definition pi : float := 3.141592653589793.

End NP.

(** ** The option monad, for the calls that can raise *)

Definition obind {A B : Type} (o : option A) (f : A -> option B) : option B :=
  match o with
  | Some a => f a
  | None => None
  end.

Notation "x <- c ;; k" := (obind c (fun x => k))
  (at level 61, c at next level, right associativity).
Notation "' p <- c ;; k" := (obind c (fun x => let p := x in k))
  (at level 61, p pattern, c at next level, right associativity).

Fixpoint mapM {A B : Type} (f : A -> option B) (l : list A) : option (list B) :=
  match l with
  | [] => Some []
  | x :: r => y <- f x ;; ys <- mapM f r ;; Some (y :: ys)
  end.

(** ** Caller-owned arrays

    [compute_divergence] updates the arrays [tau] and [tau_] in place when
    the caller passes them.  Arrays that outlive a call are therefore kept
    in a heap and named by their address; a computation takes the heap and
    returns its result with the heap it leaves, or fails. *)

Definition ref := nat.
Definition heap := list arr.
Definition M (A : Type) : Type := heap -> option (A * heap).

Definition ret {A : Type} (a : A) : M A := fun h => Some (a, h).

Definition bind {A B : Type} (m : M A) (f : A -> M B) : M B :=
  fun h => match m h with
           | Some (a, h') => f a h'
           | None => None
           end.

Definition raise {A : Type} : M A := fun _ => None.

Definition lift {A : Type} (o : option A) : M A :=
  fun h => match o with
           | Some a => Some (a, h)
           | None => None
           end.

Definition read (r : ref) : M arr :=
  fun h => match nth_error h r with
           | Some a => Some (a, h)
           | None => None
           end.

Fixpoint update (r : ref) (a : arr) (h : heap) : heap :=
  match h, r with
  | [], _ => []
  | _ :: t, O => a :: t
  | x :: t, S r' => x :: update r' a t
  end.

Definition write (r : ref) (a : arr) : M unit :=
  fun h => if Nat.ltb r (length h) then Some (tt, update r a h) else None.

Notation "x <~ c ;; k" := (bind c (fun x => k))
  (at level 61, c at next level, right associativity).

(** The keyword arguments of [compute_divergence], [mode] apart. *)
Record kwargs : Type := {
  kw_u : arr;
  kw_s : arr;
  kw_alpha : float;
  kw_beta : float;
  kw_gamma : float;
  kw_scaling : float;
  kw_t_ : option float;
  kw_u0_ : option float;
  kw_s0_ : option float;
  kw_tau : option ref;
  kw_tau_ : option ref;
  kw_std_u : float;
  kw_std_s : float;
  kw_normalized : bool;
  kw_projection : bool;
  kw_var_scale : bool;
  kw_fit_steady_states : bool;
  kw_connectivities : option (list arr);
  kw_constraint_time_increments : bool
}.

(** The query modes; [Distance] stands for the default and for every
    string no branch of the dispatch matches. *)
Inductive mode_t : Type :=
| Distance
| Tau
| Likelihood
| Nll
| SoftEval
| HardEval
| SoftState
| HardState
| SteadyState
| AssignTimepoints.

(** What [compute_divergence] returns, by mode. *)
Inductive result : Type :=
| RMatrix (rows : list arr)
| RTau (tau tau_ : arr)
| RHardEval (o_ o : nat) (ut st : arr)
| RVector (v : arr)
| RState (o : list nat)
| RAssign (t tau : arr) (o : list nat).

(** ** Helper functions and the kinetic model *)

Section Model.

(** numpy's [exp] and [log] on float64. *)
Variable np_exp : float -> float.
Variable np_log : float -> float.

(** [log(x, eps=1e-6)]: "to avoid invalid values for log". *)
Definition log (x : float) (eps : float) : float :=
  np_log (NP.clip x (Some eps) (Some (1 - eps))).

Definition eps_default : float := 1e-6.

(** [inv(x)]: [1 / x * (x != 0)], warnings silenced. *)
Definition inv (x : float) : float :=
  1 / x * NP.of_bool (negb (x =? 0)).

(** [normalize(X, axis=0)] on the rows of [X]. *)
Definition normalize (X : list arr) : list arr :=
  let X_sum := map NP.sum (NP.transpose X) in
  let X_sum := map (fun v => v + NP.of_bool (v =? 0)) X_sum in
  map (fun row => NP.map2 div row X_sum) X.

(** [linreg(u, s)], "linear regression fit", for dense two-dimensional
    arrays given by their rows: per column, the sum of [s * u] over the
    sum of [s ** 2]. *)
Definition linreg (u s : list arr) : arr :=
  let ss_ := map NP.sum (NP.transpose (map (map (fun x => x * x)) s)) in
  let us_ := map NP.sum (NP.transpose (NP.map2 (NP.map2 mul) s u)) in
  NP.map2 div us_ ss_.

(** [compute_dt(t, clipped, axis=0)] on one column of [t]: the array is
    two-dimensional (the function indexes the column minima with
    [[None, :]]), [len(t)] is its number of rows, and every step runs
    along axis 0, that is column by column. *)
Definition compute_dt_col (t : arr) (clipped : bool) : option arr :=
  prepend <- NP.min t ;;
  let dt := NP.diff prepend (NP.sort t) in
  t_max <- NP.max t ;;
  m_dt <- NP.max [NP.mean dt; t_max / NP.of_nat (length t)] ;;
  let m_dt := NP.clip m_dt (Some 0) None in
  if clipped then
    let ub := m_dt + 3 * sqrt m_dt in
    Some (map (fun d => NP.clip d (Some 0) (Some ub)) dt)
  else Some dt.

Definition compute_dt (t : list arr) (clipped : bool) : option (list arr) :=
  match t with
  | [] => None
  | _ =>
      cols <- mapM (fun c => compute_dt_col c clipped) (NP.transpose t) ;;
      Some (NP.transpose cols)
  end.

(** [root_time(t, root)] for a one-dimensional [t] and an index
    [root >= 0] (of a two-dimensional [t] every column goes through
    these steps, each reduction being along axis 0).  The times are
    shifted to start at the root cell, the cells before the root
    wrapping around to the end; [t[root]] raises when [root] is out of
    range. *)
Definition root_time (t : arr) (root : nat) : option (arr * float) :=
  t_root <- nth_error t root ;;
  let o := map (fun x => t_root <=? x) t in
  let t_after := NP.map2 (fun x b => (x - t_root) * NP.of_bool b) t o in
  t_origin <- NP.max t_after ;;
  let t_before :=
    NP.map2 (fun x b => (x + t_origin) * NP.of_nat (1 - Nat.b2n b)) t o in
  t_switch <- NP.min t_before ;;
  let t_rooted := NP.map2 PrimFloat.add t_after t_before in
  Some (t_rooted, t_switch).

(** *** Dynamics delineation *)

Definition unspliced (tau u0 alpha beta : float) : float :=
  let expu := np_exp (- beta * tau) in
  u0 * expu + alpha / beta * (1 - expu).

Definition spliced (tau s0 u0 alpha beta gamma : float) : float :=
  let c := (alpha - u0 * beta) * inv (gamma - beta) in
  let expu := np_exp (- beta * tau) in
  let exps := np_exp (- gamma * tau) in
  s0 * exps + alpha / gamma * (1 - exps) + c * (exps - expu).

Definition mRNA (tau u0 s0 alpha beta gamma : float) : float * float :=
  let expu := np_exp (- beta * tau) in
  let exps := np_exp (- gamma * tau) in
  let u := u0 * expu + alpha / beta * (1 - expu) in
  let s := s0 * exps + alpha / gamma * (1 - exps)
           + (alpha - u0 * beta) * inv (gamma - beta) * (exps - expu) in
  (u, s).

(** [adjust_increments(tau)]: every gap of the sorted times above the
    Poisson bound is removed by shifting down the times at or after it.
    The comparison [tau >= ti] reads the argument, not [tau_new]. *)
Definition where_ (mask : list bool) : list nat :=
  map fst (filter snd (combine (seq 0 (length mask)) mask)).

Definition adjust_increments (tau : arr) : option arr :=
  let tau_new := map (fun x => x * 1) tau in
  let tau_ord := NP.sort tau_new in
  let dtau := NP.diff 0 tau_ord in
  tau_max <- NP.max tau ;;
  m_dtau <- NP.max [NP.mean dtau; tau_max / NP.of_nat (length tau); 0] ;;
  let ub := m_dtau + 3 * sqrt m_dtau in
  let idx := where_ (map (fun d => ub <? d) dtau) in
  Some (fold_left
          (fun tau_new i =>
             let ti := nth i tau_ord nan in
             let dti := nth i dtau nan in
             NP.map2 (fun t tn => if ti <=? t then tn - dti else tn)
                     tau tau_new)
          idx tau_new).

(** *** The inverse-time solver

    The two formulas of [tau_inv], for one cell. *)
Definition tau_inv_us (u s u0 s0 alpha beta gamma : float) : float :=
  let beta_ := beta * inv (gamma - beta) in
  let xinf := alpha / gamma - beta_ * (alpha / beta) in
  - 1 / gamma
  * log ((s - beta_ * u - xinf) / (s0 - beta_ * u0 - xinf)) eps_default.

Definition tau_inv_u (u u0 alpha beta : float) : float :=
  let uinf := alpha / beta in
  - 1 / beta * log ((u - uinf) / (u0 - uinf)) eps_default.

Definition is_none {A : Type} (o : option A) : bool :=
  match o with Some _ => false | None => true end.

(** [tau_inv(u, s, u0, s0, alpha, beta, gamma)].  Every per-cell
    quantity is an array of the population's length: numpy broadcasts a
    scalar rate against the arrays, and the callers below pass such a
    rate as a constant array.  [s], [s0] and [gamma] may be [None].
    The result is unbound (an error) when neither formula is selected. *)
Definition tau_inv (u : arr) (s : option arr) (u0 : arr) (s0 : option arr)
           (alpha beta : arr) (gamma : option arr) : option arr :=
  let n := length u in
  let cell (a : arr) (i : nat) := nth i a nan in
  let inv_u :=
    match gamma with
    | Some g => NP.map2 (fun g b => b <=? g) g beta
    | None => repeat true n
    end in
  let inv_us := map negb inv_u in
  let any_invu := NP.any inv_u || is_none s in
  let any_invus := NP.any inv_us && negb (is_none s) in
  let tau_u :=
    map (fun i => tau_inv_u (cell u i) (cell u0 i) (cell alpha i)
                            (cell beta i))
        (seq 0 n) in
  if any_invus then
    match s, s0, gamma with
    | Some s, Some s0, Some gamma =>
        let tau :=
          map (fun i => tau_inv_us (cell u i) (cell s i) (cell u0 i)
                                   (cell s0 i) (cell alpha i) (cell beta i)
                                   (cell gamma i))
              (seq 0 n) in
        if any_invu then
          Some (NP.map2 PrimFloat.add
                  (NP.map2 (fun t b => t * NP.of_bool b) tau_u inv_u)
                  (NP.map2 (fun t b => t * NP.of_bool b) tau inv_us))
        else Some tau
    | _, _, _ => None
    end
  else if any_invu then Some tau_u
  else None.

(** *** Branch time assignment *)

Definition mRNA_arr (tau : arr) (u0 s0 alpha beta gamma : float)
  : arr * arr :=
  let us := map (fun t => mRNA t u0 s0 alpha beta gamma) tau in
  (map fst us, map snd us).

Definition sq_dist (x y : float * float) : float :=
  (fst x - fst y) * (fst x - fst y) + (snd x - snd y) * (snd x - snd y).

(** [assign_tau]: [projection] stands for
    [assignment_mode is 'projection']. *)
Definition assign_tau (u s : arr) (alpha beta gamma : float)
           (t_ : option float) (u0_ s0_ : float) (projection : bool)
  : option (arr * arr * option float) :=
  let n := length u in
  let positive := map (fun x => 0 <? x) s in
  if projection && (beta <? gamma) then
    let x_obs := combine u s in
    u_min <- NP.min (NP.select positive u) ;;
    t0 <- tau_inv [u_min] None [u0_] None [0] [beta] None ;;
    let t0 := hd nan t0 in
    let num := Nat.min (Nat.max (n / 5) 200) 500 in
    t_end <- t_ ;;
    let tpoints := NP.linspace 0 t_end num in
    let tpoints_ := tl (NP.linspace 0 t0 num) in
    let xt := map (fun t => mRNA t 0 0 alpha beta gamma) tpoints in
    let xt_ := map (fun t => mRNA t u0_ s0_ 0 beta gamma) tpoints_ in
    let tau :=
      map (fun xi => nth (NP.argmin (map (fun x => sq_dist x xi) xt))
                         tpoints nan) x_obs in
    let tau_ :=
      map (fun xi => nth (NP.argmin (map (fun x => sq_dist x xi) xt_))
                         tpoints_ nan) x_obs in
    Some (tau, tau_, t_)
  else
    tau <- tau_inv u (Some s) (repeat 0 n) (Some (repeat 0 n))
             (repeat alpha n) (repeat beta n) (Some (repeat gamma n)) ;;
    let tau := map (fun x => NP.clip x (Some 0) t_) tau in
    tau_ <- tau_inv u (Some s) (repeat u0_ n) (Some (repeat s0_ n))
              (repeat 0 n) (repeat beta n) (Some (repeat gamma n)) ;;
    tau_max <- NP.max (NP.select positive tau_) ;;
    let tau_ := map (fun x => NP.clip x (Some 0) (Some tau_max)) tau_ in
    Some (tau, tau_, t_).

(** *** The divergence evaluator *)

(** Standardized residuals of the observations against the two branch
    curves, with the modeled values:
    ((distu, distu_, dists, dists_), (ut, st, ut_, st_)). *)
Definition residuals (kw : kwargs) (std_u u0_ s0_ : float) (tau tau_ : arr)
  : (arr * arr * arr * arr) * (arr * arr * arr * arr) :=
  let '(ut, st) :=
    mRNA_arr tau 0 0 (kw_alpha kw) (kw_beta kw) (kw_gamma kw) in
  let '(ut_, st_) :=
    mRNA_arr tau_ u0_ s0_ 0 (kw_beta kw) (kw_gamma kw) in
  let distu := NP.map2 (fun u ut => (u - ut) / std_u) (kw_u kw) ut in
  let distu_ := NP.map2 (fun u ut => (u - ut) / std_u) (kw_u kw) ut_ in
  let dists := NP.map2 (fun s st => (s - st) / kw_std_s kw) (kw_s kw) st in
  let dists_ := NP.map2 (fun s st => (s - st) / kw_std_s kw) (kw_s kw) st_ in
  ((distu, distu_, dists, dists_), (ut, st, ut_, st_)).

Definition sq_sum (a b : arr) : arr :=
  NP.map2 (fun x y => x * x + y * y) a b.

(** The branch each cell is nearer to with the times [tau], [tau_]:
    0 for the repression curve, 1 for the induction curve. *)
Definition nearer_branch (kw : kwargs) (std_u u0_ s0_ : float)
           (tau tau_ : arr) : list nat :=
  let '((distu, distu_, dists, dists_), _) :=
    residuals kw std_u u0_ s0_ tau tau_ in
  NP.argmin_axis0 [sq_sum distu_ dists_; sq_sum distu dists].

(** "adjust increments of tau, tau_ to avoid meaningless jumps": the
    entries of the cells nearer to a branch are overwritten in place. *)
Definition adjust_stage (kw : kwargs) (std_u u0_ s0_ : float)
           (rtau rtau_ : ref) : M unit :=
  tau <~ read rtau ;;
  tau_ <~ read rtau_ ;;
  let o := nearer_branch kw std_u u0_ s0_ tau tau_ in
  let off := map (Nat.eqb 0) o in
  let on := map (Nat.eqb 1) o in
  _ <~ (if NP.any on then
          tau <~ read rtau ;;
          adj <~ lift (adjust_increments (NP.select on tau)) ;;
          write rtau (NP.scatter on adj tau)
        else ret tt) ;;
  if NP.any off then
    tau_ <~ read rtau_ ;;
    adj <~ lift (adjust_increments (NP.select off tau_)) ;;
    write rtau_ (NP.scatter off adj tau_)
  else ret tt.

Definition dot (a b : arr) : float := NP.sum (NP.map2 mul a b).

(** The distances to the candidate states, one row per state:
    repression curve, induction curve, and with [fit_steady_states]
    the repression steady state and the induction steady state; with
    the variances used. *)
Definition candidate_distances (kw : kwargs) (std_u : float)
           (distu distu_ dists dists_ : arr) : list arr * float * float :=
  let distx := sq_sum distu dists in
  let distx_ := sq_sum distu_ dists_ in
  let '(distx, distx_, varu, vars) :=
    if kw_var_scale kw then
      let o := map NP.of_nat (NP.argmin_axis0 [distx_; distx]) in
      let mix d d_ :=
        NP.map2 (fun p o => fst p * o + snd p + (1 - o)) (combine d d_) o in
      let varu := NP.nanvar (mix distu distu_) in
      let vars := NP.nanvar (mix dists dists_) in
      (NP.map2 (fun x y => x * x / varu + y * y / vars) distu dists,
       NP.map2 (fun x y => x * x / varu + y * y / vars) distu_ dists_,
       varu, vars)
    else (distx, distx_, 1, 1) in
  let res :=
    if kw_fit_steady_states kw then
      let u_inf := kw_alpha kw / kw_beta kw in
      let s_inf := kw_alpha kw / kw_gamma kw in
      let distx_steady :=
        NP.map2 (fun u s =>
                   ((u - u_inf) / std_u) * ((u - u_inf) / std_u) / varu
                   + ((s - s_inf) / kw_std_s kw)
                     * ((s - s_inf) / kw_std_s kw) / vars)
                (kw_u kw) (kw_s kw) in
      let distx_steady_ :=
        NP.map2 (fun u s =>
                   (u / std_u) * (u / std_u) / varu
                   + (s / kw_std_s kw) * (s / kw_std_s kw) / vars)
                (kw_u kw) (kw_s kw) in
      [distx_; distx; distx_steady_; distx_steady]
    else [distx_; distx] in
  let res :=
    match kw_connectivities kw with
    | Some conn => map (fun r => map (fun crow => dot crow r) conn) res
    | None => res
    end in
  (res, varu, vars).

Definition likelihood_of (varu vars : float) (res : list arr) : list arr :=
  map (map (fun d => 1 / (2 * NP.pi * sqrt (varu * vars))
                     * np_exp (-0.5 * d))) res.

Definition row (res : list arr) (k : nat) : option arr := nth_error res k.

(** [if 2 in o: o[o == 2] = 1] and [if 3 in o: o[o == 3] = 0]. *)
Definition collapse (o : list nat) : list nat :=
  let o := map (fun k => if Nat.eqb k 2 then 1%nat else k) o in
  map (fun k => if Nat.eqb k 3 then 0%nat else k) o.

Definition mask_eq (k : nat) (o : list nat) : list bool :=
  map (fun j => Nat.eqb j k) o.

Definition times (a : arr) (m : list bool) : arr :=
  NP.map2 (fun x b => x * NP.of_bool b) a m.

(** The mode branches. *)
Definition dispatch (kw : kwargs) (mode : mode_t) (rtau rtau_ : ref)
           (t_ : option float) (res : list arr) (varu vars : float)
           (ut st ut_ st_ : arr) : M result :=
  let blend (m m_ o o_ : arr) : arr :=
    NP.map2 PrimFloat.add (NP.map2 mul m o) (NP.map2 mul m_ o_) in
  match mode with
  | Distance => ret (RMatrix res)
  | Tau =>
      tau <~ read rtau ;;
      tau_ <~ read rtau_ ;;
      ret (RTau tau tau_)
  | Likelihood =>
      let res := likelihood_of varu vars res in
      ret (RMatrix (if kw_normalized kw then normalize res else res))
  | Nll =>
      let res :=
        map (map (fun d => np_log (2 * NP.pi * sqrt (varu * vars))
                           + 0.5 * d)) res in
      ret (RMatrix (if kw_normalized kw then normalize res else res))
  | SoftEval =>
      let res := likelihood_of varu vars res in
      res <~ (if kw_fit_steady_states kw then
                r2 <~ lift (row res 2) ;;
                r3 <~ lift (row res 3) ;;
                let steady := NP.map2 NP.maximum r2 r3 in
                ret (map (fun r =>
                            NP.map2 (fun x y => NP.clip (x - y) (Some 0) None)
                                    r steady) res)
              else ret res) ;;
      let res := if kw_normalized kw then normalize res else res in
      o_ <~ lift (row res 0) ;;
      o <~ lift (row res 1) ;;
      ret (RMatrix [o_; o; blend ut ut_ o o_; blend st st_ o o_])
  | HardEval =>
      let o := NP.argmin_axis0 res in
      o_ <~ lift (nth_error o 0) ;;
      o <~ lift (nth_error o 1) ;;
      let scale (m m_ : arr) : arr :=
        NP.map2 PrimFloat.add (map (fun x => x * NP.of_nat o) m)
                (map (fun x => x * NP.of_nat o_) m_) in
      ret (RHardEval o_ o (scale ut ut_) (scale st st_))
  | SoftState =>
      let res := likelihood_of varu vars res in
      let res := if kw_normalized kw then normalize res else res in
      r0 <~ lift (row res 0) ;;
      r1 <~ lift (row res 1) ;;
      ret (RVector (NP.map2 sub r1 r0))
  | HardState => ret (RState (NP.argmin_axis0 res))
  | SteadyState =>
      let res := likelihood_of varu vars res in
      let res := if kw_normalized kw then normalize res else res in
      r2 <~ lift (row res 2) ;;
      r3 <~ lift (row res 3) ;;
      ret (RVector (NP.map2 PrimFloat.add r2 r3))
  | AssignTimepoints =>
      let o := NP.argmin_axis0 res in
      tau_ <~ read rtau_ ;;
      _ <~ write rtau_ (times tau_ (mask_eq 0 o)) ;;
      tau <~ read rtau ;;
      _ <~ write rtau (times tau (mask_eq 1 o)) ;;
      let o := collapse o in
      tau <~ read rtau ;;
      tau_ <~ read rtau_ ;;
      t_ <~ lift t_ ;;
      let t := NP.map2 PrimFloat.add (times tau (mask_eq 1 o))
                       (times (map (fun x => x + t_) tau_) (mask_eq 0 o)) in
      ret (RAssign t tau o)
  end.

(** The part of [compute_divergence] every mode shares, once [tau],
    [tau_] and [t_] are set ([rtau] and [rtau_] are the addresses of
    the two arrays): the increment adjustment, then the distance
    matrix [res] with the variances and the modeled values. *)
Definition front (kw : kwargs) (u0_ s0_ : float) (rtau rtau_ : ref)
  : M (list arr * float * float * (arr * arr * arr * arr)) :=
  let std_u := kw_std_u kw / kw_scaling kw in
  _ <~ (if kw_constraint_time_increments kw
        then adjust_stage kw std_u u0_ s0_ rtau rtau_
        else ret tt) ;;
  tau <~ read rtau ;;
  tau_ <~ read rtau_ ;;
  let '((distu, distu_, dists, dists_), model) :=
    residuals kw std_u u0_ s0_ tau tau_ in
  let '(res, varu, vars) :=
    candidate_distances kw std_u distu distu_ dists dists_ in
  ret (res, varu, vars, model).

Definition divergence_body (kw : kwargs) (mode : mode_t) (u0_ s0_ : float)
           (rtau rtau_ : ref) (t_ : option float) : M result :=
  x <~ front kw u0_ s0_ rtau rtau_ ;;
  let '(res, varu, vars, (ut, st, ut_, st_)) := x in
  dispatch kw mode rtau rtau_ t_ res varu vars ut st ut_ st_.

(** The start of the repression branch: [u0_] and [s0_] as passed, or
    the induction curve at [t_] when one of them is [None]. *)
Definition anchor (kw : kwargs) : option (float * float) :=
  match kw_u0_ kw, kw_s0_ kw with
  | Some a, Some b => Some (a, b)
  | _, _ =>
      t <- kw_t_ kw ;;
      Some (mRNA t 0 0 (kw_alpha kw) (kw_beta kw) (kw_gamma kw))
  end.

(** [compute_divergence].  Arrays passed by the caller (with [t_]) are
    used where they are; otherwise [assign_tau] makes two fresh arrays,
    which no earlier object of the caller aliases: the body then runs
    on a heap of its own holding just these two, and the caller's heap
    is returned as it was. *)
Definition compute_divergence (kw : kwargs) (mode : mode_t) : M result :=
  fun h =>
    '(u0_, s0_) <- anchor kw ;;
    match kw_tau kw, kw_tau_ kw, kw_t_ kw with
    | Some rtau, Some rtau_, Some t_ =>
        divergence_body kw mode u0_ s0_ rtau rtau_ (Some t_) h
    | _, _, _ =>
        '(tau, tau_, t_) <-
          assign_tau (kw_u kw) (kw_s kw) (kw_alpha kw) (kw_beta kw)
            (kw_gamma kw) (kw_t_ kw) u0_ s0_ (kw_projection kw) ;;
        '(r, _) <- divergence_body kw mode u0_ s0_ 0%nat 1%nat t_ [tau; tau_] ;;
        Some (r, h)
    end.

(** [assign_timepoints]: the keyword arguments are passed on, with the
    mode fixed. *)
Definition assign_timepoints (kw : kwargs) : M result :=
  compute_divergence kw AssignTimepoints.

(** [np.argsort], whose order among equal keys is the platform's. *)
Variable np_argsort : arr -> list nat.

(** [vectorize(t, t_, alpha, beta, gamma, alpha_, u0, s0, sorted)]: the
    per-cell branch parameters of the absolute times [t].  [o] is
    [np.array(t < t_, dtype=int)]; a cell before the switch [t_] keeps
    [t], [alpha], [u0], [s0], a cell after it gets the time since the
    switch, [alpha_] and the state at the switch. *)
Definition vectorize (t : arr) (t_ alpha beta : float) (gamma : option float)
           (alpha_ u0 s0 : float) (sorted : bool) : arr * arr * arr * arr :=
  let o := map (fun x => Nat.b2n (x <? t_)) t in
  let pick (a b : float) (k : nat) : float :=
    a * NP.of_nat k + b * NP.of_nat (1 - k) in
  let tau := NP.map2 (fun x k => pick x (x - t_) k) t o in
  let u0_ := unspliced t_ u0 alpha beta in
  let s0_ := spliced t_ s0 u0 alpha beta
               (match gamma with Some g => g | None => beta / 2 end) in
  let u0 := map (pick u0 u0_) o in
  let s0 := map (pick s0 s0_) o in
  let alpha := map (pick alpha alpha_) o in
  if sorted then
    let idx := np_argsort t in
    let take (a : arr) : arr := map (fun i => nth i a nan) idx in
    (take tau, take alpha, take u0, take s0)
  else (tau, alpha, u0, s0).

End Model.

(** ** Executable stand-ins for numpy's [exp] and [log]

    The concrete runs below need values of [np_exp] and [np_log].  These
    two functions compute them in binary64 ([exp64] to a relative error
    near 1e-13, [log64] to a few units in the last place); they return
    exactly 1 at zero and exactly 0 below -800, where the true exponential
    is under the smallest binary64 number, as numpy's [exp] does.  The runs
    are chosen so that nothing concluded from them depends on more than
    that. *)

Fixpoint horner_exp (n : nat) (k y : float) : float :=
  match n with
  | O => 1
  | S n' => 1 + y / k * horner_exp n' (k + 1) y
  end.

Fixpoint repeat_square (n : nat) (p : float) : float :=
  match n with
  | O => p
  | S n' => repeat_square n' (p * p)
  end.

Definition exp64 (x : float) : float :=
  if is_nan x then x
  else if x <? -800 then 0
  else if 800 <? x then infinity
  else repeat_square 10 (horner_exp 20 1 (x / 1024)).

Fixpoint atanh_series (n : nat) (k z2 : float) : float :=
  match n with
  | O => 1 / k
  | S n' => 1 / k + z2 * atanh_series n' (k + 2) z2
  end.

Definition float_of_Z (z : Z) : float :=
  match z with
  | Z0 => 0
  | Zpos _ => of_uint63 (Uint63.of_Z z)
  | Zneg p => - of_uint63 (Uint63.of_Z (Zpos p))
  end.

Definition log64 (x : float) : float :=
  if is_nan x then x
  else if x <? 0 then nan
  else if x =? 0 then neg_infinity
  else if x =? infinity then infinity
  else
    let '(m, e) := Z.frexp x in
    let '(m, e) :=
      if m <? 0.7071067811865476 then (2 * m, (e - 1)%Z) else (m, e) in
    let z := (m - 1) / (m + 1) in
    float_of_Z e * 0.6931471805599453 + 2 * z * atanh_series 14 1 (z * z).

(** A function with the domain of a logarithm (NaN at zero and below, as
    at NaN) that preserves the order above zero, for runs that depend on
    nothing else. *)
Definition log_like (x : float) : float := if 0 <? x then x else nan.

(** A function with the sign pattern of a logarithm (NaN at NaN, negative
    up to 1, positive above), for runs that depend on nothing else. *)
Definition log_sign (x : float) : float :=
  if is_nan x then x else if x <=? 1 then -1 else 1.

(** What every mode of [compute_divergence] shares: the call up to the
    mode dispatch.  It yields the distance matrix with the variances and
    the modeled values, the addresses of [tau] and [tau_], [t_], the heap
    the dispatch starts from, and whether that heap is the call's own
    (fresh arrays) rather than the caller's. *)
Definition shared_stage (np_exp np_log : float -> float) (kw : kwargs)
           (h : heap)
  : option ((list arr * float * float * (arr * arr * arr * arr))
            * ref * ref * option float * heap * bool) :=
  '(u0_, s0_) <- anchor np_exp kw ;;
  match kw_tau kw, kw_tau_ kw, kw_t_ kw with
  | Some rtau, Some rtau_, Some t_ =>
      '(x, h1) <- front np_exp kw u0_ s0_ rtau rtau_ h ;;
      Some (x, rtau, rtau_, Some t_, h1, false)
  | _, _, _ =>
      '(tau, tau_, t_) <-
        assign_tau np_exp np_log (kw_u kw) (kw_s kw) (kw_alpha kw)
          (kw_beta kw) (kw_gamma kw) (kw_t_ kw) u0_ s0_ (kw_projection kw) ;;
      '(x, h1) <- front np_exp kw u0_ s0_ 0%nat 1%nat [tau; tau_] ;;
      Some (x, 0%nat, 1%nat, t_, h1, true)
  end.

(** ** Quantities the statements below name

    The mean gap of [compute_dt] for one column, before it is clipped at
    0: the larger of the mean of the sorted consecutive gaps and of
    [max(t) / len(t)]; and the Poisson upper bound of a mean. *)
Definition mean_gap (col : arr) : option float :=
  lo <- NP.min col ;;
  hi <- NP.max col ;;
  Some (NP.maximum (NP.mean (NP.diff lo (NP.sort col)))
                   (hi / NP.of_nat (length col))).

Definition poisson_ub (m : float) : float := m + 3 * sqrt m.

(** ** Concrete populations for the runs *)

(** Two cells; both branch curves are anchored at the origin ([u0_] and
    [s0_] are 0 and every time is 0), so the distances to the two curves
    coincide in every cell. *)
Definition kw_tie : kwargs := {|
  kw_u := [0.5; 1]; kw_s := [0.25; 3];
  kw_alpha := 2; kw_beta := 1; kw_gamma := 0.5; kw_scaling := 1;
  kw_t_ := Some 3; kw_u0_ := Some 0; kw_s0_ := Some 0;
  kw_tau := Some 0%nat; kw_tau_ := Some 1%nat;
  kw_std_u := 1; kw_std_s := 1;
  kw_normalized := false; kw_projection := false; kw_var_scale := false;
  kw_fit_steady_states := true; kw_connectivities := None;
  kw_constraint_time_increments := true |}.

Definition heap_tie : heap := [[0; 0]; [0; 0]].

(** Three cells with the times passed by the caller: cell 0 sits at the
    induction steady state (alpha/beta, alpha/gamma) = (2, 4), cell 1 at
    the repression steady state (0, 0) and cell 2 on the repression curve
    at its start (u0_, s0_) = (1.5, 1).  Every time is 0 but the
    induction time of cell 1, which is 2000: [np_exp] is only evaluated at
    zero and below -800. *)
Definition kw_steady : kwargs := {|
  kw_u := [2; 0; 1.5]; kw_s := [4; 0; 1];
  kw_alpha := 2; kw_beta := 1; kw_gamma := 0.5; kw_scaling := 1;
  kw_t_ := Some 3; kw_u0_ := Some 1.5; kw_s0_ := Some 1;
  kw_tau := Some 0%nat; kw_tau_ := Some 1%nat;
  kw_std_u := 1; kw_std_s := 1;
  kw_normalized := false; kw_projection := false; kw_var_scale := false;
  kw_fit_steady_states := true; kw_connectivities := None;
  kw_constraint_time_increments := true |}.

Definition heap_steady : heap := [[0; 2000; 0]; [0; 0; 0]].

(** Three cells at the induction steady state with times passed by the
    caller; the induction time of the last cell jumps ahead of the
    others. *)
Definition kw_jump : kwargs := {|
  kw_u := [2; 2; 2]; kw_s := [4; 4; 4];
  kw_alpha := 2; kw_beta := 1; kw_gamma := 0.5; kw_scaling := 1;
  kw_t_ := Some 3; kw_u0_ := Some 0; kw_s0_ := Some 0;
  kw_tau := Some 0%nat; kw_tau_ := Some 1%nat;
  kw_std_u := 1; kw_std_s := 1;
  kw_normalized := false; kw_projection := false; kw_var_scale := false;
  kw_fit_steady_states := true; kw_connectivities := None;
  kw_constraint_time_increments := true |}.

Definition heap_jump : heap := [[2000; 3000; 10000]; [5; 5; 5]].

(** One cell at the induction steady state, which is also where the
    repression branch starts ([u0_], [s0_]); the caller passes [tau] and
    [tau_], both holding 2000. *)
Definition kw_twice : kwargs := {|
  kw_u := [2]; kw_s := [4];
  kw_alpha := 2; kw_beta := 1; kw_gamma := 0.5; kw_scaling := 1;
  kw_t_ := Some 3000; kw_u0_ := Some 2; kw_s0_ := Some 4;
  kw_tau := Some 0%nat; kw_tau_ := Some 1%nat;
  kw_std_u := 1; kw_std_s := 1;
  kw_normalized := false; kw_projection := false; kw_var_scale := false;
  kw_fit_steady_states := true; kw_connectivities := None;
  kw_constraint_time_increments := true |}.

Definition heap_twice : heap := [[2000]; [2000]].

(** The same cell with no arrays passed: the times are assigned by
    [assign_tau]. *)
Definition kw_fresh : kwargs := {|
  kw_u := [1; 0.5; 1.5]; kw_s := [1; 0.25; 2];
  kw_alpha := 2; kw_beta := 1; kw_gamma := 0.5; kw_scaling := 1;
  kw_t_ := Some 3; kw_u0_ := None; kw_s0_ := None;
  kw_tau := None; kw_tau_ := None;
  kw_std_u := 1; kw_std_s := 1;
  kw_normalized := false; kw_projection := false; kw_var_scale := false;
  kw_fit_steady_states := true; kw_connectivities := None;
  kw_constraint_time_increments := true |}.

(** [kw_jump] with the increment constraint switched off. *)
Definition kw_loose : kwargs := {|
  kw_u := [2; 2; 2]; kw_s := [4; 4; 4];
  kw_alpha := 2; kw_beta := 1; kw_gamma := 0.5; kw_scaling := 1;
  kw_t_ := Some 3; kw_u0_ := Some 0; kw_s0_ := Some 0;
  kw_tau := Some 0%nat; kw_tau_ := Some 1%nat;
  kw_std_u := 1; kw_std_s := 1;
  kw_normalized := false; kw_projection := false; kw_var_scale := false;
  kw_fit_steady_states := true; kw_connectivities := None;
  kw_constraint_time_increments := false |}.

(** [kw_steady] without the steady states among the candidates. *)
Definition kw_curves : kwargs := {|
  kw_u := [2; 0; 1.5]; kw_s := [4; 0; 1];
  kw_alpha := 2; kw_beta := 1; kw_gamma := 0.5; kw_scaling := 1;
  kw_t_ := Some 3; kw_u0_ := Some 1.5; kw_s0_ := Some 1;
  kw_tau := Some 0%nat; kw_tau_ := Some 1%nat;
  kw_std_u := 1; kw_std_s := 1;
  kw_normalized := false; kw_projection := false; kw_var_scale := false;
  kw_fit_steady_states := false; kw_connectivities := None;
  kw_constraint_time_increments := true |}.

(** [kw_steady] without the switching time [t_]. *)
Definition kw_no_switch : kwargs := {|
  kw_u := [2; 0; 1.5]; kw_s := [4; 0; 1];
  kw_alpha := 2; kw_beta := 1; kw_gamma := 0.5; kw_scaling := 1;
  kw_t_ := None; kw_u0_ := Some 1.5; kw_s0_ := Some 1;
  kw_tau := Some 0%nat; kw_tau_ := Some 1%nat;
  kw_std_u := 1; kw_std_s := 1;
  kw_normalized := false; kw_projection := false; kw_var_scale := false;
  kw_fit_steady_states := true; kw_connectivities := None;
  kw_constraint_time_increments := true |}.

(** Two cells without a positive spliced count, and no times passed. *)
Definition kw_no_spliced : kwargs := {|
  kw_u := [1; 2]; kw_s := [0; -1];
  kw_alpha := 2; kw_beta := 1; kw_gamma := 0.5; kw_scaling := 1;
  kw_t_ := Some 3; kw_u0_ := None; kw_s0_ := None;
  kw_tau := None; kw_tau_ := None;
  kw_std_u := 1; kw_std_s := 1;
  kw_normalized := false; kw_projection := false; kw_var_scale := false;
  kw_fit_steady_states := true; kw_connectivities := None;
  kw_constraint_time_increments := true |}.

(** Two cells with the times passed by the caller and both curves
    anchored at the origin.  Cell 0 is at time 0 on both curves, so its
    two curve distances are equal; cell 1 sits at the induction steady
    state, which its induction time 2000 reaches. *)
Definition kw_unsmoothed : kwargs := {|
  kw_u := [0.5; 2]; kw_s := [0.75; 4];
  kw_alpha := 2; kw_beta := 1; kw_gamma := 0.5; kw_scaling := 1;
  kw_t_ := Some 3; kw_u0_ := Some 0; kw_s0_ := Some 0;
  kw_tau := Some 0%nat; kw_tau_ := Some 1%nat;
  kw_std_u := 1; kw_std_s := 1;
  kw_normalized := false; kw_projection := false; kw_var_scale := false;
  kw_fit_steady_states := true; kw_connectivities := None;
  kw_constraint_time_increments := true |}.







(** The branch of a candidate state as [compute_divergence] assigns it:
    the curves keep their index, the repression steady state (2) goes to
    induction and the induction steady state (3) to repression. *)
Definition branch_of_state (k : nat) : nat :=
  match k with
  | 2%nat => 1%nat
  | 3%nat => 0%nat
  | _ => k
  end.

(** The branch the spec gives to a candidate state: a steady state goes
    to the branch of the same name (0 and 2 to repression, 1 and 3 to
    induction). *)
Definition branch_as_claimed (k : nat) : nat :=
  match k with
  | 0%nat | 2%nat => 0%nat
  | _ => 1%nat
  end.


(** [a[mask] = adjust_increments(a[mask])] when a cell is selected, as
    a function of the array: what the array holds afterwards. *)
Definition adjust_masked (mask : list bool) (a : arr) : option arr :=
  if NP.any mask then
    adj <- adjust_increments (NP.select mask a) ;;
    Some (NP.scatter mask adj a)
  else Some a.

(** The distance matrix, the variances and the modeled values for given
    times: what the shared stage computes from the two arrays once they
    are adjusted. *)
Definition distances_of (np_exp : float -> float) (kw : kwargs)
           (u0_ s0_ : float) (tau tau_ : arr)
  : list arr * float * float * (arr * arr * arr * arr) :=
  let std_u := kw_std_u kw / kw_scaling kw in
  let '((distu, distu_, dists, dists_), model) :=
    residuals np_exp kw std_u u0_ s0_ tau tau_ in
  let '(res, varu, vars) :=
    candidate_distances kw std_u distu distu_ dists dists_ in
  (res, varu, vars, model).

(** The cells of [tau_inv] in the unspliced-only regime: the source's
    mask [inv_u = (gamma >= beta)]. *)
Definition unspliced_regime (beta gamma : arr) : list bool :=
  NP.map2 (fun g b => b <=? g) gamma beta.

(** [d] does not exceed [ub], and is at most [ub] when it is a number. *)
Definition at_most (ub d : float) : Prop :=
  (ub <? d) = false /\ (is_nan d = false -> (d <=? ub) = true).

(** Two floats that denote the same number: identical, or equal as
    numbers (which also relates the two zeros). *)
Definition same_value (x y : float) : Prop := x = y \/ (x =? y) = true.

(** A computation that leaves the heap as it finds it. *)
Definition reads_only {A : Type} (m : M A) : Prop :=
  forall h a h', m h = Some (a, h') -> h' = h.

(** A two-dimensional array: every row has the same length. *)
Definition rectangular (X : list arr) : Prop :=
  Forall (fun r => length r = NP.ncols X) X.

(** A float that is not a negative number: NaN, or at least zero. *)
Definition not_negative (x : float) : Prop :=
  is_nan x = true \/ (0 <=? x) = true.

(** ** Facts on binary64 arithmetic *)

Module F64.

Definition SFfin (v : spec_float) : bool :=
  match v with
  | S754_zero _ | S754_finite _ _ _ => true
  | _ => false
  end.

(** NaN, a zero, or a value whose sign bit is clear. *)
Definition SFnn (v : spec_float) : bool :=
  match v with
  | S754_nan | S754_zero _ => true
  | S754_infinity s | S754_finite s _ _ => negb s
  end.

(** NaN, or a value whose sign bit is [s]. *)
Definition SFsigned (s : bool) (v : spec_float) : bool :=
  match v with
  | S754_nan => true
  | S754_zero s' | S754_infinity s' | S754_finite s' _ _ => Bool.eqb s' s
  end.

(** A float that is NaN or has its sign bit clear. *)
Definition sign_clear (x : float) : Prop :=
  SFsigned false (Prim2SF x) = true.


Lemma SFcompare_refl (v : spec_float) :
  v <> S754_nan -> SFcompare v v = Some Eq.
Proof.
  destruct v as [s|s| |s m e]; simpl; intros H; try congruence.
  - destruct s; reflexivity.
  - rewrite Z.compare_refl.
    change (PosDef.Pos.compare_cont Eq m m) with (Pos.compare m m).
    rewrite Pos.compare_refl. destruct s; reflexivity.
Qed.

Lemma SFcompare_antisym (a b : spec_float) :
  SFcompare b a = option_map CompOpp (SFcompare a b).
Proof.
  destruct a as [sa|sa| |sa ma ea], b as [sb|sb| |sb mb eb]; simpl;
    try reflexivity; try (destruct sa; reflexivity);
    try (destruct sb; reflexivity); try (destruct sa, sb; reflexivity).
  change (PosDef.Pos.compare_cont Eq ma mb) with (Pos.compare ma mb).
  change (PosDef.Pos.compare_cont Eq mb ma) with (Pos.compare mb ma).
  rewrite (Z.compare_antisym ea eb), (Pos.compare_antisym ma mb).
  destruct sa, sb; simpl; try reflexivity;
    destruct (ea ?= eb)%Z; simpl; try reflexivity;
    destruct (ma ?= mb)%positive; reflexivity.
Qed.

Lemma is_nan_SF (x : float) : is_nan x = true <-> Prim2SF x = S754_nan.
Proof.
  unfold is_nan. rewrite FloatAxioms.eqb_spec. unfold SFeqb. split.
  - intros H. destruct (Prim2SF x) eqn:E; try reflexivity;
      rewrite SFcompare_refl in H by congruence; discriminate.
  - intros ->. reflexivity.
Qed.

Lemma not_nan_SF (x : float) : is_nan x = false -> Prim2SF x <> S754_nan.
Proof. intros H E. apply is_nan_SF in E. congruence. Qed.

Lemma is_nan_eq (x : float) : is_nan x = true -> x = nan.
Proof. intros H. apply Prim2SF_inj. now apply is_nan_SF. Qed.

(** *** Order *)

Lemma ltb_leb (x y : float) : (x <? y) = true -> (x <=? y) = true.
Proof.
  rewrite ltb_spec, leb_spec. unfold SFltb, SFleb.
  destruct (SFcompare _ _) as [[]|]; congruence.
Qed.


Lemma eqb_sym (x y : float) : (x =? y) = (y =? x).
Proof.
  rewrite !FloatAxioms.eqb_spec. unfold SFeqb.
  rewrite (SFcompare_antisym (Prim2SF x)).
  destruct (SFcompare _ _) as [[]|]; reflexivity.
Qed.


Lemma leb_refl (x : float) : is_nan x = false -> (x <=? x) = true.
Proof.
  unfold is_nan. rewrite FloatAxioms.eqb_spec, leb_spec. unfold SFeqb, SFleb.
  destruct (SFcompare _ _) as [[]|]; simpl; congruence.
Qed.

Lemma leb_not_nan (x y : float) :
  (x <=? y) = true -> is_nan x = false /\ is_nan y = false.
Proof.
  intros H. rewrite leb_spec in H. unfold SFleb in H. split.
  - destruct (is_nan x) eqn:E; [|reflexivity]. apply is_nan_SF in E.
    rewrite E in H. discriminate.
  - destruct (is_nan y) eqn:E; [|reflexivity]. apply is_nan_SF in E.
    rewrite E in H. destruct (Prim2SF x); discriminate.
Qed.

Lemma leb_ltb_false (x y : float) : (x <=? y) = true -> (y <? x) = false.
Proof.
  rewrite ltb_spec, leb_spec. unfold SFltb, SFleb.
  rewrite (SFcompare_antisym (Prim2SF x)).
  destruct (SFcompare _ _) as [[]|]; simpl; congruence.
Qed.

Lemma ltb_nan_r (x y : float) : is_nan y = true -> (x <? y) = false.
Proof.
  intros H. apply is_nan_SF in H. rewrite ltb_spec, H. unfold SFltb.
  destruct (Prim2SF x); reflexivity.
Qed.

Lemma leb_total (x y : float) :
  is_nan x = false -> is_nan y = false ->
  (x <=? y) = false -> (y <=? x) = true.
Proof.
  intros Hx Hy. apply not_nan_SF in Hx. apply not_nan_SF in Hy.
  rewrite !leb_spec. unfold SFleb.
  rewrite (SFcompare_antisym (Prim2SF x)).
  destruct (SFcompare (Prim2SF x) (Prim2SF y)) as [[]|] eqn:E; simpl;
    try congruence.
  destruct (Prim2SF x), (Prim2SF y); simpl in E; congruence.
Qed.

(** *** NaN is absorbing *)

Lemma mul_nan_l (x : float) : nan * x = nan.
Proof. apply Prim2SF_inj. rewrite mul_spec. reflexivity. Qed.

Lemma mul_nan_r (x : float) : x * nan = nan.
Proof.
  apply Prim2SF_inj. rewrite mul_spec. simpl.
  destruct (Prim2SF x); reflexivity.
Qed.

Lemma add_nan_r (x : float) : x + nan = nan.
Proof.
  apply Prim2SF_inj. rewrite add_spec. simpl.
  destruct (Prim2SF x); reflexivity.
Qed.

(** *** [x - x] is [+0], or NaN when [x] is infinite or NaN *)

Lemma sub_diag (x : float) : x - x = 0 \/ x - x = nan.
Proof.
  destruct (Prim2SF x) as [s|s| |s m e] eqn:E.
  - left. apply Prim2SF_inj. rewrite sub_spec, E. destruct s; reflexivity.
  - right. apply Prim2SF_inj. rewrite sub_spec, E. destruct s; reflexivity.
  - right. apply Prim2SF_inj. rewrite sub_spec, E. reflexivity.
  - left. apply Prim2SF_inj. rewrite sub_spec, E. unfold SF64sub, SFsub.
    replace (cond_Zopp s (Z.pos (fst (shl_align m e (IntDef.Z.min e e))))
             - cond_Zopp s (Z.pos (fst (shl_align m e (IntDef.Z.min e e)))))%Z
      with 0%Z by lia.
    reflexivity.
Qed.

Lemma one_SF : Prim2SF 1 = S754_finite false 4503599627370496 (-52).
Proof. reflexivity. Qed.

Lemma iter_shr_52 (m : positive) :
  SpecFloat.iter_pos shr_1 52
    {| shr_m := Z.pos (4503599627370496 * m); shr_r := false; shr_s := false |}
  = {| shr_m := Z.pos m; shr_r := false; shr_s := false |}.
Proof. reflexivity. Qed.

Lemma digits_shift_52 (m : positive) :
  Zdigits2 (Z.pos (4503599627370496 * m)) = (Zdigits2 (Z.pos m) + 52)%Z.
Proof.
  unfold Zdigits2.
  change (4503599627370496 * m)%positive with
    (Pos.iter xO m 52).
  cbn [Pos.iter digits2_pos]. lia.
Qed.

(** *** Multiplying by 1 is exact *)

Lemma mul_one_r (x : float) : x * 1 = x.
Proof.
  apply Prim2SF_inj. rewrite mul_spec, one_SF.
  pose proof (Prim2SF_valid x) as V.
  destruct (Prim2SF x) as [s|s| |s m e];
    try (destruct s; reflexivity); try reflexivity.
  unfold SF64mul, SFmul.
  unfold valid_binary, bounded, canonical_mantissa in V.
  apply andb_prop in V. destruct V as [V1 V2].
  apply Z.eqb_eq in V1.
  rewrite Pos.mul_comm.
  unfold binary_round_aux, shr_fexp.
  rewrite digits_shift_52.
  replace (Zdigits2 (Z.pos m) + 52 + (e + -52))%Z
    with (Z.pos (digits2_pos m) + e)%Z by (unfold Zdigits2; lia).
  rewrite V1.
  replace (e - (e + -52))%Z with 52%Z by lia.
  unfold shr.
  change (shr_record_of_loc (Z.pos (4503599627370496 * m)) loc_Exact)
    with {| shr_m := Z.pos (4503599627370496 * m);
            shr_r := false; shr_s := false |}.
  rewrite iter_shr_52.
  cbn [shr_record_of_loc shr_m loc_of_shr_record shr_r shr_s
       round_nearest_even].
  replace (e + -52 + 52)%Z with e by lia.
  unfold Zdigits2. rewrite V1, Z.sub_diag.
  cbn [shr_m shr_record_of_loc].
  rewrite V2. destruct s; reflexivity.
Qed.

(** *** Zeros and finite values *)

Lemma is_finite_SF (x : float) : is_finite x = SFfin (Prim2SF x).
Proof.
  unfold is_finite, is_infinity.
  destruct (is_nan x) eqn:N.
  - apply is_nan_SF in N. rewrite N. reflexivity.
  - apply not_nan_SF in N. simpl.
    rewrite FloatAxioms.eqb_spec, abs_spec.
    change (Prim2SF infinity) with (S754_infinity false).
    destruct (Prim2SF x) as [s|s| |s m e]; try reflexivity; congruence.
Qed.

Lemma is_zero_SF (x : float) :
  (x =? 0) = true <-> exists s, Prim2SF x = S754_zero s.
Proof.
  rewrite FloatAxioms.eqb_spec. change (Prim2SF 0) with (S754_zero false).
  unfold SFeqb. split.
  - destruct (Prim2SF x) as [s|s| |s m e]; simpl; intros H;
      try discriminate; try (destruct s; discriminate).
    now exists s.
  - intros [s ->]. reflexivity.
Qed.

Lemma zeros_eqb (x y : float) :
  (x =? 0) = true -> (y =? 0) = true -> (x =? y) = true.
Proof.
  intros [s Hx]%is_zero_SF [s' Hy]%is_zero_SF.
  rewrite FloatAxioms.eqb_spec, Hx, Hy. reflexivity.
Qed.

Lemma mul_zero_r (x : float) :
  is_finite x = true -> (x * 0 =? 0) = true.
Proof.
  rewrite is_finite_SF. intros F. apply is_zero_SF.
  rewrite mul_spec. change (Prim2SF 0) with (S754_zero false).
  destruct (Prim2SF x) as [s|s| |s m e]; try discriminate; simpl; eauto.
Qed.

Lemma zero_finite (z : float) : (z =? 0) = true -> is_finite z = true.
Proof. intros [s H]%is_zero_SF. rewrite is_finite_SF, H. reflexivity. Qed.

(** Adding a zero changes nothing but, possibly, the sign of a zero. *)
Lemma add_zero_r (x z : float) :
  (z =? 0) = true -> x + z = x \/ ((x =? 0) = true /\ (x + z =? 0) = true).
Proof.
  intros [s Hz]%is_zero_SF.
  destruct (Prim2SF x) as [sx|sx| |sx m e] eqn:E.
  - right. split; [apply is_zero_SF; eauto|].
    apply is_zero_SF. rewrite add_spec, E, Hz. destruct sx, s; simpl; eauto.
  - left. apply Prim2SF_inj. rewrite add_spec, E, Hz. reflexivity.
  - left. apply Prim2SF_inj. rewrite add_spec, E, Hz. reflexivity.
  - left. apply Prim2SF_inj. rewrite add_spec, E, Hz. reflexivity.
Qed.

Lemma add_zero_l (x z : float) :
  (z =? 0) = true -> z + x = x \/ ((x =? 0) = true /\ (z + x =? 0) = true).
Proof.
  intros [s Hz]%is_zero_SF.
  destruct (Prim2SF x) as [sx|sx| |sx m e] eqn:E.
  - right. split; [apply is_zero_SF; eauto|].
    apply is_zero_SF. rewrite add_spec, E, Hz. destruct sx, s; simpl; eauto.
  - left. apply Prim2SF_inj. rewrite add_spec, E, Hz. reflexivity.
  - left. apply Prim2SF_inj. rewrite add_spec, E, Hz. reflexivity.
  - left. apply Prim2SF_inj. rewrite add_spec, E, Hz. reflexivity.
Qed.
Lemma ltb_irrefl (x : float) : (x <? x) = false.
Proof.
  rewrite ltb_spec. unfold SFltb.
  destruct (Prim2SF x) eqn:E; try reflexivity;
    rewrite SFcompare_refl by congruence; reflexivity.
Qed.

End F64.

Lemma same_value_refl (x : float) : same_value x x.
Proof. now left. Qed.

Lemma same_value_add_zero_r (x z : float) :
  (z =? 0) = true -> same_value (x + z) x.
Proof.
  intros Hz. destruct (F64.add_zero_r x z Hz) as [->|[H1 H2]].
  - now left.
  - right. now apply F64.zeros_eqb.
Qed.

Lemma same_value_add_zero_l (x z : float) :
  (z =? 0) = true -> same_value (z + x) x.
Proof.
  intros Hz. destruct (F64.add_zero_l x z Hz) as [->|[H1 H2]].
  - now left.
  - right. now apply F64.zeros_eqb.
Qed.

(** ** The guarded reciprocal *)

Lemma inv_zero (x : float) : (x =? 0) = true -> inv x = nan.
Proof.
  intros H. unfold inv. rewrite H. simpl.
  apply F64.is_zero_SF in H. destruct H as [s H].
  apply Prim2SF_inj. rewrite mul_spec, div_spec, H.
  destruct s; reflexivity.
Qed.

Lemma inv_nonzero (x : float) : (x =? 0) = false -> inv x = 1 / x.
Proof. intros H. unfold inv. rewrite H. simpl. apply F64.mul_one_r. Qed.

(** C1. [inv] does not return 0 at 0: the quotient [1 / 0] is an infinity
    and its product with the mask [(x != 0)], which is 0 there, is NaN.
    So [inv x] is NaN when [x] is a zero (of either sign) and [1 / x]
    otherwise; at 0.0 the value reaching the caller is NaN. *)
Theorem inv_is_nan_at_zero :
  (forall x, inv x = if x =? 0 then nan else 1 / x)
  /\ inv 0 = nan /\ inv (-0) = nan /\ is_nan (inv 0) = true
  /\ (inv 0 =? 0) = false.
Proof.
  split.
  - intros x. destruct (x =? 0) eqn:E.
    + now apply inv_zero.
    + now apply inv_nonzero.
  - repeat split; reflexivity.
Qed.

(** ** The kinetic model at degenerate rates *)

Lemma inv_sub_diag (x : float) : inv (x - x) = nan.
Proof. destruct (F64.sub_diag x) as [-> | ->]; reflexivity. Qed.

(** C4. With [gamma = beta] the coefficient [c] of [spliced] is
    [(alpha - u0 * beta) * inv 0], which is NaN, and NaN is absorbing: the
    result is NaN for every elapsed time, in particular at [tau = 0],
    whatever [np_exp] returns; it is not [s0]. *)
Theorem spliced_equal_rates_is_nan :
  forall (np_exp : float -> float) (tau s0 u0 alpha beta : float),
    spliced np_exp tau s0 u0 alpha beta beta = nan.
Proof.
  intros. unfold spliced. rewrite inv_sub_diag.
  rewrite F64.mul_nan_r, F64.mul_nan_l. apply F64.add_nan_r.
Qed.

(** The same at the concrete rates [alpha = 2], [beta = gamma = 1] with
    [s0 = 1], [u0 = 0], [tau = 0], also through [mRNA]. *)
Example spliced_equal_rates_run :
  spliced exp64 0 1 0 2 1 1 = nan
  /\ snd (mRNA exp64 0 0 1 2 1 1) = nan
  /\ unspliced exp64 0 0 2 1 = 0.
Proof. repeat split; reflexivity. Qed.


(** ** Clipping *)

Lemma clip_between (x lo hi : float) :
  is_nan x = false -> (lo <=? hi) = true ->
  let c := NP.clip x (Some lo) (Some hi) in
  (lo <=? c) = true /\ (c <=? hi) = true.
Proof.
  intros Hx Hlh. destruct (F64.leb_not_nan _ _ Hlh) as [Hlo Hhi].
  unfold NP.clip, NP.maximum, NP.minimum. rewrite Hx, orb_false_r.
  assert (Hy : exists y, (if lo <=? x then x else lo) = y
                         /\ (lo <=? y) = true /\ is_nan y = false).
  { destruct (lo <=? x) eqn:E; eexists; split; try reflexivity; split; auto.
    now apply F64.leb_refl. }
  destruct Hy as (y & -> & Hly & Hny). rewrite Hny, orb_false_r.
  destruct (y <=? hi) eqn:E; cbv zeta; split; auto.
  now apply F64.leb_refl.
Qed.

Lemma clip_at_most (d lo ub : float) :
  let c := NP.clip d (Some lo) (Some ub) in
  (ub <? c) = false /\ (is_nan c = false -> (c <=? ub) = true).
Proof.
  unfold NP.clip. set (y := NP.maximum d lo). unfold NP.minimum.
  destruct (y <=? ub) eqn:E; cbv zeta; simpl.
  - split; [now apply F64.leb_ltb_false | auto].
  - destruct (is_nan y) eqn:N.
    + split; [now apply F64.ltb_nan_r | congruence].
    + split; [apply F64.ltb_irrefl | apply F64.leb_refl].
Qed.

Lemma clip_below_id (m : float) :
  (0 <=? m) = true -> NP.clip m (Some 0) None = m.
Proof. intros H. unfold NP.clip, NP.maximum. now rewrite H. Qed.

Lemma eps_SF : Prim2SF eps_default = S754_finite false 4722366482869645 (-72).
Proof. reflexivity. Qed.
Lemma one_minus_eps_SF : Prim2SF (1 - eps_default) = S754_finite false 9007190247541737 (-53).
Proof. reflexivity. Qed.

Lemma above_eps_positive (c : float) :
  (eps_default <=? c) = true -> (0 <? c) = true.
Proof.
  intros H. rewrite leb_spec, eps_SF in H. rewrite ltb_spec.
  change (Prim2SF 0) with (S754_zero false).
  unfold SFleb, SFltb in *.
  destruct (Prim2SF c) as [s|s| |s m e]; try destruct s;
    cbn [SFcompare] in *; (reflexivity || discriminate).
Qed.

Lemma below_one_minus_eps (c : float) :
  (c <=? 1 - eps_default) = true -> (c <? 1) = true.
Proof.
  intros H. rewrite leb_spec, one_minus_eps_SF in H. rewrite ltb_spec, F64.one_SF.
  unfold SFleb, SFltb in *.
  destruct (Prim2SF c) as [s|s| |s m e]; try destruct s;
    cbn [SFcompare] in *; try (reflexivity || discriminate).
  destruct (Z.compare_spec e (-53)) as [Ee|Ee|Ee]; try discriminate.
  - subst e. reflexivity.
  - destruct (Z.compare_spec e (-52)); (lia || reflexivity).
Qed.

(** ** The guarded logarithm *)

(** C9. For every input that is a number, [log] applies numpy's [log] to
    the input clamped into [1e-6, 1 - 1e-6]: the argument of [np_log]
    always lies in that interval (so strictly between 0 and 1), whatever
    the sign or size of the input, so no domain error can occur.  The
    result is the logarithm of a point of the interval; it lies between
    [np_log 1e-6] and [np_log (1 - 1e-6)] as soon as [np_log] preserves
    the order on the interval (nothing is asked of [np_log] outside it,
    where a logarithm is NaN or infinite). *)
Theorem log_clamps_its_argument (np_log : float -> float) (x : float) :
  is_nan x = false ->
  let c := NP.clip x (Some eps_default) (Some (1 - eps_default)) in
  log np_log x eps_default = np_log c
  /\ (eps_default <=? c) = true /\ (c <=? 1 - eps_default) = true
  /\ (0 <? c) = true /\ (c <? 1) = true
  /\ ((forall a b,
          (eps_default <=? a) = true -> (a <=? b) = true ->
          (b <=? 1 - eps_default) = true ->
          (np_log a <=? np_log b) = true) ->
      (np_log eps_default <=? log np_log x eps_default) = true
      /\ (log np_log x eps_default <=? np_log (1 - eps_default)) = true).
Proof.
  intros Hx c.
  destruct (clip_between x eps_default (1 - eps_default) Hx eq_refl)
    as [Hlo Hhi].
  fold c in Hlo, Hhi. unfold log. fold c.
  split; [reflexivity|].
  split; [exact Hlo|]. split; [exact Hhi|].
  split; [now apply above_eps_positive|].
  split; [now apply below_one_minus_eps|].
  intros Mono. split.
  - apply Mono; [reflexivity | exact Hlo | exact Hhi].
  - apply Mono; [exact Hlo | exact Hhi | reflexivity].
Qed.

Lemma log_like_preserves_order (a b : float) :
  (eps_default <=? a) = true -> (a <=? b) = true ->
  (b <=? 1 - eps_default) = true ->
  (log_like a <=? log_like b) = true.
Proof.
  intros Ha Hab Hb. unfold log_like.
  pose proof (above_eps_positive a Ha) as Pa. rewrite Pa.
  assert (Pb : (0 <? b) = true).
  { rewrite ltb_spec in Pa. rewrite ltb_spec. rewrite leb_spec in Hab.
    change (Prim2SF 0) with (S754_zero false) in *.
    unfold SFltb, SFleb in *.
    destruct (Prim2SF a) as [sa|sa| |sa ma ea],
             (Prim2SF b) as [sb|sb| |sb mb eb];
      try destruct sa; try destruct sb; cbn [SFcompare] in *;
      try reflexivity; discriminate. }
  rewrite Pb. exact Hab.
Qed.

(** The theorem at the input -3: with the stand-in [log64] the argument
    of the logarithm is the lower clamp bound, and with [log_like], which
    is NaN at zero and below and preserves the order above, the result
    lies between the images of the two bounds. *)
Lemma log_clamps_its_argument_witness :
  (log log64 (-3) eps_default = log64 eps_default
   /\ (0 <? NP.clip (-3) (Some eps_default) (Some (1 - eps_default))) = true)
  /\ is_nan (log_like (-3)) = true
  /\ (log_like eps_default <=? log log_like (-3) eps_default) = true
  /\ (log log_like (-3) eps_default <=? log_like (1 - eps_default)) = true.
Proof.
  split; [|split; [reflexivity|]].
  - destruct (log_clamps_its_argument log64 (-3) eq_refl)
      as (E & _ & _ & P & _).
    split; [exact E | exact P].
  - destruct (log_clamps_its_argument log_like (-3) eq_refl)
      as (_ & _ & _ & _ & _ & B).
    exact (B log_like_preserves_order).
Defined.

(** With the stand-in [log64] the clamp bounds map to about -13.8155 and
    -1.0e-6, and the guarded logarithm of -3, 0 and 7 is one of the two. *)
Example log_run :
  log log64 (-3) eps_default = log64 eps_default
  /\ log log64 0 eps_default = log64 eps_default
  /\ log log64 7 eps_default = log64 (1 - eps_default)
  /\ (log64 eps_default <? -13.8) = true
  /\ (-0.00001 <? log64 (1 - eps_default)) = true
  /\ is_nan (log log64 nan eps_default) = true.
Proof. repeat split; reflexivity. Qed.

(** ** The bound of [compute_dt] *)

Lemma at_most_nan (ub : float) : at_most ub nan.
Proof. split; [now apply F64.ltb_nan_r | discriminate]. Qed.

Lemma at_most_nth (ub : float) (l : arr) (i : nat) :
  Forall (at_most ub) l -> at_most ub (nth i l nan).
Proof.
  intros H. revert i. induction H as [|x l Hx Hl IH]; intros [|i]; simpl;
    auto using at_most_nan.
Qed.

Lemma compute_dt_col_clipped (col dt : arr) :
  compute_dt_col col true = Some dt ->
  exists m, mean_gap col = Some m
            /\ Forall (at_most (poisson_ub (NP.clip m (Some 0) None))) dt.
Proof.
  unfold compute_dt_col, mean_gap.
  destruct (NP.min col) as [lo|]; [|discriminate].
  destruct (NP.max col) as [hi|]; [|discriminate].
  cbn [obind NP.max fold_left]. intros H. injection H as <-.
  eexists. split; [reflexivity|].
  apply Forall_forall. intros d Hd. apply in_map_iff in Hd.
  destruct Hd as (x & <- & _). apply clip_at_most.
Qed.

Lemma mapM_nth {A B : Type} (f : A -> option B) (l : list A) (ys : list B) :
  mapM f l = Some ys ->
  forall j a b, (j < length ys)%nat ->
                f (nth j l a) = Some (nth j ys b).
Proof.
  revert ys. induction l as [|x l IH]; simpl; intros ys H.
  - injection H as <-. simpl. lia.
  - destruct (f x) as [y|] eqn:Fx; [|discriminate]. simpl in H.
    destruct (mapM f l) as [ys'|]; [|discriminate]. simpl in H.
    injection H as <-. intros [|j] a b Hj; simpl in *.
    + exact Fx.
    + apply IH; [reflexivity | lia].
Qed.

Lemma mapM_length {A B : Type} (f : A -> option B) (l : list A)
      (ys : list B) :
  mapM f l = Some ys -> length ys = length l.
Proof.
  revert ys. induction l as [|x l IH]; simpl; intros ys H.
  - now injection H as <-.
  - destruct (f x) as [y|]; [|discriminate]. simpl in H.
    destruct (mapM f l) as [ys'|]; [|discriminate]. simpl in H.
    injection H as <-. simpl. f_equal. now apply IH.
Qed.

Lemma nth_transpose (t : list arr) (j : nat) :
  (j < NP.ncols t)%nat -> nth j (NP.transpose t) [] = NP.column t j.
Proof.
  intros H. unfold NP.transpose.
  rewrite (nth_indep _ [] (NP.column t 0))
    by (now rewrite length_map, length_seq).
  rewrite map_nth. now rewrite seq_nth.
Qed.

Lemma entry_of_transpose (cols : list arr) (i j : nat) :
  nth j (nth i (NP.transpose cols) []) nan = nan
  \/ ((j < length cols)%nat
      /\ nth j (nth i (NP.transpose cols) []) nan = nth i (nth j cols []) nan).
Proof.
  destruct (Nat.lt_ge_cases i (NP.ncols cols)) as [Hi|Hi].
  - rewrite nth_transpose by assumption. unfold NP.column.
    destruct (Nat.lt_ge_cases j (length cols)) as [Hj|Hj].
    + right. split; [assumption|].
      rewrite (nth_indep _ nan (nth i [] nan)) by (now rewrite length_map).
      now rewrite (map_nth (fun r => nth i r nan)).
    + left. apply nth_overflow. now rewrite length_map.
  - left. rewrite (nth_overflow (NP.transpose cols)).
    + now destruct j.
    + unfold NP.transpose. now rewrite length_map, length_seq.
Qed.

(** C6. With clipping, no entry of [compute_dt(t)] exceeds the Poisson
    bound [m + 3 * sqrt m] of its column, and every entry that is a
    number is at most that bound; [m] is the larger of the mean of the
    sorted consecutive gaps and of [max(t) / len(t)], which the code
    also clips below at 0 (no change when [m] is not negative).  For the
    time points 0, 1, 2, 3 (one column) the gaps are 0, 1, 1, 1, [m] is
    0.75 and the bound is 3.348... *)
Theorem compute_dt_never_exceeds_bound :
  (forall (t dt : list arr),
      compute_dt t true = Some dt ->
      forall j, (j < NP.ncols t)%nat ->
        exists m, mean_gap (NP.column t j) = Some m
          /\ ((0 <=? m) = true -> NP.clip m (Some 0) None = m)
          /\ forall i,
               at_most (poisson_ub (NP.clip m (Some 0) None))
                       (nth j (nth i dt []) nan))
  /\ compute_dt [[0]; [1]; [2]; [3]] false = Some [[0]; [1]; [1]; [1]]
  /\ compute_dt [[0]; [1]; [2]; [3]] true = Some [[0]; [1]; [1]; [1]]
  /\ mean_gap [0; 1; 2; 3] = Some 0.75
  /\ (3.348 <? poisson_ub 0.75) = true
  /\ (poisson_ub 0.75 <? 3.3481) = true.
Proof.
  split; [|repeat split; reflexivity].
  intros t dt H j Hj. unfold compute_dt in H.
  destruct t as [|r0 t0]; [discriminate|]. set (t := r0 :: t0) in *.
  destruct (mapM (fun c => compute_dt_col c true) (NP.transpose t))
    as [cols|] eqn:E; [|discriminate].
  simpl in H. injection H as <-.
  assert (Lc : length cols = NP.ncols t).
  { rewrite (mapM_length _ _ _ E). unfold NP.transpose.
    now rewrite length_map, length_seq. }
  pose proof (mapM_nth _ _ _ E j [] []) as Hc.
  rewrite nth_transpose in Hc by assumption.
  specialize (Hc ltac:(lia)).
  destruct (compute_dt_col_clipped _ _ Hc) as (m & Hm & Hall).
  exists m. split; [assumption|]. split; [apply clip_below_id|].
  intros i. destruct (entry_of_transpose cols i j) as [-> | [_ ->]].
  - apply at_most_nan.
  - now apply at_most_nth.
Qed.

(** The theorem at the single column 0, 1, 2, 3. *)
Lemma compute_dt_never_exceeds_bound_witness :
  mean_gap (NP.column [[0]; [1]; [2]; [3]] 0) = Some 0.75
  /\ at_most (poisson_ub (NP.clip 0.75 (Some 0) None))
             (nth 0 (nth 3 [[0]; [1]; [1]; [1]] []) nan).
Proof.
  destruct (proj1 compute_dt_never_exceeds_bound
              [[0]; [1]; [2]; [3]] [[0]; [1]; [1]; [1]] eq_refl 0%nat
              (Nat.lt_succ_diag_r 0))
    as (m & Hm & _ & H).
  split; [reflexivity|].
  injection Hm as <-. exact (H 3%nat).
Defined.

(** ** The modes share one distance matrix *)

Lemma compute_divergence_stages (np_exp np_log : float -> float)
      (kw : kwargs) (mode : mode_t) (h : heap) :
  compute_divergence np_exp np_log kw mode h =
  match shared_stage np_exp np_log kw h with
  | Some (res, varu, vars, (ut, st, ut_, st_), rtau, rtau_, t_, h1, own) =>
      match dispatch np_exp np_log kw mode rtau rtau_ t_ res varu vars
                     ut st ut_ st_ h1 with
      | Some (r, h2) => Some (r, if own then h else h2)
      | None => None
      end
  | None => None
  end.
Proof.
  unfold compute_divergence, shared_stage, divergence_body, bind, obind.
  destruct (anchor np_exp kw) as [[u0_ s0_]|]; [|reflexivity].
  destruct (kw_tau kw) as [rtau|], (kw_tau_ kw) as [rtau_|],
           (kw_t_ kw) as [t_|];
    try (destruct (assign_tau _ _ _ _ _ _ _ _ _ _ _) as [[[tau tau_] t']|];
         [|reflexivity]);
    destruct (front _ _ _ _ _ _ _)
      as [[[[[res varu] vars] [[[ut st] ut_] st_]] h1]|];
    try reflexivity;
    destruct (dispatch _ _ _ _ _ _ _ _ _ _ _ _ _ _ _) as [[r h2]|];
    reflexivity.
Qed.

(** ** Ties in the argmin *)






(** ** Mode 'hard_eval' *)

(** C3. In mode 'hard_eval' the two weights [o_] and [o] are the entries
    0 and 1 of the per-cell argmin vector, that is the selected indices
    of the cells 0 and 1, and every cell's modeled values are
    [ut * o + ut_ * o_] with these two numbers.  In the population
    [kw_steady] the selection is 3, 2, 0; cell 2 selects the repression
    curve, whose modeled value there is (1.5, 1), and is returned
    (4.5, 3) = 2 * (0, 0) + 3 * (1.5, 1), from the indices of the cells 0
    and 1.  With a single cell the mode fails (index 1 is out of range). *)
Theorem hard_eval_weights_are_cells_0_and_1 :
  compute_divergence exp64 log64 kw_steady HardState heap_steady
  = Some (RState [3; 2; 0]%nat, heap_steady)
  /\ compute_divergence exp64 log64 kw_steady HardEval heap_steady
     = Some (RHardEval 3 2 [4.5; 8.5; 4.5] [3; 11; 3], heap_steady)
  /\ mRNA exp64 0 1.5 1 0 1 0.5 = (1.5, 1)
  /\ mRNA exp64 0 0 0 2 1 0.5 = (0, 0)
  /\ (forall (np_exp np_log : float -> float) kw rtau rtau_ t_ d varu vars
             ut st ut_ st_ h,
         dispatch np_exp np_log kw HardEval rtau rtau_ t_ [[d]; [d]] varu vars
                  ut st ut_ st_ h = None).
Proof. repeat split; reflexivity. Qed.

(** ** The regime switch of [tau_inv] *)

(** C5, as stated, fails.  Two cells with u = s = 1, u0 = s0 = 0,
    alpha = 2 and beta = 1: the cell with gamma = 2 >= beta gets the value
    of the unspliced-only formula (0.693...), not that of the joint
    formula (5.0e-7), and the cell with gamma = 0.5 < beta gets the value
    of the joint formula (0.940...). *)
Lemma tau_inv_regimes_counterexample :
  tau_inv log64 [1; 1] (Some [1; 1]) [0; 0] (Some [0; 0]) [2; 2] [1; 1]
          (Some [2; 0.5])
  = Some [tau_inv_u log64 1 0 2 1; tau_inv_us log64 1 1 0 0 2 1 0.5]
  /\ (tau_inv_u log64 1 0 2 1 =? tau_inv_us log64 1 1 0 0 2 1 2) = false
  /\ (0.69 <? tau_inv_u log64 1 0 2 1) = true
  /\ (tau_inv_us log64 1 1 0 0 2 1 2 <? 0.001) = true
  /\ (tau_inv_us log64 1 1 0 0 2 1 0.5 =? tau_inv_u log64 1 0 2 1) = false.
Proof. repeat split; reflexivity. Qed.

Lemma length_map2 {A B C : Type} (f : A -> B -> C) (l : list A)
      (l' : list B) :
  length (NP.map2 f l l') = Nat.min (length l) (length l').
Proof.
  revert l'. induction l as [|x l IH]; intros [|y l']; simpl; auto.
Qed.

Lemma nth_map2 {A B C : Type} (f : A -> B -> C) (l : list A) (l' : list B)
      (i : nat) (d : C) (d1 : A) (d2 : B) :
  (i < length l)%nat -> (i < length l')%nat ->
  nth i (NP.map2 f l l') d = f (nth i l d1) (nth i l' d2).
Proof.
  revert l' i. induction l as [|x l IH]; intros [|y l'] [|i]; simpl;
    intros H1 H2; try lia; auto.
  apply IH; lia.
Qed.

Lemma nth_map_seq {A : Type} (g : nat -> A) (n i : nat) (d : A) :
  (i < n)%nat -> nth i (map g (seq 0 n)) d = g i.
Proof.
  intros H. rewrite (nth_indep _ d (g 0%nat)) by (now rewrite length_map, length_seq).
  rewrite map_nth. now rewrite seq_nth.
Qed.

Lemma any_false_nth (l : list bool) (i : nat) :
  NP.any l = false -> (i < length l)%nat -> nth i l false = false.
Proof. intros H Hi. exact (existsb_nth (fun b => b) l false Hi H). Qed.

Lemma any_repeat_true (n : nat) : (0 < n)%nat -> NP.any (repeat true n) = true.
Proof. destruct n; [lia | reflexivity]. Qed.

Lemma any_negb_repeat_true (n : nat) :
  NP.any (map negb (repeat true n)) = false.
Proof. induction n; simpl; auto. Qed.

Lemma blend_selected (x y : float) :
  is_finite y = true -> same_value (x * NP.of_bool true + y * NP.of_bool false) x.
Proof.
  intros F. cbn [NP.of_bool]. rewrite F64.mul_one_r.
  apply same_value_add_zero_r. now apply F64.mul_zero_r.
Qed.

Lemma blend_other (x y : float) :
  is_finite x = true -> same_value (x * NP.of_bool false + y * NP.of_bool true) y.
Proof.
  intros F. cbn [NP.of_bool]. rewrite F64.mul_one_r.
  apply same_value_add_zero_l. now apply F64.mul_zero_r.
Qed.

(** C5, amended.  With [u] and [s] supplied and per-cell rates, a cell
    with [gamma >= beta] is resolved by the unspliced-only formula and a
    cell with [gamma < beta] (or an unordered pair) by the joint formula,
    cell by cell within one population; where the population mixes the
    two regimes the result is the masked sum of both formulas, which is
    the selected value when the other one is finite.  With [gamma]
    unspecified every cell is resolved by the unspliced-only formula. *)
Theorem tau_inv_regime_per_cell :
  forall (np_log : float -> float) (u s u0 s0 alpha beta gamma : arr),
    u <> [] -> length beta = length u -> length gamma = length u ->
    (exists tau,
        tau_inv np_log u (Some s) u0 (Some s0) alpha beta (Some gamma)
        = Some tau
        /\ length tau = length u
        /\ forall i, (i < length u)%nat ->
             let tu := tau_inv_u np_log (nth i u nan) (nth i u0 nan)
                                 (nth i alpha nan) (nth i beta nan) in
             let tus := tau_inv_us np_log (nth i u nan) (nth i s nan)
                                   (nth i u0 nan) (nth i s0 nan)
                                   (nth i alpha nan) (nth i beta nan)
                                   (nth i gamma nan) in
             ((nth i beta nan <=? nth i gamma nan) = true ->
              is_finite tus = true
              \/ NP.any (map negb (unspliced_regime beta gamma)) = false ->
              same_value (nth i tau nan) tu)
             /\ ((nth i beta nan <=? nth i gamma nan) = false ->
                 is_finite tu = true
                 \/ NP.any (unspliced_regime beta gamma) = false ->
                 same_value (nth i tau nan) tus))
    /\ (forall s' s0',
           tau_inv np_log u s' u0 s0' alpha beta None
           = Some (map (fun i => tau_inv_u np_log (nth i u nan) (nth i u0 nan)
                                           (nth i alpha nan) (nth i beta nan))
                       (seq 0 (length u)))).
Proof.
  intros np_log u s u0 s0 alpha beta gamma Hu Lb Lg.
  assert (Hn : (0 < length u)%nat) by (destruct u; simpl; [congruence | lia]).
  split.
  2:{ intros s' s0'. unfold tau_inv.
      rewrite any_negb_repeat_true, any_repeat_true by assumption.
      reflexivity. }
  unfold tau_inv. fold (unspliced_regime beta gamma).
  set (inv_u := unspliced_regime beta gamma).
  assert (Li : length inv_u = length u).
  { unfold inv_u, unspliced_regime. rewrite length_map2. lia. }
  assert (Ni : forall i, (i < length u)%nat ->
                         nth i inv_u false
                         = (nth i beta nan <=? nth i gamma nan)).
  { intros i Hi. unfold inv_u, unspliced_regime.
    now rewrite (nth_map2 _ _ _ _ _ nan nan) by lia. }
  set (tau_u := map _ (seq 0 (length u))).
  set (tau_us := map (fun i => tau_inv_us _ _ _ _ _ _ _ _) (seq 0 (length u))).
  cbn [is_none negb]. rewrite orb_false_r, andb_true_r.
  assert (Lu : length tau_u = length u)
    by (unfold tau_u; now rewrite length_map, length_seq).
  assert (Lus : length tau_us = length u)
    by (unfold tau_us; now rewrite length_map, length_seq).
  destruct (NP.any (map negb inv_u)) eqn:Aus.
  - destruct (NP.any inv_u) eqn:Au.
    + eexists. split; [reflexivity|]. split.
      { rewrite !length_map2, length_map. lia. }
      intros i Hi. cbv zeta.
      rewrite (nth_map2 _ _ _ _ _ nan nan)
        by (rewrite length_map2, ?length_map; lia).
      rewrite (nth_map2 _ tau_u _ _ _ nan false) by lia.
      rewrite (nth_map2 _ tau_us _ _ _ nan false)
        by (rewrite ?length_map; lia).
      rewrite (nth_indep (map negb inv_u) false (negb false))
        by (rewrite length_map; lia).
      rewrite map_nth, (Ni i Hi).
      unfold tau_u, tau_us. rewrite !nth_map_seq by assumption.
      split; intros -> [F|F]; try congruence.
      * now apply blend_selected.
      * now apply blend_other.
    + eexists. split; [reflexivity|]. split; [assumption|].
      intros i Hi. cbv zeta. unfold tau_us. rewrite nth_map_seq by assumption.
      split; intros B _.
      * rewrite <- (Ni i Hi), (any_false_nth _ _ Au) in B by lia.
        discriminate.
      * apply same_value_refl.
  - assert (Au : NP.any inv_u = true).
    { destruct u as [|x u']; [congruence|]. destruct inv_u as [|b iu];
        [discriminate|]. simpl in Aus |- *.
      destruct b; [reflexivity | discriminate]. }
    rewrite Au. eexists. split; [reflexivity|]. split; [assumption|].
    intros i Hi. cbv zeta. unfold tau_u. rewrite nth_map_seq by assumption.
    split; intros B _.
    + apply same_value_refl.
    + assert (N : nth i (map negb inv_u) false = false)
        by (apply any_false_nth; [assumption | rewrite length_map; lia]).
      rewrite (nth_indep (map negb inv_u) false (negb false)) in N
        by (rewrite length_map; lia).
      rewrite map_nth, (Ni i Hi), B in N. discriminate.
Qed.

(** The theorem at the two cells of the counterexample. *)
Lemma tau_inv_regime_per_cell_witness :
  same_value
    (nth 0 [tau_inv_u log64 1 0 2 1; tau_inv_us log64 1 1 0 0 2 1 0.5] nan)
    (tau_inv_u log64 1 0 2 1)
  /\ same_value
       (nth 1 [tau_inv_u log64 1 0 2 1; tau_inv_us log64 1 1 0 0 2 1 0.5]
            nan)
       (tau_inv_us log64 1 1 0 0 2 1 0.5).
Proof.
  destruct (tau_inv_regime_per_cell log64 [1; 1] [1; 1] [0; 0] [0; 0]
              [2; 2] [1; 1] [2; 0.5]
              ltac:(discriminate) eq_refl eq_refl)
    as [(tau & E & _ & H) _].
  assert (T : tau = [tau_inv_u log64 1 0 2 1;
                     tau_inv_us log64 1 1 0 0 2 1 0.5]).
  { vm_compute in E. injection E as <-. reflexivity. }
  subst tau. split.
  - exact (proj1 (H 0%nat ltac:(simpl; lia)) eq_refl (or_introl eq_refl)).
  - exact (proj2 (H 1%nat ltac:(simpl; lia)) eq_refl (or_introl eq_refl)).
Defined.

(** ** The heap *)

Lemma length_update (r : ref) (a : arr) (h : heap) :
  length (update r a h) = length h.
Proof.
  revert r. induction h as [|x h IH]; intros [|r]; simpl; auto.
Qed.

Lemma nth_error_update_same (r : ref) (a : arr) (h : heap) :
  (r < length h)%nat -> nth_error (update r a h) r = Some a.
Proof.
  revert r. induction h as [|x h IH]; intros [|r]; simpl; intros H;
    try lia; auto. apply IH. lia.
Qed.

Lemma nth_error_update_other (r r' : ref) (a : arr) (h : heap) :
  r <> r' -> nth_error (update r a h) r' = nth_error h r'.
Proof.
  revert r r'. induction h as [|x h IH]; intros [|r] [|r']; simpl;
    intros H; try congruence; auto.
Qed.

Lemma read_some (r : ref) (a : arr) (h : heap) :
  nth_error h r = Some a -> read r h = Some (a, h).
Proof. unfold read. now intros ->. Qed.

Lemma read_inv (r : ref) (a : arr) (h h' : heap) :
  read r h = Some (a, h') -> nth_error h r = Some a /\ h' = h.
Proof.
  unfold read. destruct (nth_error h r); [|discriminate].
  intros E. injection E as <- <-. auto.
Qed.

Lemma write_some (r : ref) (a a0 : arr) (h : heap) :
  nth_error h r = Some a0 -> write r a h = Some (tt, update r a h).
Proof.
  intros H. unfold write.
  assert (L : (r < length h)%nat) by (apply nth_error_Some; congruence).
  apply Nat.ltb_lt in L. now rewrite L.
Qed.

(** *** The mode 'assign_timepoints' on two distinct arrays *)

Lemma dispatch_assign_timepoints (np_exp np_log : float -> float)
      (kw : kwargs) (rtau rtau_ : ref) (t_ : float) (res : list arr)
      (varu vars : float) (ut st ut_ st_ a a_ : arr) (h : heap) :
  rtau <> rtau_ ->
  nth_error h rtau = Some a -> nth_error h rtau_ = Some a_ ->
  let o := NP.argmin_axis0 res in
  let a' := times a (mask_eq 1 o) in
  let a_' := times a_ (mask_eq 0 o) in
  dispatch np_exp np_log kw AssignTimepoints rtau rtau_ (Some t_) res
           varu vars ut st ut_ st_ h
  = Some (RAssign
            (NP.map2 PrimFloat.add
               (times a' (mask_eq 1 (collapse o)))
               (times (map (fun x => x + t_) a_') (mask_eq 0 (collapse o))))
            a' (collapse o),
          update rtau a' (update rtau_ a_' h)).
Proof.
  intros D Ha Ha_ o a' a_'. cbn [dispatch]. fold o. unfold bind.
  rewrite (read_some _ _ _ Ha_).
  rewrite (write_some _ _ _ _ Ha_). fold a_'.
  assert (Ha1 : nth_error (update rtau_ a_' h) rtau = Some a)
    by (rewrite nth_error_update_other; auto).
  rewrite (read_some _ _ _ Ha1).
  rewrite (write_some _ _ _ _ Ha1). fold a'.
  assert (L : (rtau < length (update rtau_ a_' h))%nat)
    by (apply nth_error_Some; congruence).
  assert (L_ : (rtau_ < length h)%nat) by (apply nth_error_Some; congruence).
  rewrite (read_some rtau a') by (now apply nth_error_update_same).
  rewrite (read_some rtau_ a_').
  - reflexivity.
  - rewrite nth_error_update_other by auto.
    now apply nth_error_update_same.
Qed.

Lemma assign_tau_keeps_t_ (np_exp np_log : float -> float) (u s : arr)
      (alpha beta gamma : float) (t_ : option float) (u0_ s0_ : float)
      (projection : bool) (tau tau_ : arr) (t' : option float) :
  assign_tau np_exp np_log u s alpha beta gamma t_ u0_ s0_ projection
  = Some (tau, tau_, t') -> t' = t_.
Proof.
  unfold assign_tau, obind.
  destruct (projection && (beta <? gamma)).
  - destruct (NP.min _); [|discriminate].
    destruct (tau_inv _ _ _ _ _ _ _ _); [|discriminate].
    destruct t_; [|discriminate]. intros E. now injection E as _ _ <-.
  - destruct (tau_inv _ _ _ _ _ _ _ _); [|discriminate].
    destruct (tau_inv _ _ _ _ _ _ _ _); [|discriminate].
    destruct (NP.max _); [|discriminate].
    intros E. now injection E as _ _ <-.
Qed.

(** The arrays of the shared stage: the caller's, or two fresh ones at
    the addresses 0 and 1 of a heap of the call's own; [t_] is the
    caller's. *)
Lemma shared_stage_refs (np_exp np_log : float -> float) (kw : kwargs)
      (h h1 : heap) x rtau rtau_ t' own :
  shared_stage np_exp np_log kw h = Some (x, rtau, rtau_, t', h1, own) ->
  t' = kw_t_ kw
  /\ ((own = true /\ rtau = 0%nat /\ rtau_ = 1%nat
       /\ (kw_tau kw = None \/ kw_tau_ kw = None \/ kw_t_ kw = None))
      \/ (own = false /\ kw_tau kw = Some rtau /\ kw_tau_ kw = Some rtau_
          /\ kw_t_ kw <> None)).
Proof.
  unfold shared_stage, obind.
  destruct (anchor np_exp kw) as [[u0_ s0_]|]; [|discriminate].
  destruct (kw_tau kw) as [r|], (kw_tau_ kw) as [r_|], (kw_t_ kw) as [t|];
    try (destruct (assign_tau _ _ _ _ _ _ _ _ _ _ _)
           as [[[tau tau_] t'']|] eqn:A; [|discriminate];
         apply assign_tau_keeps_t_ in A; subst t'');
    destruct (front _ _ _ _ _ _ _) as [[y hh']|]; try discriminate;
    intros Q; injection Q as _ <- <- <- _ <-;
    (split; [reflexivity|]); auto 10;
    right; repeat split; congruence.
Qed.

(** ** Mode 'assign_timepoints' *)

Lemma nth_map_lt {A B : Type} (f : A -> B) (l : list A) (i : nat) (d : B)
      (d' : A) :
  (i < length l)%nat -> nth i (map f l) d = f (nth i l d').
Proof.
  intros H. rewrite (nth_indep _ d (f d')) by (now rewrite length_map).
  apply map_nth.
Qed.

Lemma collapse_is_map (o : list nat) : collapse o = map branch_of_state o.
Proof.
  unfold collapse. rewrite map_map. apply map_ext.
  intros [|[|[|[|k]]]]; reflexivity.
Qed.

Lemma nth_times (a : arr) (m : list bool) (i : nat) :
  (i < length a)%nat -> (i < length m)%nat ->
  nth i (times a m) nan = nth i a nan * NP.of_bool (nth i m false).
Proof.
  intros. unfold times.
  now rewrite (nth_map2 _ a m i nan nan false) by assumption.
Qed.

Lemma length_times (a : arr) (m : list bool) :
  length (times a m) = Nat.min (length a) (length m).
Proof. apply length_map2. Qed.

Lemma zero_mul_zero (x : float) :
  is_finite x = true -> (x * 0 * 0 =? 0) = true.
Proof.
  intros F. apply F64.mul_zero_r, F64.zero_finite. now apply F64.mul_zero_r.
Qed.

Lemma zero_add_zero (a b : float) :
  (a =? 0) = true -> (b =? 0) = true -> (a + b =? 0) = true.
Proof.
  intros Ha Hb. destruct (F64.add_zero_r a b Hb) as [-> | [_ H]]; assumption.
Qed.

Lemma finite_zero_add (z t : float) :
  (z =? 0) = true -> is_finite t = true -> is_finite (z + t) = true.
Proof.
  intros Hz Ft. destruct (F64.add_zero_l t z Hz) as [-> | [_ H]];
    [assumption | now apply F64.zero_finite].
Qed.

(** One cell of the mode: the selected index [k], the times [tau] and
    [tau_] of the cell and [t_] give the returned time, the returned
    [tau] and the branch. *)
Lemma assigned_cell (k : nat) (tau tau_ t_ : float) :
  is_finite tau = true -> is_finite tau_ = true -> is_finite t_ = true ->
  let b := branch_of_state k in
  let tau' := tau * NP.of_bool (Nat.eqb k 1) in
  let tau_' := tau_ * NP.of_bool (Nat.eqb k 0) in
  let t := tau' * NP.of_bool (Nat.eqb b 1)
           + (tau_' + t_) * NP.of_bool (Nat.eqb b 0) in
  match k with
  | 0%nat => (tau' =? 0) = true /\ same_value t (tau_ + t_)
  | 1%nat => tau' = tau /\ same_value t tau
  | 2%nat => (tau' =? 0) = true /\ (t =? 0) = true
  | 3%nat => (tau' =? 0) = true /\ same_value t t_
  | _ => True
  end.
Proof.
  intros F F_ Ft.
  destruct k as [|[|[|[|k]]]]; cbn [branch_of_state Nat.eqb NP.of_bool];
    cbv zeta; try exact I.
  - split; [now apply F64.mul_zero_r|].
    rewrite !F64.mul_one_r. apply same_value_add_zero_l.
    now apply zero_mul_zero.
  - rewrite !F64.mul_one_r. split; [reflexivity|].
    apply same_value_add_zero_r. apply F64.mul_zero_r.
    apply finite_zero_add; [now apply F64.mul_zero_r | assumption].
  - split; [now apply F64.mul_zero_r|].
    rewrite F64.mul_one_r. apply zero_add_zero; [now apply F64.mul_zero_r|].
    apply F64.mul_zero_r.
    apply finite_zero_add; [now apply F64.mul_zero_r | assumption].
  - split; [now apply F64.mul_zero_r|].
    rewrite F64.mul_one_r.
    assert (Z : (tau * 0 * 0 =? 0) = true) by now apply zero_mul_zero.
    assert (Z_ : (tau_ * 0 =? 0) = true) by now apply F64.mul_zero_r.
    destruct (F64.add_zero_l t_ (tau_ * 0) Z_) as [-> | [H1 H2]].
    + now apply same_value_add_zero_l.
    + right. apply F64.zeros_eqb; [|assumption]. now apply zero_add_zero.
Qed.

(** C2, amended.  In mode 'assign_timepoints' the call returns per-cell
    (t, tau, branch), where the branch comes from the argmin over the
    candidate-state distances (the rows of the matrix of mode 'distance')
    with the steady states collapsed onto the branch that starts there:
    the repression steady state (index 2) onto the induction branch and
    the induction steady state (index 3) onto the repression branch, both
    at elapsed time zero.  For finite times: an induction-curve cell has
    t = tau; a repression-curve cell has t = tau' + t_ and returned tau 0;
    a cell at the repression steady state has t = tau = 0; a cell at the
    induction steady state has t = t_ and returned tau 0.  ([tau0] and
    [tau0_] are the times used, as mode 'tau' returns them.) *)
Theorem assign_timepoints_branch_and_time :
  forall (np_exp np_log : float -> float) (kw : kwargs) (h h1 : heap)
         (res : list arr) (tau0 tau0_ : arr) (t_ : float),
    (forall r, kw_tau kw = Some r -> kw_tau_ kw <> Some r) ->
    kw_t_ kw = Some t_ ->
    compute_divergence np_exp np_log kw Distance h = Some (RMatrix res, h1) ->
    compute_divergence np_exp np_log kw Tau h = Some (RTau tau0 tau0_, h1) ->
    exists t tau o h2,
      assign_timepoints np_exp np_log kw h = Some (RAssign t tau o, h2)
      /\ o = map branch_of_state (NP.argmin_axis0 res)
      /\ forall i,
           (i < length o)%nat -> (i < length tau0)%nat ->
           (i < length tau0_)%nat ->
           is_finite (nth i tau0 nan) = true ->
           is_finite (nth i tau0_ nan) = true ->
           is_finite t_ = true ->
           match nth i (NP.argmin_axis0 res) 0%nat with
           | 0%nat =>
               nth i o 0%nat = 0%nat /\ (nth i tau nan =? 0) = true
               /\ same_value (nth i t nan) (nth i tau0_ nan + t_)
           | 1%nat =>
               nth i o 0%nat = 1%nat /\ nth i tau nan = nth i tau0 nan
               /\ same_value (nth i t nan) (nth i tau0 nan)
           | 2%nat =>
               nth i o 0%nat = 1%nat /\ (nth i tau nan =? 0) = true
               /\ (nth i t nan =? 0) = true
           | 3%nat =>
               nth i o 0%nat = 0%nat /\ (nth i tau nan =? 0) = true
               /\ same_value (nth i t nan) t_
           | _ => True
           end.
Proof.
  intros np_exp np_log kw h h1 res tau0 tau0_ t_ Hdist Ht_ HD HT.
  rewrite compute_divergence_stages in HD, HT.
  destruct (shared_stage np_exp np_log kw h)
    as [[[[[[x rtau] rtau_] t'] hw] own]|] eqn:S; [|discriminate].
  destruct (shared_stage_refs _ _ _ _ _ _ _ _ _ _ S) as [Et R].
  destruct x as [[[res0 varu] vars] [[[ut st] ut_] st_]].
  cbn [dispatch] in HD. unfold ret in HD. injection HD as <- Eh.
  cbn [dispatch] in HT. unfold bind, ret in HT.
  destruct (read rtau hw) as [[a hw']|] eqn:Ra; [|discriminate].
  apply read_inv in Ra. destruct Ra as [Ha ->].
  destruct (read rtau_ hw) as [[a_ hw']|] eqn:Ra_; [|discriminate].
  apply read_inv in Ra_. destruct Ra_ as [Ha_ ->].
  injection HT as -> -> _.
  assert (D : rtau <> rtau_).
  { destruct R as [(_ & -> & -> & _) | (_ & E1 & E2 & _)]; [discriminate|].
    intros <-. exact (Hdist _ E1 E2). }
  rewrite Ht_ in Et. subst t'.
  unfold assign_timepoints. rewrite compute_divergence_stages, S.
  rewrite (dispatch_assign_timepoints _ _ _ _ _ _ _ _ _ _ _ _ _ _ _ _
             D Ha Ha_).
  set (o := NP.argmin_axis0 res0).
  do 4 eexists. split; [reflexivity|]. split; [apply collapse_is_map|].
  rewrite collapse_is_map, length_map.
  intros i Ho La La_ F F_ Ft.
  assert (Lm : forall k, length (mask_eq k o) = length o)
    by (intros; unfold mask_eq; apply length_map).
  assert (Lm' : forall k, length (mask_eq k (map branch_of_state o))
                          = length o)
    by (intros; unfold mask_eq; now rewrite !length_map).
  rewrite (nth_map2 _ _ _ _ _ nan nan)
    by (rewrite !length_times, ?length_map, ?length_times, ?Lm, ?Lm'; lia).
  rewrite !nth_times
    by (rewrite ?length_times, ?length_map, ?length_times, ?Lm, ?Lm'; lia).
  rewrite (nth_map_lt _ _ _ _ nan) by (rewrite length_times, Lm; lia).
  rewrite !nth_times by (rewrite ?Lm; lia).
  unfold mask_eq.
  rewrite !(nth_map_lt _ _ _ false 0%nat) by (rewrite ?length_map; lia).
  rewrite !(nth_map_lt branch_of_state _ _ 0%nat 0%nat) by lia.
  pose proof (assigned_cell (nth i o 0%nat) (nth i tau0 nan)
                            (nth i tau0_ nan) t_ F F_ Ft) as C.
  cbv zeta in C.
  destruct (nth i o 0%nat) as [|[|[|[|k]]]]; try exact I;
    cbn [branch_of_state] in *; tauto.
Qed.

(** C2, as stated, fails on [kw_steady]: cell 0, whose argmin is the
    induction steady state (3), gets the repression branch (0), and cell
    1, whose argmin is the repression steady state (2), gets the
    induction branch (1). *)
Lemma assign_timepoints_steady_counterexample :
  compute_divergence exp64 log64 kw_steady HardState heap_steady
  = Some (RState [3; 2; 0]%nat, heap_steady)
  /\ assign_timepoints exp64 log64 kw_steady heap_steady
     = Some (RAssign [3; 0; 3] [0; 0; 0] [0; 1; 0]%nat,
             [[0; 0; 0]; [0; 0; 0]])
  /\ map branch_as_claimed [3; 2; 0]%nat = [1; 0; 0]%nat
  /\ [0; 1; 0]%nat <> map branch_as_claimed [3; 2; 0]%nat.
Proof. repeat split; try reflexivity. discriminate. Qed.

(** The theorem at [kw_steady]. *)
Lemma assign_timepoints_branch_and_time_witness :
  exists t tau o h2,
    assign_timepoints exp64 log64 kw_steady heap_steady
    = Some (RAssign t tau o, h2)
    /\ o = [0; 1; 0]%nat
    /\ same_value (nth 0 t nan) 3
    /\ (nth 1 t nan =? 0) = true
    /\ same_value (nth 2 t nan) (0 + 3).
Proof.
  destruct (assign_timepoints_branch_and_time exp64 log64 kw_steady
              heap_steady heap_steady
              [[9.25; 3.25; 0]; [20; 20; 3.25]; [20; 0; 3.25]; [0; 20; 9.25]]
              [0; 2000; 0] [0; 0; 0] 3
              ltac:(intros r E; injection E as <-; discriminate)
              eq_refl eq_refl eq_refl)
    as (t & tau & o & h2 & E & Eo & H).
  exists t, tau, o, h2. split; [exact E|].
  assert (Eo' : o = [0; 1; 0]%nat) by (rewrite Eo; reflexivity).
  split; [exact Eo'|]. subst o.
  pose proof (H 0%nat (Nat.lt_0_succ _) (Nat.lt_0_succ _) (Nat.lt_0_succ _)
                eq_refl eq_refl eq_refl) as H0.
  pose proof (H 1%nat ltac:(simpl; lia) ltac:(simpl; lia) ltac:(simpl; lia)
                eq_refl eq_refl eq_refl) as H1.
  pose proof (H 2%nat ltac:(simpl; lia) ltac:(simpl; lia) ltac:(simpl; lia)
                eq_refl eq_refl eq_refl) as H2.
  split; [exact (proj2 (proj2 H0))|].
  split; [exact (proj2 (proj2 H1)) | exact (proj2 (proj2 H2))].
Defined.

(** ** In-place updates of the caller's arrays *)

Lemma update_same (r : ref) (a : arr) (h : heap) :
  nth_error h r = Some a -> update r a h = h.
Proof.
  revert r. induction h as [|x h IH]; intros [|r]; simpl; intros H;
    try discriminate.
  - now injection H as ->.
  - f_equal. now apply IH.
Qed.

(** The increment adjustment on two distinct arrays, as a function of
    what they hold. *)
Lemma adjust_step (mask : list bool) (q : ref) (b : arr) (g : heap) :
  nth_error g q = Some b ->
  (if NP.any mask
   then bind (read q)
             (fun tau =>
                bind (lift (adjust_increments (NP.select mask tau)))
                     (fun adj => write q (NP.scatter mask adj tau)))
   else ret tt) g
  = match adjust_masked mask b with
    | Some b' => Some (tt, update q b' g)
    | None => None
    end.
Proof.
  intros Hb. unfold adjust_masked, bind, obind. destruct (NP.any mask).
  - rewrite (read_some _ _ _ Hb). unfold lift.
    destruct (adjust_increments _) as [adj|]; [|reflexivity].
    now rewrite (write_some _ _ _ _ Hb).
  - unfold ret. now rewrite (update_same _ _ _ Hb).
Qed.

Lemma adjust_stage_spec (np_exp : float -> float) (kw : kwargs)
      (std_u u0_ s0_ : float) (r r_ : ref) (h : heap) (a0 a0_ : arr) :
  r <> r_ -> nth_error h r = Some a0 -> nth_error h r_ = Some a0_ ->
  let o := nearer_branch np_exp kw std_u u0_ s0_ a0 a0_ in
  adjust_stage np_exp kw std_u u0_ s0_ r r_ h
  = match adjust_masked (map (Nat.eqb 1) o) a0 with
    | Some a =>
        match adjust_masked (map (Nat.eqb 0) o) a0_ with
        | Some a_ => Some (tt, update r_ a_ (update r a h))
        | None => None
        end
    | None => None
    end.
Proof.
  intros D Ha Ha_ o. unfold adjust_stage.
  unfold bind at 1. rewrite (read_some _ _ _ Ha).
  unfold bind at 1. rewrite (read_some _ _ _ Ha_).
  cbv zeta. fold o. unfold bind at 1.
  rewrite (adjust_step _ _ _ _ Ha).
  destruct (adjust_masked (map (Nat.eqb 1) o) a0) as [a|]; [|reflexivity].
  apply adjust_step. rewrite nth_error_update_other; auto.
Qed.

Lemma contents_after_updates (r r_ : ref) (a a_ a0 a0_ : arr) (h : heap) :
  r <> r_ -> nth_error h r = Some a0 -> nth_error h r_ = Some a0_ ->
  nth_error (update r_ a_ (update r a h)) r = Some a
  /\ nth_error (update r_ a_ (update r a h)) r_ = Some a_.
Proof.
  intros D Ha Ha_.
  assert (L : (r < length h)%nat) by (apply nth_error_Some; congruence).
  assert (L_ : (r_ < length h)%nat) by (apply nth_error_Some; congruence).
  split.
  - rewrite nth_error_update_other by auto. now apply nth_error_update_same.
  - apply nth_error_update_same. now rewrite length_update.
Qed.

(** The shared stage on two distinct arrays, as a function of what they
    hold. *)
Lemma front_spec (np_exp : float -> float) (kw : kwargs)
      (u0_ s0_ : float) (r r_ : ref) (h : heap) (a0 a0_ : arr) :
  r <> r_ -> nth_error h r = Some a0 -> nth_error h r_ = Some a0_ ->
  let o := nearer_branch np_exp kw (kw_std_u kw / kw_scaling kw) u0_ s0_
                         a0 a0_ in
  front np_exp kw u0_ s0_ r r_ h
  = match (if kw_constraint_time_increments kw
           then adjust_masked (map (Nat.eqb 1) o) a0 else Some a0) with
    | Some a =>
        match (if kw_constraint_time_increments kw
               then adjust_masked (map (Nat.eqb 0) o) a0_ else Some a0_) with
        | Some a_ =>
            Some (distances_of np_exp kw u0_ s0_ a a_,
                  update r_ a_ (update r a h))
        | None => None
        end
    | None => None
    end.
Proof.
  intros D Ha Ha_ o. unfold front, distances_of.
  assert (Tail : forall (a a_ : arr) (g : heap),
             nth_error g r = Some a -> nth_error g r_ = Some a_ ->
             bind (read r)
               (fun tau =>
                  bind (read r_)
                    (fun tau_ =>
                       let '(distu, distu_, dists, dists_, model) :=
                         residuals np_exp kw (kw_std_u kw / kw_scaling kw)
                                   u0_ s0_ tau tau_ in
                       let '(res, varu, vars) :=
                         candidate_distances kw (kw_std_u kw / kw_scaling kw)
                                             distu distu_ dists dists_ in
                       ret (res, varu, vars, model))) g
             = Some (let '(distu, distu_, dists, dists_, model) :=
                       residuals np_exp kw (kw_std_u kw / kw_scaling kw)
                                 u0_ s0_ a a_ in
                     let '(res, varu, vars) :=
                       candidate_distances kw (kw_std_u kw / kw_scaling kw)
                                           distu distu_ dists dists_ in
                     (res, varu, vars, model), g)).
  { intros a a_ g Ga Ga_. unfold bind.
    rewrite (read_some _ _ _ Ga), (read_some _ _ _ Ga_).
    destruct (residuals _ _ _ _ _ _ _) as [[[[du du_] ds] ds_] m].
    destruct (candidate_distances _ _ _ _ _ _) as [[res varu] vars].
    reflexivity. }
  unfold bind at 1. destruct (kw_constraint_time_increments kw).
  - rewrite (adjust_stage_spec _ _ _ _ _ _ _ _ _ _ D Ha Ha_). fold o.
    destruct (adjust_masked (map (Nat.eqb 1) o) a0) as [a|]; [|reflexivity].
    destruct (adjust_masked (map (Nat.eqb 0) o) a0_) as [a_|];
      [|reflexivity].
    destruct (contents_after_updates r r_ a a_ a0 a0_ h D Ha Ha_).
    now apply Tail.
  - unfold ret at 1. rewrite (update_same r a0 h Ha).
    rewrite (update_same r_ a0_ h Ha_). now apply Tail.
Qed.





(** ** Repeated calls of [assign_timepoints] *)

(** C8, as stated, fails when the caller passes [tau] and [tau_]: the
    first call on [kw_twice] returns branch 1 with t = tau = 2000 and
    leaves [tau_] zeroed; the second call, with the same arguments (the
    same two arrays), returns branch 0 with t = 3000 and tau = 0. *)
Lemma assign_timepoints_twice_counterexample :
  assign_timepoints exp64 log64 kw_twice heap_twice
  = Some (RAssign [2000] [2000] [1%nat], [[2000]; [0]])
  /\ assign_timepoints exp64 log64 kw_twice [[2000]; [0]]
     = Some (RAssign [3000] [0] [0%nat], [[0]; [0]])
  /\ RAssign [2000] [2000] [1%nat] <> RAssign [3000] [0] [0%nat].
Proof. repeat split; try reflexivity. discriminate. Qed.

Lemma front_fails_without_array (np_exp : float -> float) (kw : kwargs)
      (u0_ s0_ : float) (r r_ : ref) (h : heap) :
  nth_error h r = None \/ nth_error h r_ = None ->
  front np_exp kw u0_ s0_ r r_ h = None.
Proof.
  intros N. unfold front, adjust_stage, bind, read.
  destruct (kw_constraint_time_increments kw).
  - destruct (nth_error h r) as [a|]; [|reflexivity].
    destruct (nth_error h r_) as [a_|]; [|reflexivity].
    destruct N; discriminate.
  - unfold ret. destruct (nth_error h r) as [a|]; [|reflexivity].
    destruct (nth_error h r_) as [a_|]; [|reflexivity].
    destruct N; discriminate.
Qed.

(** C8, amended.  [assign_timepoints] is a function of its arguments and
    of what the arrays [tau] and [tau_] hold when it is called.  When
    they are not all passed ([tau], [tau_] or [t_] is [None]) the call
    leaves the caller's heap as it was and its output does not depend on
    the heap: any two calls with these arguments, successive ones too,
    return the same output.  When two distinct arrays are passed, two
    calls return the same output provided the arrays hold the same
    contents at both calls, which the first call does not preserve. *)
Theorem assign_timepoints_repeatable :
  forall (np_exp np_log : float -> float) (kw : kwargs),
    ((kw_tau kw = None \/ kw_tau_ kw = None \/ kw_t_ kw = None) ->
     forall h g,
       option_map fst (assign_timepoints np_exp np_log kw h)
       = option_map fst (assign_timepoints np_exp np_log kw g)
       /\ forall r h',
            assign_timepoints np_exp np_log kw h = Some (r, h') ->
            h' = h /\ assign_timepoints np_exp np_log kw h' = Some (r, h'))
    /\ (forall r r_,
           kw_tau kw = Some r -> kw_tau_ kw = Some r_ -> r <> r_ ->
           forall h g,
             nth_error h r = nth_error g r ->
             nth_error h r_ = nth_error g r_ ->
             option_map fst (assign_timepoints np_exp np_log kw h)
             = option_map fst (assign_timepoints np_exp np_log kw g)).
Proof.
  intros np_exp np_log kw.
  assert (Fresh : (kw_tau kw = None \/ kw_tau_ kw = None \/ kw_t_ kw = None) ->
                  forall h, assign_timepoints np_exp np_log kw h
                            = option_map (fun r => (r, h))
                                (option_map fst
                                   (assign_timepoints np_exp np_log kw []))).
  { intros N h. unfold assign_timepoints, compute_divergence, obind.
    destruct (anchor np_exp kw) as [[u0_ s0_]|]; [|reflexivity].
    destruct (kw_tau kw) as [r|], (kw_tau_ kw) as [r_|],
             (kw_t_ kw) as [t|];
      try (destruct N as [N|[N|N]]; discriminate);
      destruct (assign_tau _ _ _ _ _ _ _ _ _ _ _) as [[[tau tau_] t']|];
      try reflexivity;
      destruct (divergence_body _ _ _ _ _ _ _ _ _ _) as [[res hh]|];
      reflexivity. }
  split.
  - intros N h g. split.
    + rewrite (Fresh N h), (Fresh N g).
      destruct (option_map fst _); reflexivity.
    + intros r h' E. rewrite (Fresh N h) in E.
      destruct (option_map fst (assign_timepoints np_exp np_log kw []))
        as [r0|] eqn:E0; [|discriminate].
      injection E as <- <-. split; [reflexivity|].
      rewrite (Fresh N h). reflexivity.
  - intros r r_ Kt Kt_ D h g Er Er_.
    destruct (kw_t_ kw) as [t_|] eqn:Kt'.
    2:{ rewrite (Fresh (or_intror (or_intror eq_refl)) h),
                (Fresh (or_intror (or_intror eq_refl)) g).
        destruct (option_map fst _); reflexivity. }
    clear Fresh.
    unfold assign_timepoints, compute_divergence, obind.
    destruct (anchor np_exp kw) as [[u0_ s0_]|]; [|reflexivity].
    rewrite Kt, Kt_, Kt'. unfold divergence_body, bind.
    destruct (nth_error h r) as [a0|] eqn:Ha.
    2:{ rewrite !front_fails_without_array by (left; congruence).
        reflexivity. }
    destruct (nth_error h r_) as [a0_|] eqn:Ha_.
    2:{ rewrite !front_fails_without_array by (right; congruence).
        reflexivity. }
    symmetry in Er, Er_.
    rewrite (front_spec _ _ _ _ _ _ _ _ _ D Ha Ha_).
    rewrite (front_spec _ _ _ _ _ _ _ _ _ D Er Er_).
    destruct (if kw_constraint_time_increments kw then _ else Some a0)
      as [a|]; [|reflexivity].
    destruct (if kw_constraint_time_increments kw then _ else Some a0_)
      as [a_|]; [|reflexivity].
    destruct (distances_of np_exp kw u0_ s0_ a a_)
      as [[[res varu] vars] [[[ut st] ut_] st_]].
    destruct (contents_after_updates r r_ a a_ a0 a0_ h D Ha Ha_)
      as [H1 H2].
    destruct (contents_after_updates r r_ a a_ a0 a0_ g D Er Er_)
      as [G1 G2].
    rewrite (dispatch_assign_timepoints _ _ _ _ _ _ _ _ _ _ _ _ _ _ _ _
               D H1 H2).
    rewrite (dispatch_assign_timepoints _ _ _ _ _ _ _ _ _ _ _ _ _ _ _ _
               D G1 G2).
    reflexivity.
Qed.

(** The theorem at [kw_fresh] (no arrays passed: a second call on the
    heap the first one leaves returns the same output) and at [kw_twice]
    (arrays passed: equal contents give equal outputs). *)
Lemma assign_timepoints_repeatable_witness :
  (forall r h',
      assign_timepoints exp64 log64 kw_fresh heap_twice = Some (r, h') ->
      h' = heap_twice
      /\ assign_timepoints exp64 log64 kw_fresh h' = Some (r, h'))
  /\ option_map fst (assign_timepoints exp64 log64 kw_twice heap_twice)
     = option_map fst (assign_timepoints exp64 log64 kw_twice
                         [[2000]; [2000]; [7]]).
Proof.
  split.
  - exact (proj2 (proj1 (assign_timepoints_repeatable exp64 log64 kw_fresh)
                    (or_introl eq_refl) heap_twice heap_twice)).
  - exact (proj2 (assign_timepoints_repeatable exp64 log64 kw_twice)
             0%nat 1%nat eq_refl eq_refl ltac:(discriminate)
             heap_twice [[2000]; [2000]; [7]] eq_refl eq_refl).
Defined.

(** ** Signs of binary64 results *)

Module Sign.

Lemma round_aux_signed (sx : bool) (mx ex : Z) (lx : location) :
  F64.SFsigned sx (binary_round_aux prec emax sx mx ex lx) = true.
Proof.
  unfold binary_round_aux.
  destruct (shr_fexp prec emax mx ex lx) as [mrs' e'].
  destruct (shr_fexp prec emax _ e' loc_Exact) as [mrs'' e''].
  destruct (shr_m mrs''); [| destruct (_ <=? _)%Z |]; simpl;
    try reflexivity; apply Bool.eqb_reflx.
Qed.

Lemma round_signed (sx : bool) (mx : positive) (ex : Z) :
  F64.SFsigned sx (binary_round prec emax sx mx ex) = true.
Proof.
  unfold binary_round. destruct (shl_align mx ex _) as [mz ez].
  apply round_aux_signed.
Qed.

Lemma signed_nn (v : spec_float) : F64.SFsigned false v = true -> F64.SFnn v = true.
Proof. destruct v as [s|s| |s m e]; simpl; try reflexivity; now destruct s. Qed.

Lemma not_negative_SF (x : float) :
  not_negative x <-> F64.SFnn (Prim2SF x) = true.
Proof.
  unfold not_negative. rewrite F64.is_nan_SF, leb_spec.
  change (Prim2SF 0) with (S754_zero false). unfold SFleb.
  destruct (Prim2SF x) as [s|s| |s m e]; simpl.
  - tauto.
  - destruct s; simpl; split; auto; intros [H|H]; discriminate.
  - tauto.
  - destruct s; simpl; split; auto; intros [H|H]; discriminate.
Qed.

Lemma SFnn_add (a b : spec_float) :
  F64.SFnn a = true -> F64.SFnn b = true ->
  F64.SFnn (SFadd prec emax a b) = true.
Proof.
  destruct a as [sa|sa| |sa ma ea], b as [sb|sb| |sb mb eb]; simpl;
    intros Ha Hb; try reflexivity; try assumption;
    try (destruct sa, sb; simpl in *; congruence).
  destruct sa, sb; try discriminate. cbn [cond_Zopp].
  apply signed_nn. cbn [Z.add]. unfold binary_normalize.
  apply round_signed.
Qed.

Lemma SFnn_mul (a b : spec_float) :
  F64.SFnn a = true -> F64.SFnn b = true ->
  F64.SFnn (SFmul prec emax a b) = true.
Proof.
  destruct a as [sa|sa| |sa ma ea], b as [sb|sb| |sb mb eb]; simpl;
    intros Ha Hb; try reflexivity;
    try (destruct sa, sb; simpl in *; congruence).
  destruct sa, sb; try discriminate. apply signed_nn, round_aux_signed.
Qed.

Lemma SFnn_sqrt (a : spec_float) :
  F64.SFnn a = true -> F64.SFnn (SFsqrt prec emax a) = true.
Proof.
  destruct a as [sa|sa| |sa ma ea]; simpl; intros Ha; try reflexivity.
  - destruct sa; [discriminate | reflexivity].
  - destruct sa; [discriminate|].
    destruct (SFsqrt_core_binary _ _ _ _) as [[mz ez] lz].
    apply signed_nn, round_aux_signed.
Qed.

(** A square is NaN or has its sign bit clear. *)
Lemma SFsigned_square (a : spec_float) :
  F64.SFsigned false (SFmul prec emax a a) = true.
Proof.
  destruct a as [sa|sa| |sa ma ea]; simpl; try reflexivity;
    try (now destruct sa).
  replace (xorb sa sa) with false by (now destruct sa).
  apply round_aux_signed.
Qed.

Lemma SFsigned_add (a b : spec_float) :
  F64.SFsigned false a = true -> F64.SFsigned false b = true ->
  F64.SFsigned false (SFadd prec emax a b) = true.
Proof.
  destruct a as [sa|sa| |sa ma ea], b as [sb|sb| |sb mb eb]; simpl;
    intros Ha Hb; try reflexivity; try assumption;
    try (destruct sa, sb; simpl in *; congruence).
  destruct sa, sb; try discriminate. cbn [cond_Zopp Z.add].
  unfold binary_normalize. apply round_signed.
Qed.

Lemma SFsigned_div (a b : spec_float) :
  F64.SFsigned false a = true -> F64.SFsigned false b = true ->
  F64.SFsigned false (SFdiv prec emax a b) = true.
Proof.
  destruct a as [sa|sa| |sa ma ea], b as [sb|sb| |sb mb eb]; simpl;
    intros Ha Hb; try reflexivity;
    try (destruct sa, sb; simpl in *; congruence).
  destruct sa, sb; try discriminate.
  destruct (SFdiv_core_binary _ _ _ _ _ _) as [[mz ez] lz].
  apply round_aux_signed.
Qed.

Lemma not_negative_add (x y : float) :
  not_negative x -> not_negative y -> not_negative (x + y).
Proof.
  rewrite !not_negative_SF, add_spec. apply SFnn_add.
Qed.

Lemma not_negative_mul (x y : float) :
  not_negative x -> not_negative y -> not_negative (x * y).
Proof.
  rewrite !not_negative_SF, mul_spec. apply SFnn_mul.
Qed.

Lemma not_negative_sqrt (x : float) :
  not_negative x -> not_negative (sqrt x).
Proof.
  rewrite !not_negative_SF, sqrt_spec. apply SFnn_sqrt.
Qed.

End Sign.

(** ** More on the helper functions *)

Lemma of_nat_0 : NP.of_nat 0 = 0.
Proof. reflexivity. Qed.

Lemma of_nat_1 : NP.of_nat 1 = 1.
Proof. reflexivity. Qed.

Lemma zero_cases (z : float) : (z =? 0) = true -> z = 0 \/ z = -0.
Proof.
  intros H. apply F64.is_zero_SF in H. destruct H as [[|] H].
  - right. now apply Prim2SF_inj.
  - left. now apply Prim2SF_inj.
Qed.

Lemma same_value_add_zeros (x z1 z2 : float) :
  (z1 =? 0) = true -> (z2 =? 0) = true -> same_value (x + z1 + z2) x.
Proof.
  intros H1 H2. destruct (F64.add_zero_r x z1 H1) as [-> | [Hx Hs]].
  - now apply same_value_add_zero_r.
  - right. apply F64.zeros_eqb; [|assumption]. now apply zero_add_zero.
Qed.

Lemma same_value_zero_add_zero (x z1 z2 : float) :
  (z1 =? 0) = true -> (z2 =? 0) = true -> same_value (z1 + x + z2) x.
Proof.
  intros H1 H2. destruct (F64.add_zero_l x z1 H1) as [-> | [Hx Hs]].
  - now apply same_value_add_zero_r.
  - right. apply F64.zeros_eqb; [|assumption]. now apply zero_add_zero.
Qed.

(** X1.  Away from zero [inv] is the reciprocal, exactly: the mask [(x
    != 0)] is 1 and multiplying by it changes nothing. This covers the
    infinities (where the reciprocal is a zero) and NaN. *)
Theorem inv_is_reciprocal_off_zero (x : float) :
  (x =? 0) = false -> inv x = 1 / x.
Proof.
  intros H. unfold inv. rewrite H. cbn [negb NP.of_bool].
  apply F64.mul_one_r.
Qed.

Lemma inv_is_reciprocal_off_zero_witness :
  (4 =? 0) = false /\ inv 4 = 0.25 /\ inv infinity = 0.
Proof.
  split; [reflexivity|]. split.
  - exact (inv_is_reciprocal_off_zero 4 eq_refl).
  - exact (inv_is_reciprocal_off_zero infinity eq_refl).
Defined.

(** ** Dividing by 1 is exact *)

Lemma div_eucl_pow52 (a : Z) :
  Z.div_eucl (4503599627370496 * a) 4503599627370496 = (a, 0%Z).
Proof.
  rewrite Z.mul_comm.
  pose proof (Z.div_mul a 4503599627370496 ltac:(lia)) as D.
  pose proof (Z.mod_mul a 4503599627370496 ltac:(lia)) as M.
  unfold Z.div, Z.modulo in D, M.
  destruct (Z.div_eucl (a * 4503599627370496) 4503599627370496) as [q r].
  now subst.
Qed.

Lemma div_one_r (x : float) : x / 1 = x.
Proof.
  apply Prim2SF_inj. rewrite div_spec, F64.one_SF.
  pose proof (Prim2SF_valid x) as V.
  destruct (Prim2SF x) as [s|s| |s m e];
    try (destruct s; reflexivity); try reflexivity.
  unfold SF64div, SFdiv.
  unfold valid_binary, bounded, canonical_mantissa in V.
  apply andb_prop in V. destruct V as [V1 V2].
  apply Z.eqb_eq in V1.
  unfold SFdiv_core_binary.
  change (Zdigits2 4503599627370496) with 53%Z.
  set (d := Zdigits2 (Z.pos m)) in *.
  assert (Hd : d = Z.pos (digits2_pos m)) by reflexivity.
  rewrite <- Hd in V1.
  unfold fexp, SpecFloat.emin in V1.
  change prec with 53%Z in *. change emax with 1024%Z in *.
  set (e' := IntDef.Z.min _ _).
  assert (He' : (e' = e \/ (e' = e - 1 /\ d = 53))%Z).
  { unfold e', fexp, SpecFloat.emin.
    change prec with 53%Z. change emax with 1024%Z. lia. }
  assert (Hexp : forall k, (Z.max (k - 53) (3 - 1024 - 53) = e)%Z ->
                 fexp 53 1024 k = e)
    by (intros k Hk; unfold fexp, SpecFloat.emin; exact Hk).
  destruct He' as [-> | [-> Hd53]].
  - replace (e - -52 - e)%Z with 52%Z by lia.
    change (IntDef.Z.shiftl (Z.pos m) 52) with (4503599627370496 * Z.pos m)%Z.
    rewrite div_eucl_pow52.
    change (new_location 4503599627370496 0) with loc_Exact.
    unfold binary_round_aux, shr_fexp. fold d.
    rewrite (Hexp (d + e)%Z V1), Z.sub_diag.
    cbn [shr shr_record_of_loc shr_m loc_of_shr_record shr_r shr_s
         round_nearest_even].
    fold d. rewrite (Hexp (d + e)%Z V1), Z.sub_diag.
    cbn [shr shr_m]. rewrite V2. destruct s; reflexivity.
  - replace (e - -52 - (e - 1))%Z with 53%Z by lia.
    change (IntDef.Z.shiftl (Z.pos m) 53)
      with (4503599627370496 * Z.pos (m~0))%Z.
    rewrite div_eucl_pow52.
    change (new_location 4503599627370496 0) with loc_Exact.
    unfold binary_round_aux, shr_fexp.
    replace (Zdigits2 (Z.pos m~0)) with (Z.succ d)
      by (rewrite Hd; cbn [Zdigits2 digits2_pos]; lia).
    replace (Z.succ d + (e - 1))%Z with (d + e)%Z by lia.
    rewrite (Hexp (d + e)%Z V1).
    replace (e - (e - 1))%Z with 1%Z by lia.
    cbn [shr SpecFloat.iter_pos shr_1 shr_record_of_loc shr_m
         loc_of_shr_record shr_r shr_s round_nearest_even orb].
    replace (e - 1 + 1)%Z with e by lia.
    fold d. rewrite (Hexp (d + e)%Z V1), Z.sub_diag.
    cbn [shr shr_m]. rewrite V2. destruct s; reflexivity.
Qed.

Lemma length_transpose (X : list arr) :
  length (NP.transpose X) = NP.ncols X.
Proof. unfold NP.transpose. now rewrite length_map, length_seq. Qed.

(** X2.  [normalize] never divides by zero: a column is divided by its
    sum, and by 1 where that sum is zero ([X_sum += X_sum == 0]); a
    column that sums to zero is therefore returned as it is. *)
Theorem normalize_never_divides_by_zero (X : list arr) (k i : nat) :
  rectangular X -> (k < length X)%nat -> (i < NP.ncols X)%nat ->
  let total := NP.sum (NP.column X i) in
  (exists d,
      nth i (nth k (normalize X) []) nan = nth i (nth k X []) nan / d
      /\ (d =? 0) = false
      /\ ((total =? 0) = true -> d = 1)
      /\ ((total =? 0) = false -> d = total))
  /\ ((total =? 0) = true ->
      nth i (nth k (normalize X) []) nan = nth i (nth k X []) nan).
Proof.
  intros R Hk Hi total.
  assert (Lk : length (nth k X []) = NP.ncols X).
  { unfold rectangular in R. rewrite Forall_forall in R. apply R.
    now apply nth_In. }
  assert (E : nth i (nth k (normalize X) []) nan
              = nth i (nth k X []) nan / (total + NP.of_bool (total =? 0))).
  { unfold normalize. cbv zeta.
    rewrite (@nth_map_lt (list float) (list float) _ X k [] [])
      by assumption.
    rewrite (nth_map2 _ _ _ i nan nan nan);
      [| exact (eq_ind_r (fun n => (i < n)%nat) Hi Lk)
       | now rewrite !length_map, length_transpose ].
    f_equal.
    rewrite (nth_map_lt _ _ i nan 0)
      by (now rewrite length_map, length_transpose).
    rewrite (@nth_map_lt (list float) float NP.sum _ i 0 [])
      by (now rewrite length_transpose).
    now rewrite nth_transpose. }
  rewrite E. clear E. destruct (total =? 0) eqn:E; cbn [NP.of_bool].
  - assert (D : total + 1 = 1).
    { destruct (zero_cases _ E) as [-> | ->]; reflexivity. }
    rewrite D. split.
    + exists 1. repeat split; try reflexivity; discriminate.
    + intros _. apply div_one_r.
  - assert (D : total + 0 = total).
    { destruct (F64.add_zero_r total 0 eq_refl) as [D | [Z _]];
        [assumption | congruence]. }
    rewrite D. split; [|discriminate].
    exists total. repeat split; try assumption; discriminate.
Qed.

Lemma normalize_never_divides_by_zero_witness :
  nth 0 (nth 1 (normalize [[0; 1]; [-0; 3]]) []) nan = -0
  /\ nth 1 (nth 1 (normalize [[0; 1]; [-0; 3]]) []) nan = 3 / 4.
Proof.
  split.
  - refine (proj2 (normalize_never_divides_by_zero
                     [[0; 1]; [-0; 3]] 1 0 _ _ _) eq_refl).
    + repeat constructor.
    + simpl; lia.
    + simpl; lia.
  - destruct (proj1 (normalize_never_divides_by_zero
                       [[0; 1]; [-0; 3]] 1 1
                       ltac:(repeat constructor) ltac:(simpl; lia)
                       ltac:(simpl; lia)))
      as (d & E & _ & _ & N).
    rewrite E, (N eq_refl). reflexivity.
Defined.

(** ** The kinetic curves at their ends *)

Lemma finite_mul_zero_cases (x : float) :
  is_finite x = true -> - x * 0 = 0 \/ - x * 0 = -0.
Proof.
  intros F. apply zero_cases, F64.mul_zero_r.
  rewrite F64.is_finite_SF, opp_spec. rewrite F64.is_finite_SF in F.
  destruct (Prim2SF x); simpl in *; congruence.
Qed.

(** X3.  At [tau = 0] the curves are at their initial state: [unspliced]
    returns [u0] and, when [inv(gamma - beta)] is finite (which excludes
    [gamma = beta]), [spliced] returns [s0]; [mRNA] is the pair of the
    two, at every [tau]. It takes finite rates and limits, and that
    numpy's [exp] is 1 at both zeros. *)
Theorem kinetics_start_at_initial_state
        (np_exp : float -> float) (u0 s0 alpha beta gamma : float) :
  np_exp 0 = 1 -> np_exp (-0) = 1 ->
  is_finite beta = true -> is_finite gamma = true ->
  is_finite (alpha / beta) = true -> is_finite (alpha / gamma) = true ->
  is_finite ((alpha - u0 * beta) * inv (gamma - beta)) = true ->
  same_value (unspliced np_exp 0 u0 alpha beta) u0
  /\ same_value (spliced np_exp 0 s0 u0 alpha beta gamma) s0
  /\ (forall tau,
         mRNA np_exp tau u0 s0 alpha beta gamma
         = (unspliced np_exp tau u0 alpha beta,
            spliced np_exp tau s0 u0 alpha beta gamma)).
Proof.
  intros E0 E0' Fb Fg Fu Fs Fc.
  assert (Eb : np_exp (- beta * 0) = 1)
    by (destruct (finite_mul_zero_cases beta Fb) as [-> | ->]; assumption).
  assert (Eg : np_exp (- gamma * 0) = 1)
    by (destruct (finite_mul_zero_cases gamma Fg) as [-> | ->]; assumption).
  split; [|split].
  - unfold unspliced. rewrite Eb. change (1 - 1) with 0.
    rewrite F64.mul_one_r. apply same_value_add_zero_r.
    now apply F64.mul_zero_r.
  - unfold spliced. rewrite Eb, Eg. change (1 - 1) with 0.
    rewrite F64.mul_one_r. apply same_value_add_zeros;
      now apply F64.mul_zero_r.
  - intros tau. reflexivity.
Qed.

Lemma kinetics_start_at_initial_state_witness :
  same_value (unspliced exp64 0 1.5 2 1) 1.5
  /\ same_value (spliced exp64 0 1 1.5 2 1 0.5) 1.
Proof.
  destruct (kinetics_start_at_initial_state exp64 1.5 1 2 1 0.5
              eq_refl eq_refl eq_refl eq_refl eq_refl eq_refl eq_refl)
    as (U & S & _).
  exact (conj U S).
Defined.

(** X4.  Far out on a curve, where both exponentials have underflowed to
    0, the curves are at the steady state: [unspliced] returns [alpha /
    beta] and [spliced] returns [alpha / gamma], for a finite initial
    state and a finite [inv(gamma - beta)] term. *)
Theorem kinetics_saturate_at_steady_state
        (np_exp : float -> float) (tau u0 s0 alpha beta gamma : float) :
  np_exp (- beta * tau) = 0 -> np_exp (- gamma * tau) = 0 ->
  is_finite u0 = true -> is_finite s0 = true ->
  is_finite ((alpha - u0 * beta) * inv (gamma - beta)) = true ->
  same_value (unspliced np_exp tau u0 alpha beta) (alpha / beta)
  /\ same_value (spliced np_exp tau s0 u0 alpha beta gamma) (alpha / gamma).
Proof.
  intros Eb Eg Fu Fs Fc. split.
  - unfold unspliced. rewrite Eb. change (1 - 0) with 1.
    rewrite F64.mul_one_r. apply same_value_add_zero_l.
    now apply F64.mul_zero_r.
  - unfold spliced. rewrite Eb, Eg. change (1 - 0) with 1.
    change (0 - 0) with 0. rewrite F64.mul_one_r.
    apply same_value_zero_add_zero; now apply F64.mul_zero_r.
Qed.

Lemma kinetics_saturate_at_steady_state_witness :
  same_value (unspliced exp64 2000 1.5 2 1) 2
  /\ same_value (spliced exp64 2000 1 1.5 2 1 0.5) 4.
Proof.
  exact (kinetics_saturate_at_steady_state exp64 2000 1.5 1 2 1 0.5
           eq_refl eq_refl eq_refl eq_refl eq_refl).
Defined.

(** ** Rooting the time axis *)

Lemma map2_map_r {A B C : Type} (f : A -> B -> C) (g : A -> B) (l : list A) :
  NP.map2 f l (map g l) = map (fun x => f x (g x)) l.
Proof. induction l as [|x l IH]; simpl; [reflexivity | now rewrite IH]. Qed.

Lemma max_some (l : arr) : l <> [] -> exists m, NP.max l = Some m.
Proof. destruct l; [congruence | eexists; reflexivity]. Qed.

Lemma min_some (l : arr) : l <> [] -> exists m, NP.min l = Some m.
Proof. destruct l; [congruence | eexists; reflexivity]. Qed.

Lemma sub_diag_finite (x : float) : is_finite x = true -> x - x = 0.
Proof.
  intros F. rewrite F64.is_finite_SF in F.
  destruct (Prim2SF x) as [s|s| |s m e] eqn:E; simpl in F; try discriminate;
    apply Prim2SF_inj; rewrite sub_spec, E.
  - destruct s; reflexivity.
  - unfold SF64sub, SFsub.
    replace (cond_Zopp s (Z.pos (fst (shl_align m e (IntDef.Z.min e e))))
             - cond_Zopp s (Z.pos (fst (shl_align m e (IntDef.Z.min e e)))))%Z
      with 0%Z by lia.
    reflexivity.
Qed.

(** X5.  [root_time] raises exactly when [root] is not an index of [t];
    in particular it raises on an empty [t], and for a valid root
    neither reduction ([np.max], [np.min]) can fail. *)
Theorem root_time_raises_iff_root_out_of_range (t : arr) (root : nat) :
  root_time t root = None <-> (length t <= root)%nat.
Proof.
  unfold root_time. rewrite <- nth_error_None.
  destruct (nth_error t root) as [t_root|] eqn:E; [|tauto].
  cbn [obind]. rewrite !map2_map_r.
  assert (N : t <> []) by (intros ->; destruct root; discriminate).
  destruct (max_some (map (fun x => (x - t_root) * NP.of_bool (t_root <=? x)) t))
    as [m ->]; [now destruct t|].
  cbn [obind]. rewrite !map2_map_r.
  destruct (min_some
              (map (fun x => (x + m)
                             * NP.of_nat (1 - Nat.b2n (t_root <=? x))) t))
    as [m' ->]; [now destruct t|].
  cbn [obind]. split; discriminate.
Qed.

(** X6.  What [root_time] returns, cell by cell: with [t_root = t[root]]
    and [t_origin] the largest shifted time of the cells at or after the
    root, a cell at or after the root gets [t - t_root] and a cell
    before it gets [t + t_origin] (for finite values; "the same number"
    allows the other zero). The root cell itself is at 0. *)
Theorem root_time_shifts_to_root
        (t : arr) (root : nat) (t_rooted : arr) (t_switch : float) :
  root_time t root = Some (t_rooted, t_switch) ->
  exists t_root t_origin,
    nth_error t root = Some t_root
    /\ NP.max (map (fun x => (x - t_root) * NP.of_bool (t_root <=? x)) t)
       = Some t_origin
    /\ length t_rooted = length t
    /\ (forall i, (i < length t)%nat ->
          let x := nth i t nan in
          is_finite (x - t_root) = true -> is_finite (x + t_origin) = true ->
          same_value (nth i t_rooted nan)
                     (if t_root <=? x then x - t_root else x + t_origin))
    /\ (is_finite t_root = true -> is_finite (t_root + t_origin) = true ->
        (nth root t_rooted nan =? 0) = true).
Proof.
  unfold root_time.
  destruct (nth_error t root) as [t_root|] eqn:E; [|discriminate].
  cbn [obind]. rewrite !map2_map_r.
  destruct (NP.max _) as [t_origin|] eqn:M; [|discriminate]. cbn [obind].
  rewrite !map2_map_r.
  destruct (NP.min _) as [m|]; [|discriminate]. cbn [obind].
  intros H. injection H as <- <-. cbv beta.
  exists t_root, t_origin.
  assert (Cell : forall i, (i < length t)%nat ->
            let x := nth i t nan in
            is_finite (x - t_root) = true -> is_finite (x + t_origin) = true ->
            same_value
              (nth i (NP.map2 PrimFloat.add
                        (map (fun x => (x - t_root) * NP.of_bool (t_root <=? x)) t)
                        (map (fun x => (x + t_origin)
                                       * NP.of_nat (1 - Nat.b2n (t_root <=? x))) t))
                   nan)
              (if t_root <=? x then x - t_root else x + t_origin)).
  { intros i Hi x F1 F2.
    rewrite (nth_map2 _ _ _ i nan nan nan) by (now rewrite length_map).
    rewrite !(nth_map_lt _ t i nan nan) by assumption. fold x.
    destruct (t_root <=? x); cbn [NP.of_bool Nat.b2n Nat.sub].
    - rewrite of_nat_0, F64.mul_one_r. apply same_value_add_zero_r.
      now apply F64.mul_zero_r.
    - rewrite of_nat_1, F64.mul_one_r. apply same_value_add_zero_l.
      now apply F64.mul_zero_r. }
  repeat split; try assumption.
  - rewrite length_map2, !length_map. apply Nat.min_id.
  - intros F1 F2.
    assert (L : (root < length t)%nat) by (apply nth_error_Some; congruence).
    assert (X : nth root t nan = t_root) by (now apply nth_error_nth).
    pose proof (Cell root L) as C. cbv zeta in C. rewrite X in C.
    rewrite (sub_diag_finite t_root F1) in C.
    assert (R : (t_root <=? t_root) = true).
    { apply F64.leb_refl. rewrite F64.is_finite_SF in F1.
      destruct (is_nan t_root) eqn:N; [|reflexivity].
      apply F64.is_nan_SF in N. rewrite N in F1. discriminate. }
    rewrite R in C. destruct (C eq_refl F2) as [C' | Z]; [|exact Z].
    exact (@eq_ind_r float 0 (fun v => (v =? 0) = true) eq_refl _ C').
Qed.

Lemma root_time_shifts_to_root_witness :
  root_time [3; 1; 2] 2 = Some ([1; 2; 0], 0)
  /\ same_value (nth 1 [1; 2; 0] nan) (1 + 1)
  /\ (nth 2 [1; 2; 0] nan =? 0) = true.
Proof.
  split; [reflexivity|].
  destruct (root_time_shifts_to_root [3; 1; 2] 2 [1; 2; 0] 0 eq_refl)
    as (t_root & t_origin & E & M & _ & Cell & Root).
  injection E as <-. injection M as <-. split.
  - exact (Cell 1%nat ltac:(simpl; lia) eq_refl eq_refl).
  - exact (Root eq_refl eq_refl).
Defined.

(** ** Branch parameters of absolute times *)

Lemma pick_first (a b : float) :
  is_finite b = true ->
  same_value (a * NP.of_nat 1 + b * NP.of_nat 0) a.
Proof.
  intros F. rewrite of_nat_0, of_nat_1, F64.mul_one_r.
  apply same_value_add_zero_r. now apply F64.mul_zero_r.
Qed.

Lemma pick_second (a b : float) :
  is_finite a = true ->
  same_value (a * NP.of_nat 0 + b * NP.of_nat 1) b.
Proof.
  intros F. rewrite of_nat_0, of_nat_1, F64.mul_one_r.
  apply same_value_add_zero_l. now apply F64.mul_zero_r.
Qed.

(** X7.  [vectorize], cell by cell (unsorted, the default): a cell whose
    time is before the switch ([t < t_]) keeps its time and gets
    [alpha], [u0], [s0]; any other cell gets the time since the switch,
    [alpha_] and the state [(u0_, s0_)] the induction curve has reached
    at the switch. The values blended away must be finite, the state at
    the switch included. *)
Theorem vectorize_selects_branch_parameters
        (np_exp : float -> float) (np_argsort : arr -> list nat)
        (t : arr) (t_ alpha beta : float) (gamma : option float)
        (alpha_ u0 s0 : float) (tau al u s : arr) (i : nat) :
  let x := nth i t nan in
  let u0_ := unspliced np_exp t_ u0 alpha beta in
  let s0_ := spliced np_exp t_ s0 u0 alpha beta
               (match gamma with Some g => g | None => beta / 2 end) in
  vectorize np_exp np_argsort t t_ alpha beta gamma alpha_ u0 s0 false
  = (tau, al, u, s) ->
  (i < length t)%nat ->
  is_finite x = true -> is_finite (x - t_) = true ->
  is_finite alpha = true -> is_finite alpha_ = true ->
  is_finite u0 = true -> is_finite u0_ = true ->
  is_finite s0 = true -> is_finite s0_ = true ->
  if x <? t_
  then same_value (nth i tau nan) x /\ same_value (nth i al nan) alpha
       /\ same_value (nth i u nan) u0 /\ same_value (nth i s nan) s0
  else same_value (nth i tau nan) (x - t_)
       /\ same_value (nth i al nan) alpha_
       /\ same_value (nth i u nan) u0_ /\ same_value (nth i s nan) s0_.
Proof.
  intros x u0_ s0_ V Hi Fx Fd Fa Fa_ Fu Fu_ Fs Fs_.
  unfold vectorize in V. cbv zeta in V. rewrite map2_map_r in V.
  fold u0_ s0_ in V. injection V as <- <- <- <-.
  rewrite !map_map.
  assert (N : forall g : float -> float,
             nth i (map g t) nan = g (nth i t nan))
    by (intros g; now apply nth_map_lt).
  rewrite !N. fold x.
  destruct (x <? t_); cbn [Nat.b2n]; cbv iota.
  - repeat split; now apply pick_first.
  - repeat split; now apply pick_second.
Qed.

Lemma vectorize_selects_branch_parameters_witness :
  (same_value (nth 0 [1000; 1; 0] nan) (3000 - 2000)
   /\ same_value (nth 0 [0; 5; 5] nan) 0
   /\ same_value (nth 0 [5; 0; 0] nan) 5
   /\ same_value (nth 0 [10; 0; 0] nan) 10)
  /\ (same_value (nth 1 [1000; 1; 0] nan) 1
      /\ same_value (nth 1 [0; 5; 5] nan) 5
      /\ same_value (nth 1 [5; 0; 0] nan) 0
      /\ same_value (nth 1 [10; 0; 0] nan) 0).
Proof.
  split.
  - exact (vectorize_selects_branch_parameters
             exp64 (fun _ => []) [3000; 1; 0] 2000 5 1 (Some 0.5) 0 0 0
             [1000; 1; 0] [0; 5; 5] [5; 0; 0] [10; 0; 0] 0
             eq_refl ltac:(simpl; lia)
             eq_refl eq_refl eq_refl eq_refl eq_refl eq_refl eq_refl eq_refl).
  - exact (vectorize_selects_branch_parameters
             exp64 (fun _ => []) [3000; 1; 0] 2000 5 1 (Some 0.5) 0 0 0
             [1000; 1; 0] [0; 5; 5] [5; 0; 0] [10; 0; 0] 1
             eq_refl ltac:(simpl; lia)
             eq_refl eq_refl eq_refl eq_refl eq_refl eq_refl eq_refl eq_refl).
Defined.

(** ** The shared stage and the mode dispatch *)

(** The distance matrix of a call is [candidate_distances] of some
    residuals. *)
Lemma shared_stage_candidates (np_exp np_log : float -> float) (kw : kwargs)
      (h h1 : heap) x rtau rtau_ t_ own :
  shared_stage np_exp np_log kw h = Some (x, rtau, rtau_, t_, h1, own) ->
  exists distu distu_ dists dists_,
    fst x = candidate_distances kw (kw_std_u kw / kw_scaling kw)
                                distu distu_ dists dists_.
Proof.
  unfold shared_stage, obind.
  destruct (anchor np_exp kw) as [[u0_ s0_]|]; [|discriminate].
  assert (F : forall r r_ hh y hh',
             front np_exp kw u0_ s0_ r r_ hh = Some (y, hh') ->
             exists distu distu_ dists dists_,
               fst y = candidate_distances kw (kw_std_u kw / kw_scaling kw)
                                           distu distu_ dists dists_).
  { intros r r_ hh y hh'. unfold front, bind.
    destruct (if kw_constraint_time_increments kw then _ else _)
      as [[[] h2]|]; [|discriminate].
    destruct (read r h2) as [[tau h3]|]; [|discriminate].
    destruct (read r_ h3) as [[tau_ h4]|]; [|discriminate].
    destruct (residuals _ _ _ _ _ _ _) as [[[[distu distu_] dists] dists_] m].
    exists distu, distu_, dists, dists_.
    destruct (candidate_distances _ _ _ _ _ _) as [[res' varu'] vars'].
    unfold ret in H. injection H as <- <-. reflexivity. }
  destruct (kw_tau kw) as [r|], (kw_tau_ kw) as [r_|], (kw_t_ kw) as [t|];
    try (destruct (assign_tau _ _ _ _ _ _ _ _ _ _ _) as [[[tau tau_] t']|];
         [|discriminate]);
    destruct (front _ _ _ _ _ _ _) as [[y hh']|] eqn:E; try discriminate;
    intros Q; injection Q as <- _ _ _ _ _;
    exact (F _ _ _ _ _ E).
Qed.

(** One row per candidate state. *)
Lemma candidate_distances_length (kw : kwargs) (std_u : float)
      (distu distu_ dists dists_ : arr) :
  length (fst (fst (candidate_distances kw std_u distu distu_ dists dists_)))
  = if kw_fit_steady_states kw then 4%nat else 2%nat.
Proof.
  unfold candidate_distances.
  destruct (kw_var_scale kw), (kw_fit_steady_states kw),
           (kw_connectivities kw); reflexivity.
Qed.

(** Without the increment constraint the shared stage only reads. *)
Lemma front_reads_only (np_exp : float -> float) (kw : kwargs)
      (u0_ s0_ : float) (r r_ : ref) (h h1 : heap) x :
  kw_constraint_time_increments kw = false ->
  front np_exp kw u0_ s0_ r r_ h = Some (x, h1) -> h1 = h.
Proof.
  intros C. unfold front, bind, read, ret. rewrite C.
  destruct (nth_error h r) as [a|]; [|discriminate].
  destruct (nth_error h r_) as [a_|]; [|discriminate].
  destruct (residuals _ _ _ _ _ _ _) as [[[[distu distu_] dists] dists_] m].
  destruct (candidate_distances _ _ _ _ _ _) as [[res' varu'] vars'].
  intros E. now injection E as _ <-.
Qed.

Lemma reads_only_ret {A : Type} (a : A) : reads_only (ret a).
Proof. intros h a' h' E. now injection E as _ <-. Qed.

Lemma reads_only_lift {A : Type} (o : option A) : reads_only (lift o).
Proof.
  intros h a h'. unfold lift. destruct o; [|discriminate].
  intros E. now injection E as _ <-.
Qed.

Lemma reads_only_read (r : ref) : reads_only (read r).
Proof.
  intros h a h'. unfold read. destruct (nth_error h r); [|discriminate].
  intros E. now injection E as _ <-.
Qed.

Lemma reads_only_bind {A B : Type} (m : M A) (f : A -> M B) :
  reads_only m -> (forall a, reads_only (f a)) -> reads_only (bind m f).
Proof.
  intros Hm Hf h b h'. unfold bind.
  destruct (m h) as [[a h1]|] eqn:E; [|discriminate].
  intros F. apply Hf in F. apply Hm in E. congruence.
Qed.

Ltac reads_only :=
  repeat first [ apply reads_only_ret | apply reads_only_lift
               | apply reads_only_read
               | apply reads_only_bind; [| intros ?]
               | match goal with
                 | |- reads_only (if ?c then _ else _) => destruct c
                 end ].

(** Every mode but 'assign_timepoints' only reads in the dispatch. *)
Lemma dispatch_reads_only (np_exp np_log : float -> float) (kw : kwargs)
      (mode : mode_t) (rtau rtau_ : ref) (t_ : option float)
      (res : list arr) (varu vars : float) (ut st ut_ st_ : arr)
      (h h' : heap) (r : result) :
  mode <> AssignTimepoints ->
  dispatch np_exp np_log kw mode rtau rtau_ t_ res varu vars ut st ut_ st_ h
  = Some (r, h') -> h' = h.
Proof.
  intros N. revert h r h'.
  change (reads_only (dispatch np_exp np_log kw mode rtau rtau_ t_ res
                               varu vars ut st ut_ st_)).
  destruct mode; try congruence; unfold dispatch; cbv zeta; reads_only.
Qed.

(** X8.  With [constraint_time_increments] off, a call in any mode but
    'assign_timepoints' leaves every array of the caller as it was: the
    supplied [tau] and [tau_] are only read. *)
Theorem divergence_without_constraint_only_reads
        (np_exp np_log : float -> float) (kw : kwargs) (mode : mode_t)
        (h h' : heap) (r : result) :
  kw_constraint_time_increments kw = false ->
  mode <> AssignTimepoints ->
  compute_divergence np_exp np_log kw mode h = Some (r, h') ->
  h' = h.
Proof.
  intros C N. rewrite compute_divergence_stages.
  destruct (shared_stage np_exp np_log kw h)
    as [[[[[[[[[res varu] vars] [[[ut st] ut_] st_]] rtau] rtau_] t_] h1] own]|]
         eqn:S; [|discriminate].
  destruct (dispatch _ _ _ _ _ _ _ _ _ _ _ _ _ _ _) as [[r2 h2]|] eqn:D;
    [|discriminate].
  intros Q. injection Q as _ <-.
  destruct own; [reflexivity|].
  apply (dispatch_reads_only _ _ _ _ _ _ _ _ _ _ _ _ _ _ _ _ _ N) in D.
  subst h2. revert S. unfold shared_stage, obind.
  destruct (anchor np_exp kw) as [[u0_ s0_]|]; [|discriminate].
  destruct (kw_tau kw) as [q|], (kw_tau_ kw) as [q_|], (kw_t_ kw) as [t|];
    try (destruct (assign_tau _ _ _ _ _ _ _ _ _ _ _) as [[[tau tau_] t']|];
         [|discriminate]);
    destruct (front _ _ _ _ _ _ _) as [[y hh']|] eqn:E; try discriminate;
    intros Q; try discriminate; injection Q as _ _ _ _ <-.
  exact (front_reads_only _ _ _ _ _ _ _ _ _ C E).
Qed.

Lemma divergence_without_constraint_only_reads_witness :
  exists r h',
    compute_divergence exp64 log64 kw_loose Tau heap_jump = Some (r, h')
    /\ r = RTau [2000; 3000; 10000] [5; 5; 5] /\ h' = heap_jump.
Proof.
  exists (RTau [2000; 3000; 10000] [5; 5; 5]), heap_jump.
  split; [reflexivity|]. split; [reflexivity|].
  exact (divergence_without_constraint_only_reads
           exp64 log64 kw_loose Tau heap_jump heap_jump
           (RTau [2000; 3000; 10000] [5; 5; 5])
           eq_refl ltac:(discriminate) eq_refl).
Defined.

(** ** The candidate states *)

Lemma argmin_from_lt (l : arr) (mp : float) (best i : nat) :
  (best < i)%nat -> (NP.argmin_from mp best i l < i + length l)%nat.
Proof.
  revert mp best i. induction l as [|x l IH]; intros mp best i H; simpl.
  - lia.
  - destruct (is_nan mp); [lia|].
    destruct (negb (mp <=? x)).
    + specialize (IH x i (S i)). lia.
    + specialize (IH mp best (S i)). lia.
Qed.

Lemma argmin_lt_length (l : arr) : l <> [] -> (NP.argmin l < length l)%nat.
Proof.
  destruct l as [|x r]; [congruence|]. intros _. simpl.
  apply (argmin_from_lt r x 0 1). lia.
Qed.

Lemma argmin_axis0_lt (res : list arr) :
  res <> [] -> Forall (fun k => (k < length res)%nat) (NP.argmin_axis0 res).
Proof.
  intros N. unfold NP.argmin_axis0, NP.transpose. rewrite map_map.
  apply Forall_forall. intros k Hk. apply in_map_iff in Hk.
  destruct Hk as (i & <- & _).
  replace (length res) with (length (NP.column res i))
    by (unfold NP.column; apply length_map).
  apply argmin_lt_length. unfold NP.column. now destruct res.
Qed.

Lemma length_normalize (X : list arr) : length (normalize X) = length X.
Proof. unfold normalize. apply length_map. Qed.

Lemma length_likelihood_of (np_exp : float -> float) (varu vars : float)
      (res : list arr) :
  length (likelihood_of np_exp varu vars res) = length res.
Proof. unfold likelihood_of. apply length_map. Qed.

(** X9.  In mode 'hard_state' every cell is given the index of a
    candidate state: 0..3, and 0..1 when the steady states are not
    fitted. *)
Theorem hard_state_selects_a_candidate_state
        (np_exp np_log : float -> float) (kw : kwargs) (h h' : heap)
        (o : list nat) :
  compute_divergence np_exp np_log kw HardState h = Some (RState o, h') ->
  Forall (fun k => (k < if kw_fit_steady_states kw then 4 else 2)%nat) o.
Proof.
  rewrite compute_divergence_stages.
  destruct (shared_stage np_exp np_log kw h)
    as [[[[[[x rtau] rtau_] t_] h1] own]|] eqn:S; [|discriminate].
  destruct (shared_stage_candidates _ _ _ _ _ _ _ _ _ _ S)
    as (distu & distu_ & dists & dists_ & X).
  pose proof (candidate_distances_length kw (kw_std_u kw / kw_scaling kw)
                distu distu_ dists dists_) as L.
  rewrite <- X in L.
  destruct x as [[[res varu] vars] [[[ut st] ut_] st_]].
  cbn [fst] in L. cbn [dispatch ret]. intros Q. injection Q as <- _.
  rewrite <- L. apply argmin_axis0_lt.
  intros ->. destruct (kw_fit_steady_states kw); discriminate.
Qed.

Lemma hard_state_selects_a_candidate_state_witness :
  Forall (fun k => (k < if kw_fit_steady_states kw_steady then 4 else 2)%nat)
         [3; 2; 0]%nat
  /\ Forall (fun k => (k < if kw_fit_steady_states kw_curves then 4 else 2)%nat)
            [0; 0; 0]%nat.
Proof.
  split.
  - exact (hard_state_selects_a_candidate_state
             exp64 log64 kw_steady heap_steady heap_steady [3; 2; 0]%nat
             eq_refl).
  - exact (hard_state_selects_a_candidate_state
             exp64 log64 kw_curves heap_steady heap_steady [0; 0; 0]%nat
             eq_refl).
Defined.

(** X10.  Mode 'steady_state' reads rows 2 and 3 of the matrix, which
    exist only when the steady states are fitted: with
    [fit_steady_states] off the call raises, whatever the data. *)
Theorem steady_state_mode_needs_steady_states
        (np_exp np_log : float -> float) (kw : kwargs) (h : heap) :
  kw_fit_steady_states kw = false ->
  compute_divergence np_exp np_log kw SteadyState h = None.
Proof.
  intros Fit. rewrite compute_divergence_stages.
  destruct (shared_stage np_exp np_log kw h)
    as [[[[[[x rtau] rtau_] t_] h1] own]|] eqn:S; [|reflexivity].
  destruct (shared_stage_candidates _ _ _ _ _ _ _ _ _ _ S)
    as (distu & distu_ & dists & dists_ & X).
  pose proof (candidate_distances_length kw (kw_std_u kw / kw_scaling kw)
                distu distu_ dists dists_) as L.
  rewrite <- X, Fit in L.
  destruct x as [[[res varu] vars] [[[ut st] ut_] st_]].
  cbn [fst] in L. cbn [dispatch].
  set (lk := likelihood_of np_exp varu vars res).
  set (res' := if kw_normalized kw then normalize lk else lk).
  assert (L' : length res' = 2%nat).
  { unfold res', lk. destruct (kw_normalized kw);
      now rewrite ?length_normalize, length_likelihood_of. }
  assert (R : row res' 2 = None) by (apply nth_error_None; lia).
  unfold bind, lift. now rewrite R.
Qed.

Lemma steady_state_mode_needs_steady_states_witness :
  compute_divergence exp64 log64 kw_curves SteadyState heap_steady = None
  /\ compute_divergence exp64 log64 kw_steady SteadyState heap_steady <> None.
Proof.
  split.
  - exact (steady_state_mode_needs_steady_states
             exp64 log64 kw_curves heap_steady eq_refl).
  - vm_compute. discriminate.
Defined.

(** ** Distances are not negative *)

Lemma sign_clear_not_negative (x : float) :
  F64.sign_clear x -> not_negative x.
Proof. intros H. apply Sign.not_negative_SF. now apply Sign.signed_nn. Qed.

Lemma sign_clear_one : F64.sign_clear 1.
Proof. unfold F64.sign_clear. now rewrite F64.one_SF. Qed.

Lemma sign_clear_add (x y : float) :
  F64.sign_clear x -> F64.sign_clear y -> F64.sign_clear (x + y).
Proof. unfold F64.sign_clear. rewrite add_spec. apply Sign.SFsigned_add. Qed.

Lemma sign_clear_div (x y : float) :
  F64.sign_clear x -> F64.sign_clear y -> F64.sign_clear (x / y).
Proof. unfold F64.sign_clear. rewrite div_spec. apply Sign.SFsigned_div. Qed.

Lemma sign_clear_square (x : float) : F64.sign_clear (x * x).
Proof. unfold F64.sign_clear. rewrite mul_spec. apply Sign.SFsigned_square. Qed.

Lemma sign_clear_of_nat (n : nat) : F64.sign_clear (NP.of_nat n).
Proof.
  unfold F64.sign_clear, NP.of_nat. rewrite of_uint63_spec.
  pose proof (Uint63.to_Z_bounded (Uint63.of_Z (Z.of_nat n))) as B.
  destruct (Uint63Axioms.to_Z _) as [|p|p]; cbn [binary_normalize].
  - reflexivity.
  - apply Sign.round_signed.
  - lia.
Qed.

Lemma sign_clear_fold_add (l : arr) (x : float) :
  F64.sign_clear x -> Forall F64.sign_clear l ->
  F64.sign_clear (fold_left PrimFloat.add l x).
Proof.
  intros Hx Hl. revert x Hx. induction Hl as [|y l Hy Hl IH]; intros x Hx.
  - exact Hx.
  - simpl. apply IH. now apply sign_clear_add.
Qed.

Lemma sign_clear_sum (l : arr) :
  Forall F64.sign_clear l -> F64.sign_clear (NP.sum l).
Proof.
  intros H. destruct H as [|x l Hx Hl]; [reflexivity|].
  now apply sign_clear_fold_add.
Qed.

Lemma sign_clear_nanvar (a : arr) : F64.sign_clear (NP.nanvar a).
Proof.
  unfold NP.nanvar, NP.mean. apply sign_clear_div.
  - apply sign_clear_sum, Forall_forall. intros y Hy.
    apply in_map_iff in Hy. destruct Hy as (x & <- & _).
    apply sign_clear_square.
  - apply sign_clear_of_nat.
Qed.

Lemma Forall_map2 {A B C : Type} (P : C -> Prop) (f : A -> B -> C)
      (l : list A) (l' : list B) :
  (forall a b, P (f a b)) -> Forall P (NP.map2 f l l').
Proof.
  intros H. revert l'. induction l as [|x l IH]; intros [|y l']; simpl;
    constructor; auto.
Qed.

Lemma candidate_distances_sign_clear (kw : kwargs) (std_u : float)
      (distu distu_ dists dists_ : arr) :
  kw_connectivities kw = None ->
  Forall (Forall F64.sign_clear)
         (fst (fst (candidate_distances kw std_u distu distu_ dists dists_))).
Proof.
  intros C. unfold candidate_distances. rewrite C.
  assert (Q : forall varu vars, F64.sign_clear varu -> F64.sign_clear vars ->
              forall x y, F64.sign_clear (x * x / varu + y * y / vars)).
  { intros varu vars Hu Hs x y.
    apply sign_clear_add; apply sign_clear_div;
      auto using sign_clear_square. }
  assert (S : forall x y, F64.sign_clear (x * x + y * y))
    by (intros; apply sign_clear_add; apply sign_clear_square).
  pose proof sign_clear_one as O.
  destruct (kw_var_scale kw), (kw_fit_steady_states kw); cbn [fst];
    repeat constructor; unfold sq_sum; apply Forall_map2; intros;
    solve [ apply S | apply Q; auto using sign_clear_nanvar ].
Qed.

(** X11.  In mode 'distance' (the default) without connectivities, the
    call returns one row per candidate state (4, or 2 when the steady
    states are not fitted) and no entry of the matrix is a negative
    number: each is NaN or at least 0. *)
Theorem distances_are_not_negative
        (np_exp np_log : float -> float) (kw : kwargs) (h h' : heap)
        (res : list arr) :
  kw_connectivities kw = None ->
  compute_divergence np_exp np_log kw Distance h = Some (RMatrix res, h') ->
  length res = (if kw_fit_steady_states kw then 4 else 2)%nat
  /\ Forall (Forall not_negative) res.
Proof.
  intros C. rewrite compute_divergence_stages.
  destruct (shared_stage np_exp np_log kw h)
    as [[[[[[x rtau] rtau_] t_] h1] own]|] eqn:S; [|discriminate].
  destruct (shared_stage_candidates _ _ _ _ _ _ _ _ _ _ S)
    as (distu & distu_ & dists & dists_ & X).
  pose proof (candidate_distances_length kw (kw_std_u kw / kw_scaling kw)
                distu distu_ dists dists_) as L.
  pose proof (candidate_distances_sign_clear kw (kw_std_u kw / kw_scaling kw)
                distu distu_ dists dists_ C) as P.
  rewrite <- X in L, P.
  destruct x as [[[res0 varu] vars] [[[ut st] ut_] st_]].
  cbn [fst] in L, P. cbn [dispatch ret]. intros Q. injection Q as <- _.
  split; [exact L|].
  eapply Forall_impl; [|exact P]. intros r Hr.
  eapply Forall_impl; [|exact Hr]. apply sign_clear_not_negative.
Qed.

Lemma distances_are_not_negative_witness :
  length [[9.25; 3.25; 0]; [20; 20; 3.25]] = 2%nat
  /\ Forall (Forall not_negative) [[9.25; 3.25; 0]; [20; 20; 3.25]].
Proof.
  exact (distances_are_not_negative
           exp64 log64 kw_curves heap_steady heap_steady
           [[9.25; 3.25; 0]; [20; 20; 3.25]] eq_refl eq_refl).
Defined.

(** ** Time increments *)

Lemma not_negative_nan : not_negative nan.
Proof. now left. Qed.

Lemma not_negative_nth (l : arr) (i : nat) :
  Forall not_negative l -> not_negative (nth i l nan).
Proof.
  intros H. revert i. induction H as [|x l Hx Hl IH]; intros [|i]; simpl;
    auto using not_negative_nan.
Qed.

Lemma clip_floor_not_negative (m : float) :
  not_negative (NP.clip m (Some 0) None).
Proof.
  unfold NP.clip, NP.maximum.
  destruct (0 <=? m) eqn:E; cbn [orb].
  - now right.
  - destruct (is_nan m) eqn:N; [now left | now right].
Qed.

Lemma clip_not_negative (d ub : float) :
  not_negative ub -> not_negative (NP.clip d (Some 0) (Some ub)).
Proof.
  intros Hub. unfold NP.clip, NP.minimum.
  pose proof (clip_floor_not_negative d) as Hy. unfold NP.clip in Hy.
  destruct ((NP.maximum d 0 <=? ub) || is_nan (NP.maximum d 0)); assumption.
Qed.

Lemma poisson_bound_not_negative (m : float) :
  not_negative m -> not_negative (m + 3 * sqrt m).
Proof.
  intros H. apply Sign.not_negative_add; [assumption|].
  apply Sign.not_negative_mul; [now right|].
  now apply Sign.not_negative_sqrt.
Qed.

Lemma compute_dt_col_not_negative (col dt : arr) :
  compute_dt_col col true = Some dt -> Forall not_negative dt.
Proof.
  unfold compute_dt_col.
  destruct (NP.min col) as [lo|]; [|discriminate].
  destruct (NP.max col) as [hi|]; [|discriminate].
  cbn [obind NP.max fold_left]. intros H. injection H as <-.
  apply Forall_forall. intros y Hy. apply in_map_iff in Hy.
  destruct Hy as (d & <- & _).
  apply clip_not_negative, poisson_bound_not_negative,
    clip_floor_not_negative.
Qed.

(** X12.  With clipping, [compute_dt] returns no negative increment:
    every entry is at least 0, or NaN where the times are not numbers. *)
Theorem compute_dt_increments_not_negative (t dt : list arr) :
  compute_dt t true = Some dt ->
  forall i j, not_negative (nth j (nth i dt []) nan).
Proof.
  intros H i j. unfold compute_dt in H.
  destruct t as [|r0 t0]; [discriminate|]. set (t := r0 :: t0) in *.
  destruct (mapM (fun c => compute_dt_col c true) (NP.transpose t))
    as [cols|] eqn:E; [|discriminate].
  simpl in H. injection H as <-.
  destruct (entry_of_transpose cols i j) as [-> | [Hj ->]].
  - apply not_negative_nan.
  - apply not_negative_nth.
    pose proof (mapM_nth _ _ _ E j [] [] Hj) as Hc.
    exact (compute_dt_col_not_negative _ _ Hc).
Qed.

Lemma compute_dt_increments_not_negative_witness :
  not_negative (nth 0 (nth 0 [[0]; [3]; [3]; [3]] []) nan)
  /\ not_negative (nth 0 (nth 3 [[0]; [3]; [3]; [3]] []) nan).
Proof.
  pose proof (compute_dt_increments_not_negative
                [[7]; [1]; [4]; [-2]] [[0]; [3]; [3]; [3]] eq_refl) as H.
  exact (conj (H 0%nat 0%nat) (H 3%nat 0%nat)).
Defined.

(** *** [adjust_increments] *)

Lemma length_adjust_fold (tau : arr) (tau_ord dtau : arr) (idx : list nat)
      (tau_new : arr) :
  length tau_new = length tau ->
  length
    (fold_left
       (fun tau_new i =>
          let ti := nth i tau_ord nan in
          let dti := nth i dtau nan in
          NP.map2 (fun t tn => if ti <=? t then tn - dti else tn)
                  tau tau_new)
       idx tau_new)
  = length tau.
Proof.
  revert tau_new. induction idx as [|i idx IH]; intros tau_new L; simpl.
  - exact L.
  - apply IH. rewrite length_map2, L. apply Nat.min_id.
Qed.

Lemma adjust_increments_some (tau : arr) :
  tau <> [] ->
  exists r, adjust_increments tau = Some r /\ length r = length tau.
Proof.
  intros N. unfold adjust_increments.
  destruct (max_some tau N) as [m ->]. cbn [obind NP.max].
  eexists. split; [reflexivity|].
  apply length_adjust_fold, length_map.
Qed.

(** X13.  [adjust_increments] raises exactly on an empty array (where
    [np.max] has nothing to reduce), and otherwise returns one adjusted
    time per input time. *)
Theorem adjust_increments_defined_on_nonempty (tau : arr) :
  (adjust_increments tau = None <-> tau = [])
  /\ (forall r, adjust_increments tau = Some r -> length r = length tau).
Proof.
  destruct tau as [|x tau].
  - split; [split; reflexivity | discriminate].
  - destruct (adjust_increments_some (x :: tau)) as (r & E & L);
      [discriminate|].
    rewrite E. split.
    + split; discriminate.
    + intros r' Q. now injection Q as <-.
Qed.

(** ** Calls with supplied arrays do not raise *)

Lemma select_nonempty (mask : list bool) (a : arr) :
  NP.any mask = true -> (length mask <= length a)%nat ->
  NP.select mask a <> [].
Proof.
  revert a. induction mask as [|b m IH]; intros a H L; [discriminate|].
  destruct a as [|x a]; [simpl in L; lia|].
  simpl in *. destruct b; [discriminate|].
  apply IH; [assumption | lia].
Qed.

Lemma length_scatter (mask : list bool) (vals a : arr) :
  length (NP.scatter mask vals a) = length a.
Proof.
  revert vals a. induction mask as [|b m IH]; intros vals a; [reflexivity|].
  destruct a as [|x a]; [reflexivity|].
  simpl. destruct b; [destruct vals|]; simpl; now rewrite IH.
Qed.

Lemma adjust_masked_some (mask : list bool) (a : arr) :
  (length mask <= length a)%nat ->
  exists a', adjust_masked mask a = Some a' /\ length a' = length a.
Proof.
  intros L. unfold adjust_masked. destruct (NP.any mask) eqn:E.
  - destruct (adjust_increments_some (NP.select mask a)) as (adj & -> & _).
    + now apply select_nonempty.
    + cbn [obind]. eexists. split; [reflexivity | apply length_scatter].
  - now exists a.
Qed.

Lemma length_argmin_axis0 (res : list arr) :
  length (NP.argmin_axis0 res) = NP.ncols res.
Proof. unfold NP.argmin_axis0. now rewrite length_map, length_transpose. Qed.

Lemma length_residuals (np_exp : float -> float) (kw : kwargs)
      (std_u u0_ s0_ : float) (tau tau_ : arr) (n : nat) :
  length (kw_u kw) = n -> length (kw_s kw) = n ->
  length tau = n -> length tau_ = n ->
  let '((distu, distu_, dists, dists_), _) :=
    residuals np_exp kw std_u u0_ s0_ tau tau_ in
  length distu = n /\ length distu_ = n /\ length dists = n
  /\ length dists_ = n.
Proof.
  intros Lu Ls Lt Lt_. unfold residuals, mRNA_arr.
  rewrite !length_map2, !length_map, Lu, Ls, Lt, Lt_, !Nat.min_id. auto.
Qed.

Lemma length_nearer_branch (np_exp : float -> float) (kw : kwargs)
      (std_u u0_ s0_ : float) (tau tau_ : arr) (n : nat) :
  length (kw_u kw) = n -> length (kw_s kw) = n ->
  length tau = n -> length tau_ = n ->
  length (nearer_branch np_exp kw std_u u0_ s0_ tau tau_) = n.
Proof.
  intros Lu Ls Lt Lt_. unfold nearer_branch.
  pose proof (length_residuals np_exp kw std_u u0_ s0_ tau tau_ n
                Lu Ls Lt Lt_) as R.
  destruct (residuals _ _ _ _ _ _ _) as [[[[distu distu_] dists] dists_] m].
  destruct R as (_ & R1 & _ & R2).
  rewrite length_argmin_axis0. cbn [NP.ncols]. unfold sq_sum.
  now rewrite length_map2, R1, R2, Nat.min_id.
Qed.

Lemma ncols_candidate_distances (kw : kwargs) (std_u : float)
      (distu distu_ dists dists_ : arr) (n : nat) :
  kw_connectivities kw = None ->
  length distu_ = n -> length dists_ = n ->
  NP.ncols (fst (fst (candidate_distances kw std_u distu distu_ dists dists_)))
  = n.
Proof.
  intros C L1 L2. unfold candidate_distances. rewrite C.
  destruct (kw_var_scale kw), (kw_fit_steady_states kw); cbn [fst NP.ncols];
    unfold sq_sum; now rewrite length_map2, L1, L2, Nat.min_id.
Qed.

Lemma ncols_distances_of (np_exp : float -> float) (kw : kwargs)
      (u0_ s0_ : float) (tau tau_ : arr) (n : nat) :
  kw_connectivities kw = None ->
  length (kw_u kw) = n -> length (kw_s kw) = n ->
  length tau = n -> length tau_ = n ->
  NP.ncols (fst (fst (fst (distances_of np_exp kw u0_ s0_ tau tau_)))) = n.
Proof.
  intros C Lu Ls Lt Lt_. unfold distances_of.
  pose proof (length_residuals np_exp kw (kw_std_u kw / kw_scaling kw)
                u0_ s0_ tau tau_ n Lu Ls Lt Lt_) as R.
  destruct (residuals _ _ _ _ _ _ _) as [[[[distu distu_] dists] dists_] m].
  destruct R as (_ & R1 & _ & R2).
  pose proof (ncols_candidate_distances kw (kw_std_u kw / kw_scaling kw)
                distu distu_ dists dists_ n C R1 R2) as N.
  destruct (candidate_distances _ _ _ _ _ _) as [[res varu] vars].
  exact N.
Qed.

Lemma length_collapse (o : list nat) : length (collapse o) = length o.
Proof. unfold collapse. now rewrite !length_map. Qed.

Lemma length_mask_eq (k : nat) (o : list nat) :
  length (mask_eq k o) = length o.
Proof. apply length_map. Qed.

(** X14.  With [tau], [tau_] (two distinct arrays) and [t_] supplied,
    one entry per cell in each array and in [u] and [s], and no
    connectivities, a call does not raise, whatever the observations and
    times (NaN included): the increment adjustment is guarded by
    [np.any], so [adjust_increments] never sees an empty selection. Mode
    'distance' returns its matrix, and [assign_timepoints] returns one
    time, one [tau] and one branch per cell. The scaling and the rates
    are non-zero and the rates distinct, so that no scalar is divided by
    zero (float64 would not raise there either, and the proof does not
    use it; a Python scalar would). *)
Theorem supplied_arrays_never_raise
        (np_exp np_log : float -> float) (kw : kwargs) (r r_ : ref)
        (t_ : float) (h : heap) (a0 a0_ : arr) :
  kw_tau kw = Some r -> kw_tau_ kw = Some r_ -> kw_t_ kw = Some t_ ->
  r <> r_ -> nth_error h r = Some a0 -> nth_error h r_ = Some a0_ ->
  kw_connectivities kw = None ->
  length (kw_s kw) = length (kw_u kw) ->
  length a0 = length (kw_u kw) -> length a0_ = length (kw_u kw) ->
  (kw_scaling kw =? 0) = false ->
  (kw_beta kw =? 0) = false -> (kw_gamma kw =? 0) = false ->
  (kw_gamma kw - kw_beta kw =? 0) = false ->
  (exists res h1,
      compute_divergence np_exp np_log kw Distance h = Some (RMatrix res, h1)
      /\ NP.ncols res = length (kw_u kw))
  /\ (exists t tau o h2,
         assign_timepoints np_exp np_log kw h = Some (RAssign t tau o, h2)
         /\ length t = length (kw_u kw)
         /\ length tau = length (kw_u kw)
         /\ length o = length (kw_u kw)).
Proof.
  intros Kt Kt_ Kt' D Ha Ha_ C Ls La La_ _ _ _ _.
  set (n := length (kw_u kw)) in *.
  unfold assign_timepoints, compute_divergence, obind.
  assert (A : exists u0_ s0_, anchor np_exp kw = Some (u0_, s0_)).
  { unfold anchor. rewrite Kt'. cbn [obind].
    destruct (kw_u0_ kw), (kw_s0_ kw); eexists; eexists;
      try reflexivity; apply surjective_pairing. }
  destruct A as (u0_ & s0_ & ->). rewrite Kt, Kt_, Kt'.
  unfold divergence_body, bind.
  rewrite (front_spec _ _ _ _ _ _ _ _ _ D Ha Ha_).
  set (o0 := nearer_branch np_exp kw (kw_std_u kw / kw_scaling kw) u0_ s0_
                           a0 a0_).
  assert (Lo : length o0 = n)
    by (apply length_nearer_branch; auto).
  assert (X : exists a a_,
             (if kw_constraint_time_increments kw
              then adjust_masked (map (Nat.eqb 1) o0) a0 else Some a0) = Some a
             /\ (if kw_constraint_time_increments kw
                 then adjust_masked (map (Nat.eqb 0) o0) a0_ else Some a0_)
                = Some a_
             /\ length a = n /\ length a_ = n).
  { destruct (kw_constraint_time_increments kw).
    - destruct (adjust_masked_some (map (Nat.eqb 1) o0) a0) as (a & -> & L);
        [rewrite length_map; lia|].
      destruct (adjust_masked_some (map (Nat.eqb 0) o0) a0_) as (a_ & -> & L_);
        [rewrite length_map; lia|].
      exists a, a_. repeat split; congruence.
    - exists a0, a0_. auto. }
  destruct X as (a & a_ & -> & -> & L & L_).
  pose proof (ncols_distances_of np_exp kw u0_ s0_ a a_ n C eq_refl Ls L L_)
    as N.
  destruct (distances_of np_exp kw u0_ s0_ a a_)
    as [[[res varu] vars] [[[ut st] ut_] st_]].
  cbn [fst] in N.
  destruct (contents_after_updates r r_ a a_ a0 a0_ h D Ha Ha_) as [H1 H2].
  split.
  - exists res, (update r_ a_ (update r a h)). split; [reflexivity | exact N].
  - rewrite (dispatch_assign_timepoints _ _ _ _ _ _ _ _ _ _ _ _ _ _ _ _
               D H1 H2).
    do 4 eexists. split; [reflexivity|].
    rewrite !length_map2, !length_times, !length_map, !length_times,
      !length_mask_eq, !length_collapse, !length_argmin_axis0, N, L, L_,
      !Nat.min_id.
    auto.
Qed.

Lemma supplied_arrays_never_raise_witness :
  (exists res h1,
      compute_divergence exp64 log64 kw_jump Distance heap_jump
      = Some (RMatrix res, h1)
      /\ NP.ncols res = 3%nat)
  /\ (exists t tau o h2,
         assign_timepoints exp64 log64 kw_jump heap_jump
         = Some (RAssign t tau o, h2)
         /\ length t = 3%nat /\ length tau = 3%nat /\ length o = 3%nat).
Proof.
  exact (supplied_arrays_never_raise
           exp64 log64 kw_jump 0%nat 1%nat 3 heap_jump
           [2000; 3000; 10000] [5; 5; 5]
           eq_refl eq_refl eq_refl ltac:(discriminate) eq_refl eq_refl
           eq_refl eq_refl eq_refl eq_refl
           eq_refl eq_refl eq_refl eq_refl).
Defined.

(** ** Assigned times *)

Lemma clip_nan (x : float) (lo hi : option float) :
  is_nan x = true -> NP.clip x lo hi = x.
Proof.
  intros N. unfold NP.clip, NP.maximum, NP.minimum.
  destruct lo as [l|], hi as [h|]; rewrite ?N, ?orb_true_r; try reflexivity.
  now rewrite N, orb_true_r.
Qed.

Lemma length_tau_inv (np_log : float -> float) (u : arr) (s : option arr)
      (u0 : arr) (s0 : option arr) (alpha beta : arr) (gamma : option arr)
      (r : arr) :
  length beta = length u ->
  (forall g, gamma = Some g -> length g = length u) ->
  tau_inv np_log u s u0 s0 alpha beta gamma = Some r ->
  length r = length u.
Proof.
  intros Lb Lg. unfold tau_inv.
  set (inv_u := match gamma with
                | Some g => NP.map2 (fun g b => b <=? g) g beta
                | None => repeat true (length u)
                end).
  assert (Li : length inv_u = length u).
  { unfold inv_u. destruct gamma as [g|].
    - rewrite length_map2, (Lg g eq_refl), Lb. apply Nat.min_id.
    - apply repeat_length. }
  destruct (NP.any (map negb inv_u) && negb (is_none s)).
  - destruct s as [s|], s0 as [s0|], gamma as [g|]; try discriminate.
    destruct (NP.any inv_u || is_none (Some s)); intros Q; injection Q as <-.
    + now rewrite !length_map2, !length_map, length_seq, Li, !Nat.min_id.
    + now rewrite length_map, length_seq.
  - destruct (NP.any inv_u || is_none s); [|discriminate].
    intros Q; injection Q as <-. now rewrite length_map, length_seq.
Qed.

(** X15.  Outside the projection mode, [assign_tau] with a switching
    time [t_ >= 0] returns induction times within [0, t_] (NaN apart:
    the clip keeps a NaN), and one time per cell in both arrays. *)
Theorem assign_tau_induction_times_within_bounds
        (np_exp np_log : float -> float) (u s : arr)
        (alpha beta gamma te u0_ s0_ : float) (projection : bool)
        (tau tau_ : arr) (t' : option float) :
  (projection && (beta <? gamma)) = false ->
  (0 <=? te) = true ->
  assign_tau np_exp np_log u s alpha beta gamma (Some te) u0_ s0_ projection
  = Some (tau, tau_, t') ->
  t' = Some te
  /\ length tau = length u /\ length tau_ = length u
  /\ Forall (fun x => is_nan x = true
                      \/ ((0 <=? x) = true /\ (x <=? te) = true)) tau.
Proof.
  intros P T. unfold assign_tau. rewrite P. unfold obind.
  destruct (tau_inv np_log u (Some s) (repeat 0 (length u)) _ _ _ _)
    as [raw|] eqn:E; [|discriminate].
  destruct (tau_inv np_log u (Some s) (repeat u0_ (length u)) _ _ _ _)
    as [raw_|] eqn:E_; [|discriminate].
  destruct (NP.max _) as [tau_max|]; [|discriminate].
  intros Q. injection Q as <- <- <-.
  apply length_tau_inv in E;
    [| apply repeat_length
     | intros g G; injection G as <-; apply repeat_length ].
  apply length_tau_inv in E_;
    [| apply repeat_length
     | intros g G; injection G as <-; apply repeat_length ].
  rewrite !length_map. repeat split; try assumption.
  apply Forall_forall. intros y Hy. apply in_map_iff in Hy.
  destruct Hy as (x & <- & _). cbv beta.
  destruct (is_nan x) eqn:N.
  - left. change (is_nan (NP.clip x (Some 0) (Some te)) = true).
    now rewrite clip_nan.
  - right. exact (clip_between x 0 te N T).
Qed.

Lemma assign_tau_induction_times_within_bounds_witness :
  exists tau tau_,
    assign_tau exp64 log64 [1; 0.5; 1.5] [1; 0.25; 2] 2 1 0.5 (Some 3)
               1.5 1 false
    = Some (tau, tau_, Some 3)
    /\ length tau = 3%nat
    /\ Forall (fun x => is_nan x = true
                        \/ ((0 <=? x) = true /\ (x <=? 3) = true)) tau.
Proof.
  destruct (assign_tau exp64 log64 [1; 0.5; 1.5] [1; 0.25; 2] 2 1 0.5
                       (Some 3) 1.5 1 false)
    as [[[tau tau_] t']|] eqn:E.
  - destruct (assign_tau_induction_times_within_bounds
                exp64 log64 [1; 0.5; 1.5] [1; 0.25; 2] 2 1 0.5 3 1.5 1 false
                tau tau_ t' eq_refl eq_refl E) as (-> & L & _ & F).
    exists tau, tau_. split; [reflexivity|]. split; [exact L | exact F].
  - vm_compute in E. discriminate.
Defined.

(** ** Inverted times are not negative *)

Lemma SFnn_mul_negatives (a l : spec_float) :
  F64.SFsigned true a = true -> F64.SFnn (SFopp l) = true ->
  F64.SFnn (SFmul prec emax a l) = true.
Proof.
  destruct a as [sa|sa| |sa ma ea], l as [sl|sl| |sl ml el]; simpl;
    intros Ha Hl; try reflexivity;
    try (destruct sa, sl; simpl in *; congruence).
  destruct sa, sl; try discriminate. apply Sign.signed_nn, Sign.round_aux_signed.
Qed.

Lemma not_positive_SF (l : float) :
  is_nan l = true \/ (l <=? 0) = true -> F64.SFnn (SFopp (Prim2SF l)) = true.
Proof.
  rewrite F64.is_nan_SF, leb_spec.
  change (Prim2SF 0) with (S754_zero false). unfold SFleb.
  destruct (Prim2SF l) as [s|s| |s m e]; simpl; try reflexivity.
  - destruct s; simpl; auto; intros [H|H]; discriminate.
  - destruct s; simpl; auto; intros [H|H]; discriminate.
Qed.

Lemma neg_reciprocal_signed (b : float) :
  (0 <? b) = true -> F64.SFsigned true (Prim2SF (- 1 / b)) = true.
Proof.
  rewrite ltb_spec, div_spec.
  change (Prim2SF 0) with (S754_zero false).
  change (Prim2SF (- 1)) with (S754_finite true 4503599627370496 (-52)).
  unfold SFltb.
  destruct (Prim2SF b) as [s|s| |s m e]; simpl; try discriminate.
  - destruct s; [discriminate | reflexivity].
  - destruct s; [discriminate|]. intros _.
    destruct (SFdiv_core_binary _ _ _ _ _ _) as [[mz ez] lz].
    apply Sign.round_aux_signed.
Qed.

Lemma not_negative_of_bool (b : bool) : not_negative (NP.of_bool b).
Proof. right. now destruct b. Qed.

Lemma Forall2_map2 {A B C : Type} (P : A -> Prop) (Q : B -> Prop)
      (R : C -> Prop) (f : A -> B -> C) (l : list A) (l' : list B) :
  (forall a b, P a -> Q b -> R (f a b)) ->
  Forall P l -> Forall Q l' -> Forall R (NP.map2 f l l').
Proof.
  intros H Hl. revert l'. induction Hl as [|x l Hx Hl IH];
    intros l' Hl'; destruct Hl' as [|y l' Hy Hl']; simpl; constructor; auto.
Qed.

Lemma Forall_map_seq {A : Type} (P : A -> Prop) (g : nat -> A) (n : nat) :
  (forall i, (i < n)%nat -> P (g i)) -> Forall P (map g (seq 0 n)).
Proof.
  intros H. apply Forall_forall. intros y Hy. apply in_map_iff in Hy.
  destruct Hy as (i & <- & Hi). apply in_seq in Hi. apply H. lia.
Qed.

Lemma Forall_true {A : Type} (l : list A) : Forall (fun _ => True) l.
Proof. induction l; constructor; auto. Qed.

Section LogSign.

(** numpy's [log] is not positive up to 1, and maps NaN to NaN. *)
Variable np_log : float -> float.
Hypothesis np_log_sign :
  forall x, is_nan x = true \/ (x <=? 1) = true ->
            is_nan (np_log x) = true \/ (np_log x <=? 0) = true.

Lemma log_not_positive (x : float) :
  is_nan (log np_log x eps_default) = true
  \/ (log np_log x eps_default <=? 0) = true.
Proof.
  unfold log. apply np_log_sign.
  destruct (is_nan x) eqn:N.
  - left. now rewrite clip_nan.
  - right. apply F64.ltb_leb, below_one_minus_eps.
    exact (proj2 (clip_between x eps_default (1 - eps_default) N eq_refl)).
Qed.

Lemma scaled_log_not_negative (rate x : float) :
  (0 <? rate) = true ->
  not_negative (- 1 / rate * log np_log x eps_default).
Proof.
  intros R. apply Sign.not_negative_SF. rewrite mul_spec.
  apply SFnn_mul_negatives.
  - now apply neg_reciprocal_signed.
  - apply not_positive_SF, log_not_positive.
Qed.

(** X16.  For positive rates [tau_inv] returns no negative time: every
    entry is at least 0, or NaN.  It takes of numpy's [log] that it is
    not positive up to 1 (the section's hypothesis): the argument of the
    logarithm is clamped below 1, and the logarithm is scaled by
    [-1 / beta] (or [-1 / gamma]). *)
Theorem tau_inv_times_not_negative
        (u : arr) (s : option arr) (u0 : arr) (s0 : option arr)
        (alpha beta : arr) (gamma : option arr) (r : arr) :
  (forall i, (i < length u)%nat -> (0 <? nth i beta nan) = true) ->
  (forall g, gamma = Some g ->
             forall i, (i < length u)%nat -> (0 <? nth i g nan) = true) ->
  tau_inv np_log u s u0 s0 alpha beta gamma = Some r ->
  Forall not_negative r.
Proof.
  intros Hb Hg. unfold tau_inv.
  set (inv_u := match gamma with
                | Some g => NP.map2 (fun g b => b <=? g) g beta
                | None => repeat true (length u)
                end).
  assert (U : Forall not_negative
                (map (fun i => tau_inv_u np_log (nth i u nan) (nth i u0 nan)
                                         (nth i alpha nan) (nth i beta nan))
                     (seq 0 (length u)))).
  { apply Forall_map_seq. intros i Hi. unfold tau_inv_u.
    apply scaled_log_not_negative. now apply Hb. }
  assert (B : forall (t : arr) (m : list bool),
             Forall not_negative t ->
             Forall not_negative
                    (NP.map2 (fun t b => t * NP.of_bool b) t m)).
  { intros t m Ht.
    apply (Forall2_map2 not_negative (fun _ => True) not_negative);
      [| assumption | apply Forall_true].
    intros a b Ha _. apply Sign.not_negative_mul;
      [assumption | apply not_negative_of_bool]. }
  destruct (NP.any (map negb inv_u) && negb (is_none s)).
  - destruct s as [s|], s0 as [s0|], gamma as [g|]; try discriminate.
    assert (V : Forall not_negative
                  (map (fun i => tau_inv_us np_log (nth i u nan) (nth i s nan)
                                   (nth i u0 nan) (nth i s0 nan)
                                   (nth i alpha nan) (nth i beta nan)
                                   (nth i g nan))
                       (seq 0 (length u)))).
    { apply Forall_map_seq. intros i Hi. unfold tau_inv_us.
      apply scaled_log_not_negative. now apply (Hg g eq_refl). }
    destruct (NP.any inv_u || is_none (Some s)); intros Q; injection Q as <-.
    + apply (Forall2_map2 not_negative not_negative not_negative);
        [| now apply B | now apply B].
      intros a b. apply Sign.not_negative_add.
    + exact V.
  - destruct (NP.any inv_u || is_none s); [|discriminate].
    intros Q; injection Q as <-. exact U.
Qed.

End LogSign.

Lemma log_sign_not_positive (x : float) :
  is_nan x = true \/ (x <=? 1) = true ->
  is_nan (log_sign x) = true \/ (log_sign x <=? 0) = true.
Proof.
  unfold log_sign. intros [N | L].
  - rewrite N. now left.
  - destruct (is_nan x) eqn:N; [now left|]. rewrite L. now right.
Qed.

(** Two cells, one in each regime of [tau_inv]. *)
Lemma tau_inv_times_not_negative_witness :
  tau_inv log_sign [0.5; 1] (Some [0.25; 3]) [0; 0] (Some [0; 0]) [2; 2]
          [1; 0.5] (Some [0.5; 1]) = Some [2; 2]
  /\ Forall not_negative [2; 2].
Proof.
  split; [reflexivity|].
  apply (tau_inv_times_not_negative log_sign log_sign_not_positive
           [0.5; 1] (Some [0.25; 3]) [0; 0] (Some [0; 0]) [2; 2]
           [1; 0.5] (Some [0.5; 1]) [2; 2]).
  - intros [|[|i]] Hi; [reflexivity | reflexivity | simpl in Hi; lia].
  - intros g G. injection G as <-.
    intros [|[|i]] Hi; [reflexivity | reflexivity | simpl in Hi; lia].
  - reflexivity.
Defined.

(** ** Branch labels and required arguments *)

Lemma dispatch_assign_labels (np_exp np_log : float -> float) (kw : kwargs)
      (rtau rtau_ : ref) (t_ : option float) (res : list arr)
      (varu vars : float) (ut st ut_ st_ : arr) (h h' : heap)
      (t tau : arr) (o : list nat) :
  dispatch np_exp np_log kw AssignTimepoints rtau rtau_ t_ res varu vars
           ut st ut_ st_ h = Some (RAssign t tau o, h') ->
  o = collapse (NP.argmin_axis0 res).
Proof.
  unfold dispatch. cbv zeta. unfold bind.
  destruct (read rtau_ h) as [[a_ h1]|]; [|discriminate].
  destruct (write rtau_ _ h1) as [[[] h2]|]; [|discriminate].
  destruct (read rtau h2) as [[a h3]|]; [|discriminate].
  destruct (write rtau _ h3) as [[[] h4]|]; [|discriminate].
  destruct (read rtau h4) as [[b h5]|]; [|discriminate].
  destruct (read rtau_ h5) as [[b_ h6]|]; [|discriminate].
  destruct (lift t_ h6) as [[te h7]|]; [|discriminate].
  unfold ret. intros Q. now injection Q as _ _ <- _.
Qed.

Lemma dispatch_assign_without_t_ (np_exp np_log : float -> float)
      (kw : kwargs) (rtau rtau_ : ref) (res : list arr)
      (varu vars : float) (ut st ut_ st_ : arr) (h : heap) :
  dispatch np_exp np_log kw AssignTimepoints rtau rtau_ None res varu vars
           ut st ut_ st_ h = None.
Proof.
  unfold dispatch. cbv zeta. unfold bind.
  destruct (read rtau_ h) as [[a_ h1]|]; [|reflexivity].
  destruct (write rtau_ _ h1) as [[[] h2]|]; [|reflexivity].
  destruct (read rtau h2) as [[a h3]|]; [|reflexivity].
  destruct (write rtau _ h3) as [[[] h4]|]; [|reflexivity].
  destruct (read rtau h4) as [[b h5]|]; [|reflexivity].
  destruct (read rtau_ h5) as [[b_ h6]|]; reflexivity.
Qed.

(** X17.  [assign_timepoints] labels every cell with a branch, 0
    (repression) or 1 (induction): the steady-state indices 2 and 3 of
    the argmin do not reach the caller. *)
Theorem assign_timepoints_labels_are_branches
        (np_exp np_log : float -> float) (kw : kwargs) (h h' : heap)
        (t tau : arr) (o : list nat) :
  assign_timepoints np_exp np_log kw h = Some (RAssign t tau o, h') ->
  Forall (fun b => b = 0%nat \/ b = 1%nat) o.
Proof.
  unfold assign_timepoints. rewrite compute_divergence_stages.
  destruct (shared_stage np_exp np_log kw h)
    as [[[[[[x rtau] rtau_] t_] h1] own]|] eqn:S; [|discriminate].
  destruct (shared_stage_candidates _ _ _ _ _ _ _ _ _ _ S)
    as (distu & distu_ & dists & dists_ & X).
  pose proof (candidate_distances_length kw (kw_std_u kw / kw_scaling kw)
                distu distu_ dists dists_) as L.
  rewrite <- X in L.
  destruct x as [[[res varu] vars] [[[ut st] ut_] st_]].
  cbn [fst] in L.
  destruct (dispatch _ _ _ _ _ _ _ _ _ _ _ _ _ _ _) as [[r2 h2]|] eqn:D;
    [|discriminate].
  intros Q. injection Q as -> _.
  apply dispatch_assign_labels in D. subst o.
  rewrite collapse_is_map.
  assert (N : res <> [])
    by (intros ->; destruct (kw_fit_steady_states kw); discriminate).
  pose proof (argmin_axis0_lt res N) as B.
  apply Forall_forall. intros b Hb. apply in_map_iff in Hb.
  destruct Hb as (k & <- & Hk).
  rewrite Forall_forall in B. specialize (B k Hk). rewrite L in B.
  destruct (kw_fit_steady_states kw);
    destruct k as [|[|[|[|k]]]]; cbn; auto; lia.
Qed.

Lemma assign_timepoints_labels_are_branches_witness :
  Forall (fun b => b = 0%nat \/ b = 1%nat) [0; 1; 0]%nat.
Proof.
  exact (assign_timepoints_labels_are_branches
           exp64 log64 kw_steady heap_steady [[0; 0; 0]; [0; 0; 0]]
           [3; 0; 3] [0; 0; 0] [0; 1; 0]%nat eq_refl).
Defined.

(** X18.  [assign_timepoints] needs the switching time: without [t_] the
    call raises, whatever else is passed (the absolute time of a
    repression cell is [tau_ + t_]). *)
Theorem assign_timepoints_needs_switching_time
        (np_exp np_log : float -> float) (kw : kwargs) (h : heap) :
  kw_t_ kw = None ->
  assign_timepoints np_exp np_log kw h = None.
Proof.
  intros T. unfold assign_timepoints. rewrite compute_divergence_stages.
  destruct (shared_stage np_exp np_log kw h)
    as [[[[[[x rtau] rtau_] t_] h1] own]|] eqn:S; [|reflexivity].
  destruct (shared_stage_refs _ _ _ _ _ _ _ _ _ _ S) as [-> _].
  destruct x as [[[res varu] vars] [[[ut st] ut_] st_]].
  now rewrite T, dispatch_assign_without_t_.
Qed.

Lemma assign_timepoints_needs_switching_time_witness :
  assign_timepoints exp64 log64 kw_no_switch heap_steady = None
  /\ assign_timepoints exp64 log64 kw_steady heap_steady <> None.
Proof.
  split.
  - exact (assign_timepoints_needs_switching_time
             exp64 log64 kw_no_switch heap_steady eq_refl).
  - vm_compute. discriminate.
Defined.

Lemma select_no_cell (mask : list bool) (a : arr) :
  Forall (fun b => b = false) mask -> NP.select mask a = [].
Proof.
  intros H. revert a. induction H as [|b m -> Hm IH]; intros [|x a];
    simpl; auto.
Qed.

(** X19.  When [tau], [tau_] and [t_] are not all supplied, the times
    come from [assign_tau], which reduces over the cells with a positive
    spliced count ([np.max(tau_[s > 0])], or [np.min(u[s > 0])] in the
    projection mode): with no such cell [assign_tau] raises, and so does
    the call, in every mode. *)
Theorem assign_tau_needs_a_positive_spliced_count
        (np_exp np_log : float -> float) (kw : kwargs) (mode : mode_t)
        (h : heap) :
  Forall (fun x => (0 <? x) = false) (kw_s kw) ->
  (forall u0_ s0_,
      assign_tau np_exp np_log (kw_u kw) (kw_s kw) (kw_alpha kw)
                 (kw_beta kw) (kw_gamma kw) (kw_t_ kw) u0_ s0_
                 (kw_projection kw) = None)
  /\ (kw_tau kw = None \/ kw_tau_ kw = None \/ kw_t_ kw = None ->
      compute_divergence np_exp np_log kw mode h = None).
Proof.
  intros Z.
  assert (M : Forall (fun b => b = false)
                     (map (fun x => 0 <? x) (kw_s kw))).
  { apply Forall_forall. intros b Hb. apply in_map_iff in Hb.
    destruct Hb as (x & <- & Hx). rewrite Forall_forall in Z. now apply Z. }
  assert (A : forall u0_ s0_,
             assign_tau np_exp np_log (kw_u kw) (kw_s kw) (kw_alpha kw)
                        (kw_beta kw) (kw_gamma kw) (kw_t_ kw) u0_ s0_
                        (kw_projection kw) = None).
  { intros u0_ s0_. unfold assign_tau, obind.
    destruct (kw_projection kw && (kw_beta kw <? kw_gamma kw)).
    - now rewrite (select_no_cell _ _ M).
    - destruct (tau_inv _ _ _ _ _ _ _ _) as [raw|]; [|reflexivity].
      destruct (tau_inv _ _ _ _ _ _ _ _) as [raw_|]; [|reflexivity].
      now rewrite (select_no_cell _ _ M). }
  split; [exact A|].
  intros N. unfold compute_divergence, obind.
  destruct (anchor np_exp kw) as [[u0_ s0_]|]; [|reflexivity].
  destruct (kw_tau kw) as [r|], (kw_tau_ kw) as [r_|], (kw_t_ kw) as [t|]
    eqn:T;
    try (destruct N as [N|[N|N]]; discriminate);
    first [ now rewrite A
          | pose proof (A u0_ s0_) as A'; rewrite T in A'; now rewrite A' ].
Qed.

Lemma assign_tau_needs_a_positive_spliced_count_witness :
  compute_divergence exp64 log64 kw_no_spliced Distance [] = None
  /\ compute_divergence exp64 log64 kw_no_spliced HardState [] = None.
Proof.
  split.
  - exact (proj2 (assign_tau_needs_a_positive_spliced_count
                    exp64 log64 kw_no_spliced Distance []
                    ltac:(repeat constructor))
                 (or_introl eq_refl)).
  - exact (proj2 (assign_tau_needs_a_positive_spliced_count
                    exp64 log64 kw_no_spliced HardState []
                    ltac:(repeat constructor))
                 (or_introl eq_refl)).
Defined.

(** ** The regression fit *)

Lemma zero_or_nan_SF (x : float) :
  (x =? 0) = true \/ is_nan x = true <->
  match Prim2SF x with S754_zero _ | S754_nan => True | _ => False end.
Proof.
  rewrite F64.is_zero_SF, F64.is_nan_SF.
  destruct (Prim2SF x) as [s|s| |s m e]; split; try tauto; try eauto;
    intros [[s' H]|H]; discriminate.
Qed.

Lemma zero_mul_zero_or_nan (z u : float) :
  (z =? 0) = true -> (z * u =? 0) = true \/ is_nan (z * u) = true.
Proof.
  intros Z. apply F64.is_zero_SF in Z. destruct Z as [s Z].
  apply zero_or_nan_SF. rewrite mul_spec, Z.
  destruct (Prim2SF u); exact I.
Qed.

Lemma zero_or_nan_add (x y : float) :
  (x =? 0) = true \/ is_nan x = true ->
  (y =? 0) = true \/ is_nan y = true ->
  (x + y =? 0) = true \/ is_nan (x + y) = true.
Proof.
  rewrite !zero_or_nan_SF, add_spec.
  destruct (Prim2SF x) as [s|s| |s m e], (Prim2SF y) as [s'|s'| |s' m' e'];
    simpl; try tauto.
  destruct s, s'; tauto.
Qed.

Lemma zero_or_nan_sum (l : arr) :
  Forall (fun x => (x =? 0) = true \/ is_nan x = true) l ->
  (NP.sum l =? 0) = true \/ is_nan (NP.sum l) = true.
Proof.
  intros H. destruct H as [|x l Hx Hl]; [now left|].
  simpl. revert x Hx. induction Hl as [|y l Hy Hl IH]; intros x Hx.
  - exact Hx.
  - simpl. apply IH. now apply zero_or_nan_add.
Qed.

Lemma zero_or_nan_over_zero (x z : float) :
  (x =? 0) = true \/ is_nan x = true -> (z =? 0) = true ->
  is_nan (x / z) = true.
Proof.
  intros X Z. apply zero_or_nan_SF in X. apply F64.is_zero_SF in Z.
  destruct Z as [s Z]. apply F64.is_nan_SF. rewrite div_spec, Z.
  destruct (Prim2SF x); try tauto; reflexivity.
Qed.

Lemma sum_of_zero_squares (l : arr) :
  Forall (fun x => (x =? 0) = true) l ->
  (NP.sum (map (fun x => x * x) l) =? 0) = true.
Proof.
  intros H.
  assert (Z : Forall (fun x => x = 0) (map (fun x => x * x) l)).
  { apply Forall_forall. intros y Hy. apply in_map_iff in Hy.
    destruct Hy as (x & <- & Hx). rewrite Forall_forall in H.
    destruct (zero_cases x (H x Hx)) as [-> | ->]; reflexivity. }
  destruct Z as [|x r -> Zr]; [reflexivity|]. simpl.
  induction Zr as [|y r -> Zr IH]; [reflexivity|]. exact IH.
Qed.

(** X20.  [linreg] has no guard on its denominator: for a gene (column)
    whose spliced counts are all zero the fit is 0/0, that is NaN,
    whatever the unspliced counts. *)
Theorem linreg_without_spliced_counts_is_nan (u s : list arr) (j : nat) :
  s <> [] -> length u = length s ->
  Forall (fun r => (j < length r)%nat) s ->
  Forall (fun r => (j < length r)%nat) u ->
  Forall (fun r => (nth j r nan =? 0) = true) s ->
  is_nan (nth j (linreg u s) 0) = true.
Proof.
  intros N L Fs Fu Z. unfold linreg.
  assert (Cs : (j < NP.ncols (map (map (fun x => (x * x)%float)) s))%nat).
  { destruct s as [|r s]; [congruence|]. cbn [map NP.ncols].
    rewrite length_map. now inversion Fs. }
  assert (Cu : (j < NP.ncols (NP.map2 (NP.map2 mul) s u))%nat).
  { destruct s as [|r s]; [congruence|]. destruct u as [|q u];
      [discriminate|].
    cbn [NP.map2 NP.ncols]. rewrite length_map2.
    inversion Fs; inversion Fu; subst. lia. }
  rewrite (nth_map2 _ _ _ j 0 nan nan)
    by (now rewrite length_map, length_transpose).
  rewrite !(@nth_map_lt (list float) float NP.sum _ j nan [])
    by (now rewrite length_transpose).
  rewrite !nth_transpose by assumption.
  apply zero_or_nan_over_zero.
  - apply zero_or_nan_sum. unfold NP.column.
    apply Forall_forall. intros y Hy. apply in_map_iff in Hy.
    destruct Hy as (row & <- & Hrow).
    clear Cs Cu N. revert u L Fu row Hrow.
    induction s as [|r s IH]; intros [|q u] L Fu row Hrow;
      try discriminate; simpl in Hrow; [contradiction|].
    inversion Fs; inversion Fu; inversion Z; subst.
    destruct Hrow as [<- | Hrow].
    + rewrite (nth_map2 _ _ _ j nan nan nan) by assumption.
      now apply zero_mul_zero_or_nan.
    + apply (IH ltac:(assumption) ltac:(assumption) u); auto.
  - unfold NP.column. rewrite map_map.
    rewrite (map_ext_in _ (fun r => nth j r nan * nth j r nan)).
    + rewrite <- (map_map (fun r => nth j r nan) (fun x => x * x)).
      apply sum_of_zero_squares. apply Forall_forall. intros y Hy.
      apply in_map_iff in Hy. destruct Hy as (r & <- & Hr).
      rewrite Forall_forall in Z. now apply Z.
    + intros r Hr. rewrite Forall_forall in Fs.
      now rewrite (nth_map_lt _ r j nan nan) by (now apply Fs).
Qed.

Lemma linreg_without_spliced_counts_is_nan_witness :
  is_nan (nth 1 (linreg [[1; 2]; [3; 4]] [[1; 0]; [2; -0]]) 0) = true
  /\ nth 0 (linreg [[1; 2]; [3; 4]] [[1; 0]; [2; -0]]) 0 = 7 / 5.
Proof.
  split; [|reflexivity].
  apply linreg_without_spliced_counts_is_nan.
  - discriminate.
  - reflexivity.
  - repeat constructor.
  - repeat constructor.
  - repeat constructor.
Defined.

(** ** The projection mode of [assign_tau] *)

Lemma length_linspace (start stop : float) (num : nat) :
  length (NP.linspace start stop num) = num.
Proof.
  unfold NP.linspace. cbv zeta.
  set (y := map (fun v => v + start) _).
  assert (L : length y = num).
  { unfold y. rewrite length_map.
    destruct (_ =? 0); now rewrite !length_map, length_seq. }
  destruct (Nat.ltb 1 num) eqn:E; [|exact L].
  apply Nat.ltb_lt in E.
  rewrite length_app, removelast_firstn_len, length_firstn, L. simpl. lia.
Qed.

Lemma last_linspace (start stop : float) (num : nat) :
  (1 < num)%nat -> last (NP.linspace start stop num) nan = stop.
Proof.
  intros H. unfold NP.linspace. cbv zeta.
  apply Nat.ltb_lt in H. rewrite H. apply last_last.
Qed.

Lemma grid_size (n : nat) :
  (200 <= Nat.min (Nat.max (n / 5) 200) 500 <= 500)%nat.
Proof. lia. Qed.

Lemma nearest_point_on_grid (A : Type) (d : A -> float) (xt : list A)
      (tpoints : arr) :
  length xt = length tpoints -> tpoints <> [] ->
  In (nth (NP.argmin (map d xt)) tpoints nan) tpoints.
Proof.
  intros L N. apply nth_In. rewrite <- L, <- (length_map d xt).
  apply argmin_lt_length. destruct xt; [|discriminate].
  destruct tpoints; [congruence | discriminate].
Qed.

(** X21.  In the projection mode ([assignment_mode] 'projection' with
    [beta < gamma]) [assign_tau] assigns grid times: with [num =
    clip(len(u) / 5, 200, 500)], every induction time is one of the
    [num] points of [linspace(0, t_, num)], whose last point is [t_],
    and every repression time is one of the [num - 1] points of a grid
    [linspace(0, t0, num)[1:]]; there is one time per cell. *)
Theorem projection_assigns_grid_times
        (np_exp np_log : float -> float) (u s : arr)
        (alpha beta gamma te u0_ s0_ : float)
        (tau tau_ : arr) (t' : option float) :
  (beta <? gamma) = true ->
  length s = length u ->
  assign_tau np_exp np_log u s alpha beta gamma (Some te) u0_ s0_ true
  = Some (tau, tau_, t') ->
  let num := Nat.min (Nat.max (length u / 5) 200) 500 in
  let grid := NP.linspace 0 te num in
  (200 <= num <= 500)%nat
  /\ length grid = num /\ last grid nan = te
  /\ length tau = length u /\ length tau_ = length u
  /\ Forall (fun x => In x grid) tau
  /\ exists t0, Forall (fun x => In x (tl (NP.linspace 0 t0 num))) tau_.
Proof.
  intros B L Q num grid. revert Q.
  unfold assign_tau. rewrite B. cbn [andb]. unfold obind.
  destruct (NP.min _) as [u_min|]; [|discriminate].
  destruct (tau_inv _ _ _ _ _ _ _ _) as [t0|]; [|discriminate].
  intros Q. injection Q as <- <- <-.
  pose proof (grid_size (length u)) as G. fold num in G.
  assert (Lg : forall stop, length (NP.linspace 0 stop num) = num)
    by (intros; apply length_linspace).
  repeat split; try lia.
  - apply Lg.
  - apply last_linspace. lia.
  - now rewrite length_map, length_combine, L, Nat.min_id.
  - now rewrite length_map, length_combine, L, Nat.min_id.
  - apply Forall_forall. intros x Hx. apply in_map_iff in Hx.
    destruct Hx as (xi & <- & _). apply nearest_point_on_grid.
    + apply length_map.
    + intros E. apply (f_equal (@length float)) in E. unfold grid in E.
      rewrite length_linspace in E. simpl in E. lia.
  - exists (hd nan t0). apply Forall_forall. intros x Hx.
    apply in_map_iff in Hx. destruct Hx as (xi & <- & _).
    apply nearest_point_on_grid.
    + apply length_map.
    + intros E.
      destruct (NP.linspace 0 (hd nan t0) _) as [|y [|z r]] eqn:El;
        try discriminate;
        apply (f_equal (@length float)) in El;
        rewrite length_linspace in El; simpl in El; lia.
Qed.

Lemma projection_assigns_grid_times_witness :
  exists tau tau_,
    assign_tau exp64 log64 [1; 0.5] [1; 0.25] 2 0.5 1 (Some 3) 1.5 1 true
    = Some (tau, tau_, Some 3)
    /\ length (NP.linspace 0 3 200) = 200%nat
    /\ last (NP.linspace 0 3 200) nan = 3
    /\ Forall (fun x => In x (NP.linspace 0 3 200)) tau.
Proof.
  destruct (assign_tau exp64 log64 [1; 0.5] [1; 0.25] 2 0.5 1 (Some 3)
                       1.5 1 true) as [[[tau tau_] t']|] eqn:E.
  - destruct (projection_assigns_grid_times
                exp64 log64 [1; 0.5] [1; 0.25] 2 0.5 1 3 1.5 1
                tau tau_ t' eq_refl eq_refl E)
      as (_ & Lg & La & _ & _ & F & _).
    rewrite (assign_tau_keeps_t_ _ _ _ _ _ _ _ _ _ _ _ _ _ _ E).
    exists tau, tau_. repeat split; assumption.
  - vm_compute in E. discriminate.
Defined.

(** ** Soft weights *)

Lemma nth_error_map_some {A B : Type} (f : A -> B) (l : list A) (k : nat)
      (y : B) :
  nth_error (map f l) k = Some y -> exists x, y = f x.
Proof.
  rewrite nth_error_map. destruct (nth_error l k) as [x|]; [|discriminate].
  intros Q. injection Q as <-. now exists x.
Qed.

(** X22.  In mode 'soft_eval' with the steady states fitted and without
    normalization, the two weight rows the call returns ([o_] for the
    repression curve, [o] for the induction curve) hold no negative
    number: each likelihood is reduced by the larger steady-state
    likelihood and clipped at 0. *)
Theorem soft_eval_weights_not_negative
        (np_exp np_log : float -> float) (kw : kwargs) (h h' : heap)
        (rows : list arr) :
  kw_fit_steady_states kw = true -> kw_normalized kw = false ->
  compute_divergence np_exp np_log kw SoftEval h = Some (RMatrix rows, h') ->
  exists o_ o ut st,
    rows = [o_; o; ut; st]
    /\ Forall not_negative o_ /\ Forall not_negative o.
Proof.
  intros Fit Nz. rewrite compute_divergence_stages.
  destruct (shared_stage np_exp np_log kw h)
    as [[[[[[[[[res varu] vars] [[[ut st] ut_] st_]] rtau] rtau_] t_] h1] own]|];
    [|discriminate].
  cbn [dispatch]. rewrite Fit, Nz. unfold bind, lift, ret, row.
  destruct (nth_error (likelihood_of np_exp varu vars res) 2) as [r2|];
    [|discriminate].
  destruct (nth_error (likelihood_of np_exp varu vars res) 3) as [r3|];
    [|discriminate].
  destruct (nth_error _ 0) as [o_|] eqn:E0; [|discriminate].
  destruct (nth_error _ 1) as [o|] eqn:E1; [|discriminate].
  intros Q. injection Q as <- _.
  do 4 eexists. split; [reflexivity|].
  apply nth_error_map_some in E0. apply nth_error_map_some in E1.
  destruct E0 as [x0 ->]. destruct E1 as [x1 ->].
  split; apply Forall_map2; intros; apply clip_floor_not_negative.
Qed.

Lemma soft_eval_weights_not_negative_witness :
  exists rows o_ o ut st,
    compute_divergence exp64 log64 kw_tie SoftEval heap_tie
    = Some (RMatrix rows, heap_tie)
    /\ rows = [o_; o; ut; st]
    /\ Forall not_negative o_ /\ Forall not_negative o.
Proof.
  destruct (compute_divergence exp64 log64 kw_tie SoftEval heap_tie)
    as [[[rows| | | | |] h']|] eqn:E;
    try (vm_compute in E; discriminate).
  assert (H : h' = heap_tie)
    by (vm_compute in E; now injection E as _ <-).
  subst h'.
  destruct (soft_eval_weights_not_negative
              exp64 log64 kw_tie heap_tie heap_tie rows eq_refl eq_refl E)
    as (o_ & o & ut & st & R & P_ & P).
  exists rows, o_, o, ut, st. auto.
Defined.

(** ** Ties between the two curves *)





